(** * Cloudflare-Gateway-Pihole: the reconciliation engine and its client

    A shallow embedding of [src/__main__.py], [src/cloudflare.py] and the
    redirect loop of [src/domains.py], with the properties of the
    specification stated and settled against it.

    Python values are rendered as follows: [int] is [Z]; [str] is
    [string]; a [set] of domains is a [gset string]; a [dict] is a [gmap];
    a Python list is a [list].  Code that talks to the network or mutates
    [self.cache] lives in the state-and-exception monad [M]. *)

From stdpp Require Import gmap strings list fin_maps pretty sorting.
From Stdlib Require Import ZArith String Ascii.

Open Scope string_scope.
Open Scope Z_scope.

Set Warnings "-clear-no-such-hyp".

(** ** Python builtins used by the sources *)

Module Py.

(** [c.isspace()] on the ASCII range. *)
Definition is_space (c : ascii) : bool :=
  let n := nat_of_ascii c in
  ((9 <=? n) && (n <=? 13) || (28 <=? n) && (n <=? 32))%nat.

Definition is_digit (c : ascii) : bool :=
  let n := nat_of_ascii c in ((48 <=? n) && (n <=? 57))%nat.

Definition digit_val (c : ascii) : Z := Z.of_nat (nat_of_ascii c) - 48.

Fixpoint lstrip (s : string) : string :=
  match s with
  | String c r => if is_space c then lstrip r else s
  | EmptyString => s
  end.

(** [rstrip], written so that it is structural: a trailing run of
    whitespace is dropped. *)
Fixpoint rstrip (s : string) : string :=
  match s with
  | EmptyString => EmptyString
  | String c r =>
      match rstrip r with
      | EmptyString => if is_space c then EmptyString else String c EmptyString
      | r' => String c r'
      end
  end.

Definition strip (s : string) : string := rstrip (lstrip s).

(** The digits of a decimal literal: at least one digit, a single
    underscore allowed between two digits.  [acc] is the value read so
    far, [prev_digit] says whether the previous character was a digit. *)
Fixpoint digits (acc : Z) (prev_digit : bool) (s : string) : option Z :=
  match s with
  | EmptyString => if prev_digit then Some acc else None
  | String c r =>
      if is_digit c then digits (10 * acc + digit_val c) true r
      else if Ascii.eqb c "_" then
        (if prev_digit then
           match r with
           | String d _ => if is_digit d then digits acc false r else None
           | EmptyString => None
           end
         else None)
      else None
  end.

(** The whitespace [int] skips around the literal of an ASCII string:
    that of C's [isspace], which leaves out the separators 28 to 31. *)
Definition is_c_space (c : ascii) : bool :=
  let n := nat_of_ascii c in ((9 <=? n) && (n <=? 13) || (n =? 32))%nat.

Fixpoint skip_c_space (s : string) : string :=
  match s with
  | String c r => if is_c_space c then skip_c_space r else s
  | EmptyString => s
  end.

Fixpoint drop_c_space (s : string) : string :=
  match s with
  | EmptyString => EmptyString
  | String c r =>
      match drop_c_space r with
      | EmptyString => if is_c_space c then EmptyString else String c EmptyString
      | r' => String c r'
      end
  end.

Fixpoint count_digits (s : string) : nat :=
  match s with
  | EmptyString => O
  | String c r => if is_digit c then S (count_digits r) else count_digits r
  end.

(** [sys.get_int_max_str_digits()], as it is by default. *)
Definition int_max_str_digits : nat := 4300.

(** [int(s)] for an ASCII [str] argument, base ten: surrounding whitespace
    is ignored, one sign is allowed, and a literal of more digits than
    [int_max_str_digits] is refused; [None] stands for [ValueError]. *)
Definition int (s : string) : option Z :=
  let literal := drop_c_space (skip_c_space s) in
  if (int_max_str_digits <? count_digits literal)%nat then None
  else
    match literal with
    | String "-" r => Z.opp <$> digits 0 false r
    | String "+" r => digits 0 false r
    | r => digits 0 false r
    end.

(** The part of [s] after its last [sep], if [sep] occurs. *)
Fixpoint after_last (sep : ascii) (s : string) : option string :=
  match s with
  | EmptyString => None
  | String c r =>
      match after_last sep r with
      | Some t => Some t
      | None => if Ascii.eqb c sep then Some r else None
      end
  end.

(** [s.split(sep)[-1]] for a one-character separator. *)
Definition split_last (sep : ascii) (s : string) : string :=
  default s (after_last sep s).

Fixpoint zeros (n : nat) : string :=
  match n with O => EmptyString | S k => String "0" (zeros k) end.

(** [f"{i:03d}"]. *)
Definition fmt_03d (i : Z) : string :=
  if i <? 0 then
    let d := pretty (- i) in "-" +:+ zeros (2 - String.length d) +:+ d
  else
    let d := pretty i in zeros (3 - String.length d) +:+ d.

(** [p in s] for strings. *)
Fixpoint contains (p s : string) : bool :=
  String.prefix p s ||
  match s with
  | String _ r => contains p r
  | EmptyString => false
  end.

(** [s] without the prefix [p], when it starts with it. *)
Fixpoint strip_prefix (p s : string) : option string :=
  match p, s with
  | EmptyString, _ => Some s
  | String a p', String b s' => if Ascii.eqb a b then strip_prefix p' s' else None
  | String _ _, EmptyString => None
  end.

(** The longest prefix of [s] free of [c], and what follows it. *)
Fixpoint span_not (c : ascii) (s : string) : string * string :=
  match s with
  | EmptyString => (EmptyString, EmptyString)
  | String a r =>
      if Ascii.eqb a c then (EmptyString, s)
      else let '(u, v) := span_not c r in (String a u, v)
  end.

(** The longest proper non-empty prefix of [s] that is followed, inside
    [s], by the character [c]. *)
Fixpoint longest_before (c : ascii) (s : string) : option string :=
  match s with
  | EmptyString => None
  | String a r =>
      match longest_before c r with
      | Some u => Some (String a u)
      | None =>
          match r with
          | String b _ => if Ascii.eqb b c then Some (String a EmptyString) else None
          | EmptyString => None
          end
      end
  end.

(** [list.remove(x)] when [x] is known to be in the list: the first
    occurrence goes. *)
Fixpoint remove_first (x : string) (l : list string) : list string :=
  match l with
  | [] => []
  | y :: r => if String.eqb x y then r else y :: remove_first x r
  end.

(** Text files.  A file opened in text mode with the default [newline]
    is written with each line feed replaced by [os.linesep], and read with
    universal newlines: a carriage return, alone or followed by a line
    feed, is read as a line feed. *)
Definition CR : ascii := Eval cbv in ascii_of_nat 13.
Definition LF : ascii := Eval cbv in ascii_of_nat 10.

Fixpoint to_linesep (linesep s : string) : string :=
  match s with
  | EmptyString => EmptyString
  | String c r =>
      if Ascii.eqb c LF then linesep +:+ to_linesep linesep r
      else String c (to_linesep linesep r)
  end.

Fixpoint universal_newlines (s : string) : string :=
  match s with
  | EmptyString => EmptyString
  | String c r =>
      if Ascii.eqb c CR then
        match r with
        | String d r' =>
            if Ascii.eqb d LF then String LF (universal_newlines r')
            else String LF (universal_newlines r)
        | EmptyString => String LF EmptyString
        end
      else String c (universal_newlines r)
  end.

End Py.

(** ** The regular expression of [update_list]

    [re.search(PATTERN, str(e))] and its [group(2)], where PATTERN reads,
    with Q for the double-quote character,

      Qmessage Q:\s*Q(item to be removed, )?([^,]+)(, not found in list)?Q

    The matcher below follows the backtracking order of the pattern: at a
    start position the first optional group is tried present, then absent;
    the greedy comma-free run takes all it can and gives characters back
    until the rest of the pattern fits. *)

Module Re.

Definition quote : ascii := Eval cbv in ascii_of_nat 34.
Definition comma : ascii := ",".

(** The pattern from its second group on, at the head of [s]: group 2. *)
Definition match_tail (s : string) : option string :=
  let '(run, rest) := Py.span_not comma s in
  match run with
  | EmptyString => None
  | _ =>
      match Py.strip_prefix ", not found in list" rest with
      | Some (String c _) =>
          if Ascii.eqb c quote then Some run else Py.longest_before quote run
      | _ => Py.longest_before quote run
      end
  end.

(** The literal the pattern starts with: the key [message] between
    quotes, and a colon. *)
Definition message_key : string :=
  Eval cbv in (String quote "message" +:+ String quote ":").

(** The whole pattern anchored at the head of [s]. *)
Definition match_here (s : string) : option string :=
  match Py.strip_prefix message_key s with
  | None => None
  | Some r =>
      match Py.lstrip r with
      | String c body =>
          if Ascii.eqb c quote then
            match
              match Py.strip_prefix "item to be removed, " body with
              | Some body' => match_tail body'
              | None => None
              end
            with
            | Some g => Some g
            | None => match_tail body
            end
          else None
      | EmptyString => None
      end
  end.

(** [re.search]: the leftmost position where the pattern matches. *)
Fixpoint search_group2 (s : string) : option string :=
  match match_here s with
  | Some g => Some g
  | None =>
      match s with
      | String _ r => search_group2 r
      | EmptyString => None
      end
  end.

End Re.

(** ** Data model *)

(** Identifiers of remote resources are opaque; the model uses numbers. *)
Abbreviation ident := N (only parsing).
Abbreviation Domain := string (only parsing).

(** A list as the API returns it (the dict with keys [id] and [name]). *)
Record lst := Lst { lst_id : ident; lst_name : string }.

(** A rule: its [traffic] expression is the disjunction over [r_list_ids]. *)
Record rule := Rule { r_id : ident; r_name : string; r_list_ids : list ident }.

(** [self.cache]: the keys [lists], [rules] and [mapping]. *)
Record cache := Cache {
  cache_lists : list lst;
  cache_rules : list rule;
  cache_mapping : gmap ident (list Domain)
}.

Definition empty_cache : cache := Cache [] [] ∅.

#[global] Instance lst_eq_dec : EqDecision lst.
Proof. solve_decision. Defined.
#[global] Instance rule_eq_dec : EqDecision rule.
Proof. solve_decision. Defined.

(** ** Exceptions, log lines and the trace of remote mutations *)

(** The messages passed to [error], by call site. *)
Inductive fatal :=
| ExceedsFreeLimit
| TooManyDomains (count limit : Z)
| AtMaximumListCapacity (limit : Z)
| CannotCreateMoreLists (limit unassigned : Z).

Inductive exn :=
| HTTPException (msg : string)
| ValueError (arg : string)
| SystemExit (why : fatal).

(** [except Exception] does not catch [SystemExit]. *)
Definition is_Exception (e : exn) : bool :=
  match e with SystemExit _ => false | _ => true end.

Inductive log_line :=
| FoundOrphans (n : Z)
| DeletedOrphan (name : string)
| FailedToDelete (name : string) (e : exn)
| UpdatedList (name : string) (added removed total : Z)
| SkippedUpdate (name : string) (total : Z)
| CreatedList (name : string) (n : Z)
| UpdatedRule (name : string)
| SkippedRule (name : string)
| CreatedRule (name : string)
| DeletedRule (name : string)
| DeletedList (name : string)
| NotInListRetry (d : Domain).

Inductive event :=
| EvCreateList (name : string) (items : list Domain)
| EvUpdateList (id : ident) (remove append : list Domain)
| EvDeleteList (id : ident)
| EvCreateRule (name : string) (ids : list ident)
| EvUpdateRule (name : string) (id : ident) (ids : list ident)
| EvDeleteRule (id : ident)
| EvSaveCache (c : cache)
| EvInfo (l : log_line)
| EvSilentError (l : log_line).

(** The calls that change the remote store. *)
Definition is_mutation (e : event) : bool :=
  match e with
  | EvCreateList _ _ | EvUpdateList _ _ _ | EvDeleteList _
  | EvCreateRule _ _ | EvUpdateRule _ _ _ | EvDeleteRule _ => true
  | _ => false
  end.

(** ** The world: remote store, cache file, [self.cache] and the trace *)

Record store := Store {
  st_lists : gmap ident (string * gset Domain);
  st_rules : gmap ident (string * list ident);
  st_retired : gset ident
}.

Record world := World {
  remote : store;
  faults : list bool;
  disk : cache;
  mem : cache;
  trace : list event
}.

Definition set_remote (r : store) (w : world) : world :=
  World r (faults w) (disk w) (mem w) (trace w).
Definition set_faults (f : list bool) (w : world) : world :=
  World (remote w) f (disk w) (mem w) (trace w).
Definition set_disk (c : cache) (w : world) : world :=
  World (remote w) (faults w) c (mem w) (trace w).
Definition set_mem (c : cache) (w : world) : world :=
  World (remote w) (faults w) (disk w) c (trace w).
Definition emit (e : event) (w : world) : world :=
  World (remote w) (faults w) (disk w) (mem w) (trace w ++ [e]).

(** ** The monad of the embedding: state and exceptions *)

Inductive res (A : Type) :=
| Ok (a : A)
| Raise (e : exn).
Arguments Ok {A} a.
Arguments Raise {A} e.

Definition M (A : Type) : Type := world → res A * world.

#[global] Instance M_ret : MRet M := λ A a w, (Ok a, w).
#[global] Instance M_bind : MBind M := λ A B f m w,
  match m w with
  | (Ok a, w') => f a w'
  | (Raise e, w') => (Raise e, w')
  end.

Definition raise {A} (e : exn) : M A := λ w, (Raise e, w).
Definition modify (f : world → world) : M unit := λ w, (Ok (), f w).
Definition gets {A} (f : world → A) : M A := λ w, (Ok (f w), w).

(** [try: body / except Exception as e: handler(e)]. *)
Definition try_except {A} (body : M A) (handler : exn → M A) : M A := λ w,
  match body w with
  | (Ok a, w') => (Ok a, w')
  | (Raise e, w') => if is_Exception e then handler e w' else (Raise e, w')
  end.

(** A [for] loop threading an accumulator. *)
Fixpoint foldM {A S} (f : A → S → M S) (l : list A) (s : S) : M S :=
  match l with
  | [] => mret s
  | a :: r => s' ← f a s; foldM f r s'
  end.

(** Modelled from the spec: [info], [silent_error] and [error] of the
    package's [__init__] are not among the sources.  The first two record a
    line; [error] reports the message and terminates the process (section 7:
    the process terminates with a non-zero signal and a descriptive
    message). *)
Definition info (l : log_line) : M unit := modify (emit (EvInfo l)).
Definition silent_error (l : log_line) : M unit := modify (emit (EvSilentError l)).
Definition error {A} (why : fatal) : M A := raise (SystemExit why).

(** ** The remote API

    Modelled from the spec: [cloudflare_gateway_request], [retry] and
    [rate_limited_request] of [src/requests.py] are not among the sources.
    A request either goes through or fails with an [HTTPException]; the
    retries of the [retry] decorator are folded into that outcome, and
    [faults] lists, call by call, whether the transport gives up.  The
    store keeps lists and rules by identifier and never reissues an
    identifier.  A mutating request is traced when it is issued. *)

Module Api.

Definition transport : M unit := λ w,
  match faults w with
  | true :: fs => (Raise (HTTPException "connection failed"), set_faults fs w)
  | false :: fs => (Ok (), set_faults fs w)
  | [] => (Ok (), w)
  end.

(** The body of the error for an item to remove that the list lacks. *)
Definition not_found_body (d : Domain) : string :=
  "400 {" +:+ String Re.quote "message" +:+ String Re.quote ": " +:+
  String Re.quote "item to be removed, " +:+ d +:+
  ", not found in list" +:+ String Re.quote "}".

Definition no_such_resource : string := "404 resource does not exist".

Definition fresh_id (s : store) : ident :=
  fresh (dom (st_lists s) ∪ dom (st_rules s) ∪ st_retired s).

Definition get_lists_req : M (list lst) :=
  _ ← transport;
  gets (λ w, (λ p, Lst p.1 p.2.1) <$> map_to_list (st_lists (remote w))).

Definition get_rules_req : M (list rule) :=
  _ ← transport;
  gets (λ w, (λ p, Rule p.1 p.2.1 p.2.2) <$> map_to_list (st_rules (remote w))).

(** [GET /lists/{id}/items?limit=1000]. *)
Definition get_items_req (id : ident) : M (list Domain) :=
  _ ← transport;
  r ← gets remote;
  match st_lists r !! id with
  | Some (_, items) => mret (take 1000 (elements items))
  | None => raise (HTTPException no_such_resource)
  end.

Definition post_list_req (name : string) (items : list Domain) : M lst :=
  _ ← modify (emit (EvCreateList name items));
  _ ← transport;
  r ← gets remote;
  let id := fresh_id r in
  _ ← modify (set_remote
         (Store (<[id := (name, list_to_set items)]> (st_lists r)) (st_rules r) (st_retired r)));
  mret (Lst id name).

(** [PATCH /lists/{id}]: removing an item the list does not hold is
    rejected, naming the first such item. *)
Definition patch_list_req (id : ident) (remove append : list Domain) : M lst :=
  _ ← modify (emit (EvUpdateList id remove append));
  _ ← transport;
  r ← gets remote;
  match st_lists r !! id with
  | None => raise (HTTPException no_such_resource)
  | Some (name, items) =>
      match filter (λ d, d ∉ items) remove with
      | d :: _ => raise (HTTPException (not_found_body d))
      | [] =>
          _ ← modify (set_remote
                 (Store (<[id := (name, (items ∖ list_to_set remove) ∪ list_to_set append)]> (st_lists r))
                        (st_rules r) (st_retired r)));
          mret (Lst id name)
      end
  end.

Definition delete_list_req (id : ident) : M unit :=
  _ ← modify (emit (EvDeleteList id));
  _ ← transport;
  r ← gets remote;
  match st_lists r !! id with
  | None => raise (HTTPException no_such_resource)
  | Some _ =>
      modify (set_remote (Store (delete id (st_lists r)) (st_rules r) ({[id]} ∪ st_retired r)))
  end.

Definition post_rule_req (name : string) (ids : list ident) : M rule :=
  _ ← modify (emit (EvCreateRule name ids));
  _ ← transport;
  r ← gets remote;
  let id := fresh_id r in
  _ ← modify (set_remote (Store (st_lists r) (<[id := (name, ids)]> (st_rules r)) (st_retired r)));
  mret (Rule id name ids).

Definition put_rule_req (id : ident) (name : string) (ids : list ident) : M rule :=
  _ ← modify (emit (EvUpdateRule name id ids));
  _ ← transport;
  r ← gets remote;
  match st_rules r !! id with
  | None => raise (HTTPException no_such_resource)
  | Some _ =>
      _ ← modify (set_remote (Store (st_lists r) (<[id := (name, ids)]> (st_rules r)) (st_retired r)));
      mret (Rule id name ids)
  end.

Definition delete_rule_req (id : ident) : M unit :=
  _ ← modify (emit (EvDeleteRule id));
  _ ← transport;
  r ← gets remote;
  match st_rules r !! id with
  | None => raise (HTTPException no_such_resource)
  | Some _ =>
      modify (set_remote (Store (st_lists r) (delete id (st_rules r)) ({[id]} ∪ st_retired r)))
  end.

End Api.

(** ** Iteration order of a Python set

    [list(s)] enumerates a set in an order the language does not fix.  The
    embedding is parametric in that order: any enumeration without
    repetition will do. *)

Class PySetOrder := {
  set_order : gset Domain → list Domain;
  set_order_perm : ∀ s, set_order s ≡ₚ elements s
}.

(** ** [src/cloudflare.py] *)

Definition create_list (name : string) (domains : list Domain) : M lst :=
  Api.post_list_req name domains.

(** The [for attempt in range(max_retries)] loop of [update_list]; falling
    out of the loop returns [None].  [cloudflare_gateway_request] stands
    for the call [cloudflare_gateway_request("PATCH", endpoint, body)] with
    the list, the items to remove and the items to append of the body: the
    loop is the same whatever the endpoint answers. *)
Fixpoint update_list_attempts (cloudflare_gateway_request : ident → list Domain → list Domain → M lst)
    (attempts : list Z) (max_retries : Z) (list_id : ident)
    (remove_list append_items : list Domain) : M (option lst) :=
  match attempts with
  | [] => mret None
  | attempt :: later => λ w,
      match cloudflare_gateway_request list_id remove_list append_items w with
      | (Ok result, w') => (Ok (Some result), w')
      | (Raise (HTTPException e), w') =>
          if Py.contains "not found in list" e && (attempt <? max_retries - 1) then
            match Re.search_group2 e with
            | Some not_found_domain =>
                (_ ← silent_error (NotInListRetry not_found_domain);
                 update_list_attempts cloudflare_gateway_request later max_retries list_id
                   (if bool_decide (not_found_domain ∈ remove_list)
                    then Py.remove_first not_found_domain remove_list
                    else remove_list)
                   append_items) w'
            | None => (Raise (HTTPException e), w')
            end
          else (Raise (HTTPException e), w')
      | (Raise e, w') => (Raise e, w')
      end
  end.

(** [update_list] over an endpoint, and over the endpoint of the model. *)
Definition update_list_with `{PySetOrder}
    (cloudflare_gateway_request : ident → list Domain → list Domain → M lst)
    (list_id : ident) (remove_items : gset Domain)
    (append_items : list Domain) : M (option lst) :=
  let remove_list := set_order remove_items in
  let max_retries := 3 in
  update_list_attempts cloudflare_gateway_request (seqZ 0 max_retries) max_retries
    list_id remove_list append_items.

Definition update_list `{PySetOrder} (list_id : ident) (remove_items : gset Domain)
    (append_items : list Domain) : M (option lst) :=
  update_list_with Api.patch_list_req list_id remove_items append_items.

Definition create_rule (rule_name : string) (list_ids : list ident) : M rule :=
  Api.post_rule_req rule_name list_ids.

Definition update_rule (rule_name : string) (rule_id : ident) (list_ids : list ident) : M rule :=
  Api.put_rule_req rule_id rule_name list_ids.

Definition get_lists (prefix_name : string) : M (list lst) :=
  lists ← Api.get_lists_req;
  mret (filter (λ l, String.prefix prefix_name (lst_name l) = true) lists).

Definition get_rules (rule_name_prefix : string) : M (list rule) :=
  rules ← Api.get_rules_req;
  mret (filter (λ r, String.prefix rule_name_prefix (r_name r) = true) rules).

Definition delete_list (list_id : ident) : M unit := Api.delete_list_req list_id.

Definition delete_rule (rule_id : ident) : M unit := Api.delete_rule_req rule_id.

Definition get_list_items (list_id : ident) : M (list Domain) := Api.get_items_req list_id.

(** ** The cache helpers

    Modelled from the spec: [src/utils.py] is not among the sources.  The
    cache is the local mirror of section 4.3: a read is answered from
    [self.cache] when it holds an answer, and otherwise goes to the remote
    API and is remembered; [load_cache] gives the empty structure when
    there is no file; [save_cache] writes [self.cache] to the file. *)

Module utils.

Definition load_cache : M unit := modify (λ w, set_mem (disk w) w).

Definition save_cache : M unit :=
  modify (λ w, emit (EvSaveCache (mem w)) (set_disk (mem w) w)).

Definition get_current_lists (list_name : string) : M (list lst) :=
  c ← gets mem;
  match cache_lists c with
  | _ :: _ => mret (cache_lists c)
  | [] =>
      lists ← get_lists list_name;
      _ ← modify (λ w, set_mem (Cache lists (cache_rules (mem w)) (cache_mapping (mem w))) w);
      mret lists
  end.

Definition get_current_rules (rule_name : string) : M (list rule) :=
  c ← gets mem;
  match cache_rules c with
  | _ :: _ => mret (cache_rules c)
  | [] =>
      rules ← get_rules rule_name;
      _ ← modify (λ w, set_mem (Cache (cache_lists (mem w)) rules (cache_mapping (mem w))) w);
      mret rules
  end.

Definition get_list_items_cached (list_id : ident) : M (list Domain) :=
  c ← gets mem;
  match cache_mapping c !! list_id with
  | Some items => mret items
  | None =>
      items ← get_list_items list_id;
      _ ← modify (λ w, set_mem
             (Cache (cache_lists (mem w)) (cache_rules (mem w))
                    (<[list_id := items]> (cache_mapping (mem w)))) w);
      mret items
  end.

(** The identifiers a rule refers to; no rule, no identifiers. *)
Definition extract_list_ids (r : option rule) : gset ident :=
  match r with
  | Some r => list_to_set (r_list_ids r)
  | None => ∅
  end.

End utils.

(** ** [src/__main__.py] *)

Record CloudflareManager := Manager { list_name : string; rule_name : string }.

(** [CloudflareManager.__init__]: the two names derive from the prefix and
    the cache is loaded. *)
Definition new_manager (prefix : string) : M CloudflareManager :=
  _ ← utils.load_cache;
  mret (Manager ("[" +:+ prefix +:+ "]") ("[" +:+ prefix +:+ "] Block Ads")).

Definition MAX_LISTS : Z := 298.

Definition len {A} (l : list A) : Z := Z.of_nat (List.length l).
Definition card (s : gset Domain) : Z := Z.of_nat (size s).

(** [next((rule for rule in current_rules if rule["name"] == name), None)]. *)
Definition find_rule (name : string) (rules : list rule) : option rule :=
  List.find (λ r, String.eqb (r_name r) name) rules.

(** The orphan loop: [for lst in orphaned_lists[:MAX_LISTS]] with its
    [try]/[except] and its [break]; the result is [current_list_count]. *)
Fixpoint delete_orphans (orphans : list lst) (current_list_count : Z) : M Z :=
  match orphans with
  | [] => mret current_list_count
  | l :: later =>
      step ← try_except
        (_ ← delete_list (lst_id l);
         _ ← info (DeletedOrphan (lst_name l));
         let current_list_count := current_list_count - 1 in
         mret (current_list_count, bool_decide (current_list_count < MAX_LISTS)))
        (λ e, _ ← silent_error (FailedToDelete (lst_name l) e);
              mret (current_list_count, false));
      let '(current_list_count, stop) := step in
      if stop : bool then mret current_list_count
      else delete_orphans later current_list_count
  end.

(** The keys of a dict built from [names], in insertion order. *)
Fixpoint dict_keys (seen : gset string) (names : list string) : list string :=
  match names with
  | [] => []
  | n :: r => if bool_decide (n ∈ seen) then dict_keys seen r
              else n :: dict_keys ({[n]} ∪ seen) r
  end.

(** [[int(name.split('-')[-1]) for name in names]]. *)
Fixpoint parse_indexes (names : list string) : M (list Z) :=
  match names with
  | [] => mret []
  | name :: r =>
      match Py.int (Py.split_last "-" name) with
      | Some i => later ← parse_indexes r; mret (i :: later)
      | None => raise (ValueError (Py.split_last "-" name))
      end
  end.

Definition max_of (l : list Z) : Z := foldr Z.max 0 l.

Definition set_mapping (id : ident) (items : list Domain) : M unit :=
  modify (λ w, set_mem (Cache (cache_lists (mem w)) (cache_rules (mem w))
                              (<[id := items]> (cache_mapping (mem w)))) w).

(** One turn of [for i in all_indexes]; the accumulator is
    [(remaining_domains, new_list_ids)]. *)
Definition reconcile_index `{PySetOrder} (self : CloudflareManager)
    (domains_to_block : list Domain) (list_name_to_id : gmap string ident)
    (i : Z) (acc : gset Domain * list ident) : M (gset Domain * list ident) :=
  let '(remaining_domains, new_list_ids) := acc in
  let name := list_name self +:+ " - " +:+ Py.fmt_03d i in
  match list_name_to_id !! name with
  | Some list_id =>
      fetched ← get_list_items list_id;
      let current_values : gset Domain := list_to_set fetched in
      let remove_items := current_values ∖ list_to_set domains_to_block in
      let chunk := current_values ∖ remove_items in
      let new_items :=
        if bool_decide (card chunk < 1000) then
          let needed_items := 1000 - card chunk in
          take (Z.to_nat needed_items) (set_order remaining_domains)
        else [] in
      let chunk := chunk ∪ list_to_set new_items in
      let remaining_domains := remaining_domains ∖ list_to_set new_items in
      _ ← (if bool_decide (remove_items ≠ ∅) || bool_decide (new_items ≠ []) then
             _ ← update_list list_id remove_items new_items;
             _ ← info (UpdatedList name (len new_items) (card remove_items) (card chunk));
             set_mapping list_id (set_order chunk)
           else
             silent_error (SkippedUpdate name (card chunk)));
      mret (remaining_domains, (new_list_ids ++ [list_id])%list)
  | None =>
      if bool_decide (remaining_domains ≠ ∅) then
        _ ← (if bool_decide (MAX_LISTS ≤ len new_list_ids) then
               error (CannotCreateMoreLists MAX_LISTS (card remaining_domains))
             else mret ());
        let needed_items := Z.min 1000 (card remaining_domains) in
        let new_items := take (Z.to_nat needed_items) (set_order remaining_domains) in
        let remaining_domains := remaining_domains ∖ list_to_set new_items in
        l ← create_list name new_items;
        _ ← info (CreatedList (lst_name l) (len new_items));
        _ ← modify (λ w, set_mem (Cache (cache_lists (mem w) ++ [l]) (cache_rules (mem w))
                                        (cache_mapping (mem w))) w);
        _ ← set_mapping (lst_id l) new_items;
        mret (remaining_domains, (new_list_ids ++ [lst_id l])%list)
      else mret (remaining_domains, new_list_ids)
  end.

(** Lines 32 to 59: the inventory of lists, the orphans and the gate on the
    number of lists.  The result is [(current_rules, current_list_count)]. *)
Definition reclaim_orphans (self : CloudflareManager) : M (list rule * Z) :=
  all_cf_lists ← get_lists (list_name self);
  let current_list_count := len all_cf_lists in
  current_rules ← utils.get_current_rules (rule_name self);
  let cgp_rule := find_rule (rule_name self) current_rules in
  let active_list_ids := utils.extract_list_ids cgp_rule in
  let orphaned_lists := filter (λ l, lst_id l ∉ active_list_ids) all_cf_lists in
  current_list_count ←
    match orphaned_lists with
    | _ :: _ =>
        _ ← info (FoundOrphans (len orphaned_lists));
        delete_orphans (take (Z.to_nat MAX_LISTS) orphaned_lists) current_list_count
    | [] => mret current_list_count
    end;
  mret (current_rules, current_list_count).

(** Lines 61 to 73: what the lists are known to hold, and the domains that
    still have to be placed.  The result is [(current_lists, remaining_domains)]. *)
Definition take_inventory (self : CloudflareManager) (domains_to_block : list Domain)
    : M (list lst * gset Domain) :=
  current_lists ← utils.get_current_lists (list_name self);
  list_id_to_domains ←
    foldM (λ l (m : gmap ident (gset Domain)),
             items ← utils.get_list_items_cached (lst_id l);
             mret (<[lst_id l := list_to_set items]> m))
          current_lists ∅;
  let domain_to_list_id_keys : gset Domain :=
    map_fold (λ _ domains acc, domains ∪ acc) ∅ list_id_to_domains in
  let remaining_domains := list_to_set domains_to_block ∖ domain_to_list_id_keys in
  mret (current_lists, remaining_domains).

(** Lines 134 to 150: the rule follows the lists in use. *)
Definition sync_rule (self : CloudflareManager) (current_rules : list rule)
    (new_list_ids : list ident) : M unit :=
  let cgp_rule := find_rule (rule_name self) current_rules in
  let cgp_list_ids := utils.extract_list_ids cgp_rule in
  _ ← match cgp_rule with
      | Some r =>
          if bool_decide (list_to_set new_list_ids ≠ cgp_list_ids) then
            updated_rule ← update_rule (rule_name self) (r_id r) new_list_ids;
            _ ← info (UpdatedRule (r_name updated_rule));
            modify (λ w, set_mem (Cache (cache_lists (mem w)) [updated_rule] (cache_mapping (mem w))) w)
          else silent_error (SkippedRule (r_name r))
      | None =>
          r ← create_rule (rule_name self) new_list_ids;
          _ ← info (CreatedRule (r_name r));
          modify (λ w, set_mem (Cache (cache_lists (mem w)) (cache_rules (mem w) ++ [r])
                                      (cache_mapping (mem w))) w)
      end;
  utils.save_cache.

(** Lines 75 to 132: the indexes and the loop over them; the result is
    [(remaining_domains, new_list_ids)] after the last index. *)
Definition reconcile_lists `{PySetOrder} (self : CloudflareManager)
    (domains_to_block : list Domain) (current_lists : list lst)
    (remaining_domains : gset Domain) : M (gset Domain * list ident) :=
  let list_name_to_id : gmap string ident :=
    foldl (λ m l, <[lst_name l := lst_id l]> m) ∅ current_lists in
  parsed ← parse_indexes (dict_keys ∅ (lst_name <$> current_lists));
  let existing_indexes := merge_sort Z.le parsed in
  let needed_lists := (len domains_to_block + 999) `div` 1000 in
  let max_index :=
    match existing_indexes with
    | _ :: _ => max_of (existing_indexes ++ [needed_lists])%list
    | [] => needed_lists
    end in
  let max_index := Z.min max_index MAX_LISTS in
  let all_indexes := seqZ 1 max_index in
  foldM (reconcile_index self domains_to_block list_name_to_id) all_indexes
        (remaining_domains, []).

(** [CloudflareManager.update_resources]; [domains_to_block] is what
    [DomainConverter().process_urls()] returned. *)
Definition update_resources `{PySetOrder} (self : CloudflareManager)
    (domains_to_block : list Domain) : M unit :=
  _ ← (if bool_decide (300000 < len domains_to_block) then error ExceedsFreeLimit else mret ());
  let MAX_DOMAINS := MAX_LISTS * 1000 in
  _ ← (if bool_decide (MAX_DOMAINS < len domains_to_block)
       then error (TooManyDomains (len domains_to_block) MAX_DOMAINS) else mret ());
  '(current_rules, current_list_count) ← reclaim_orphans self;
  _ ← (if bool_decide (MAX_LISTS ≤ current_list_count)
       then error (AtMaximumListCapacity MAX_LISTS) else mret ());
  '(current_lists, remaining_domains) ← take_inventory self domains_to_block;
  '(_, new_list_ids) ← reconcile_lists self domains_to_block current_lists remaining_domains;
  sync_rule self current_rules new_list_ids.

(** [list.sort(key=k)] compares the keys and is stable: lists of equal
    keys keep the order they had.  The sort is by insertion: each list goes
    before the first one, among those that followed it, whose key is not
    smaller. *)
Definition by_key (k : lst → Z) (a b : lst) : Prop := k a ≤ k b.
#[global] Instance by_key_dec k a b : Decision (by_key k a b).
Proof. unfold by_key. apply _. Defined.

Fixpoint insert_by_key (k : lst → Z) (x : lst) (sorted : list lst) : list lst :=
  match sorted with
  | [] => [x]
  | y :: later =>
      if bool_decide (by_key k x y) then x :: sorted else y :: insert_by_key k x later
  end.

Definition sort_by_key (k : lst → Z) (l : list lst) : list lst :=
  foldr (insert_by_key k) [] l.

(** One turn of [for rule in current_rules] and one turn of
    [for lst in current_lists] in [delete_resources]. *)
Definition teardown_rule (r : rule) : M unit :=
  _ ← delete_rule (r_id r);
  _ ← info (DeletedRule (r_name r));
  _ ← modify (λ w, set_mem (Cache (cache_lists (mem w)) [] (cache_mapping (mem w))) w);
  utils.save_cache.

Definition teardown_list (l : lst) : M unit :=
  _ ← delete_list (lst_id l);
  _ ← info (DeletedList (lst_name l));
  _ ← modify (λ w, set_mem
         (Cache (filter (λ item, lst_id item ≠ lst_id l) (cache_lists (mem w)))
                (cache_rules (mem w))
                (delete (lst_id l) (cache_mapping (mem w)))) w);
  utils.save_cache.

(** [CloudflareManager.delete_resources].  [safe_sort_key] of [src/utils.py]
    is a parameter; [current_lists] is the very list object the cache holds,
    so that sorting it in place reorders [self.cache["lists"]] too. *)
Definition delete_resources (safe_sort_key : lst → Z) (self : CloudflareManager) : M unit :=
  current_lists ← utils.get_current_lists (list_name self);
  current_rules ← utils.get_current_rules (rule_name self);
  let current_lists := sort_by_key safe_sort_key current_lists in
  _ ← modify (λ w, set_mem (Cache current_lists (cache_rules (mem w)) (cache_mapping (mem w))) w);
  _ ← foldM (λ r (_ : unit), teardown_rule r) current_rules ();
  foldM (λ l (_ : unit), teardown_list l) current_lists ().

(** [main] for the two actions, from a fresh process. *)
Definition run `{PySetOrder} (prefix : string) (domains_to_block : list Domain) : M unit :=
  self ← new_manager prefix;
  update_resources self domains_to_block.

Definition leave (safe_sort_key : lst → Z) (prefix : string) : M unit :=
  self ← new_manager prefix;
  delete_resources safe_sort_key self.

(** ** [src/domains.py]: [DomainConverter.download_file]

    One attempt of [download_file], below its [retry] decorator.
    [urlparse], [urljoin] and the constructors of [HTTPConnection] and
    [HTTPSConnection] belong to the Python library and are taken as an
    interface; each of them can raise ([ValueError] for the first two,
    [InvalidURL] for a host with a port that is not a number), outside any
    [try] of [download_file].  The network is a script of exchanges, one per
    request; [sent] records the requests. *)

Module Download.

Record ParseResult := {
  scheme : string; netloc : string; path : string;
  params : string; query : string; fragment : string
}.

(** [None] stands for the exception of the library; [connection] says
    whether the constructor of the connection class returns. *)
Class UrlLib := {
  urlparse : string → option ParseResult;
  urljoin : string → string → option string;
  connection : bool → string → bool
}.

(** What [response.read().decode('utf-8')] comes to: the text, an exception
    that the [except] clause catches, or a [UnicodeDecodeError]. *)
Inductive payload :=
| Text (data : string)
| ReadFails
| Undecodable.

(** A response: its status, its [Location] header and its payload. *)
Record response := Response {
  status : Z;
  location : option string;
  body : payload
}.

(** [conn.request("GET", target)] on a connection to [host]. *)
Record request := Request { https : bool; host : string; target : string }.

(** What [conn.request] followed by [conn.getresponse] comes to: a
    response, an exception that the [except] clause catches
    ([http.client.HTTPException], [ConnectionError], [OSError]), or another
    exception, such as the [UnicodeEncodeError] of a target that is not
    ASCII. *)
Inductive exchange :=
| Answered (resp : response)
| Failed
| Crashed.

Record net := Net { script : list exchange; sent : list request }.

Inductive reason :=
| NetworkError (url : string)
| RedirectNetworkError (url : string)
| TooManyRedirects (max_redirects : Z) (url : string)
| BadStatus (url : string) (status : Z)
| ReadError (url : string).

(** Where an exception that [download_file] does not catch arises. *)
Inductive stage :=
| Parsing (url : string)
| Joining (url location : string)
| Connecting (url : string)
| Requesting (url : string)
| Decoding (url : string).

Inductive failure :=
| HTTPException (why : reason)
| RateLimitException (why : reason)
| Uncaught (at_stage : stage).

Definition send (r : request) (n : net) : exchange * net :=
  match script n with
  | x :: later => (x, Net later (sent n ++ [r]))
  | [] => (Failed, Net [] (sent n ++ [r]))
  end.

(** The connection class is chosen by the scheme. *)
Definition is_https (p : ParseResult) : bool := String.eqb (scheme p) "https".

Definition connect (p : ParseResult) (target : string) : request :=
  Request (is_https p) (netloc p) target.

Definition is_redirect (s : Z) : bool :=
  bool_decide (s ∈ [301; 302; 303; 307; 308]).

Definition non_empty (s : string) : bool := negb (String.eqb s "").

(** The target of a redirected request: path, params, query, fragment. *)
Definition full_path (p : ParseResult) : string :=
  path p
  +:+ (if non_empty (params p) then ";" +:+ params p else "")
  +:+ (if non_empty (query p) then "?" +:+ query p else "")
  +:+ (if non_empty (fragment p) then "#" +:+ fragment p else "").

(** The [while] loop over redirect responses.  [fuel] bounds the number
    of turns; [None] means the bound was too small.  A finished loop
    gives the last URL and response. *)
Fixpoint follow `{UrlLib} (fuel : nat) (max_redirects : Z) (url : string)
    (resp : response) (redirect_count : Z) (n : net)
    : option ((string * response + failure) * net) :=
  match fuel with
  | O => None
  | S fuel =>
      if is_redirect (status resp) then
        match location resp with
        | None => Some (inl (url, resp), n)
        | Some loc =>
            if non_empty loc then
              let redirect_count := redirect_count + 1 in
              if bool_decide (max_redirects < redirect_count) then
                Some (inr (HTTPException (TooManyRedirects max_redirects url)), n)
              else
                match urlparse loc with
                | None => Some (inr (Uncaught (Parsing loc)), n)
                | Some parsed_location =>
                    match (if non_empty (netloc parsed_location) then Some loc
                           else urljoin url loc) with
                    | None => Some (inr (Uncaught (Joining url loc)), n)
                    | Some url =>
                        match urlparse url with
                        | None => Some (inr (Uncaught (Parsing url)), n)
                        | Some parsed_url =>
                            if connection (is_https parsed_url) (netloc parsed_url) then
                              match send (connect parsed_url (full_path parsed_url)) n with
                              | (Answered resp, n) =>
                                  follow fuel max_redirects url resp redirect_count n
                              | (Failed, n) =>
                                  Some (inr (HTTPException (RedirectNetworkError url)), n)
                              | (Crashed, n) => Some (inr (Uncaught (Requesting url)), n)
                              end
                            else Some (inr (Uncaught (Connecting url)), n)
                        end
                    end
                end
            else Some (inl (url, resp), n)
        end
      else Some (inl (url, resp), n)
  end.

Definition max_redirects : Z := 10.

Definition download_file `{UrlLib} (url : string) (n : net)
    : option ((string + failure) * net) :=
  match urlparse url with
  | None => Some (inr (Uncaught (Parsing url)), n)
  | Some parsed_url =>
      if connection (is_https parsed_url) (netloc parsed_url) then
        match send (connect parsed_url (path parsed_url)) n with
        | (Failed, n) => Some (inr (HTTPException (NetworkError url)), n)
        | (Crashed, n) => Some (inr (Uncaught (Requesting url)), n)
        | (Answered resp, n) =>
            match follow (S (Z.to_nat max_redirects)) max_redirects url resp 0 n with
            | None => None
            | Some (inr e, n) => Some (inr e, n)
            | Some (inl (url, resp), n) =>
                if bool_decide (status resp ≠ 200) then
                  if bool_decide (500 ≤ status resp) then
                    Some (inr (HTTPException (BadStatus url (status resp))), n)
                  else if bool_decide (status resp = 429) then
                    Some (inr (RateLimitException (BadStatus url (status resp))), n)
                  else Some (inr (HTTPException (BadStatus url (status resp))), n)
                else
                  match body resp with
                  | Text data => Some (inl data, n)
                  | ReadFails => Some (inr (HTTPException (ReadError url)), n)
                  | Undecodable => Some (inr (Uncaught (Decoding url)), n)
                  end
            end
        end
      else Some (inr (Uncaught (Connecting url)), n)
  end.

(** [urlparse] and [urljoin] on URLs of the shape [scheme://host/path],
    with a host that has no port, and references that are a path: no
    params, query, fragment or dot segments.  On these the library raises
    nothing and the two functions below compute what it computes; they
    serve to run examples. *)
Module Simple.

(** The text before and after the first [://], if there is one. *)
Fixpoint split_scheme (s : string) : option (string * string) :=
  match s with
  | EmptyString => None
  | String c r =>
      match Py.strip_prefix "://" s with
      | Some rest => Some (EmptyString, rest)
      | None =>
          match split_scheme r with
          | Some (a, b) => Some (String c a, b)
          | None => None
          end
      end
  end.

Definition slash : ascii := "/".

Definition parse (url : string) : ParseResult :=
  match split_scheme url with
  | Some (sch, rest) =>
      let '(h, p) := Py.span_not slash rest in
      Build_ParseResult sch h p "" "" ""
  | None => Build_ParseResult "" "" url "" "" ""
  end.

(** The path up to and including its last slash. *)
Fixpoint directory (p : string) : string :=
  match p with
  | EmptyString => EmptyString
  | String c r =>
      match directory r with
      | EmptyString => if Ascii.eqb c slash then String c EmptyString else EmptyString
      | d => String c d
      end
  end.

Definition join (base ref : string) : string :=
  let b := parse base in
  match ref with
  | EmptyString => base
  | String c _ =>
      scheme b +:+ "://" +:+ netloc b +:+
      (if Ascii.eqb c slash then ref else directory (path b) +:+ ref)
  end.

Definition urls : UrlLib :=
  {| urlparse := λ url, Some (parse url);
     urljoin := λ base ref, Some (join base ref);
     connection := λ _ _, true |}.

End Simple.

End Download.

(** The enumeration of a set fixed by the library, as one iteration order. *)
Definition elements_order : PySetOrder :=
  {| set_order := elements; set_order_perm := λ s, reflexivity (elements s) |}.

(** ** [src/domains.py]: the sources of the domain list *)

Module Text.

(** [s.split()] with no argument: the maximal runs of characters that are
    not whitespace, on the ASCII range.  [word] is the run being read. *)
Fixpoint split_from (word : string) (s : string) : list string :=
  match s with
  | EmptyString => if String.eqb word "" then [] else [word]
  | String c r =>
      if Py.is_space c then
        (if String.eqb word "" then split_from "" r else word :: split_from "" r)
      else split_from (word +:+ String c "") r
  end.

Definition split (s : string) : list string := split_from "" s.

(** [sep.join(words)]. *)
Fixpoint join (sep : string) (words : list string) : string :=
  match words with
  | [] => ""
  | [w] => w
  | w :: later => w +:+ sep +:+ join sep later
  end.

(** No character of [s] is whitespace; every character is. *)
Fixpoint no_space (s : string) : bool :=
  match s with
  | EmptyString => true
  | String c r => negb (Py.is_space c) && no_space r
  end.

Fixpoint all_space (s : string) : bool :=
  match s with
  | EmptyString => true
  | String c r => Py.is_space c && all_space r
  end.

End Text.

Module Domains.

(** [self.env_file_map] of [DomainConverter.__init__]. *)
Definition env_file_map : gmap string string :=
  list_to_map [("ADLIST_URLS", "./lists/adlist.ini");
               ("WHITELIST_URLS", "./lists/whitelist.ini");
               ("DYNAMIC_BLACKLIST", "./lists/dynamic_blacklist.txt");
               ("DYNAMIC_WHITELIST", "./lists/dynamic_whitelist.txt");
               ("ADLIST_CACHE", "./lists/adlist_cache.txt");
               ("WHITELIST_CACHE", "./lists/whitelist_cache.txt")].

(** [self.env_file_map[key]] for a key the map holds. *)
Definition path_of (key : string) : string := default "" (env_file_map !! key).

(** What a call of the decorated [download_file] comes to: the data, an
    exception that [except HTTPException] catches, or another exception. *)
Inductive fetched :=
| Data (data : string)
| HttpFailure (msg : string)
| OtherFailure (msg : string).

Inductive note :=
| UpdatedCache (cache_file : string)
| FailedToWriteCache (cache_file : string)
| UsingCachedData (cache_file : string) (why : string)
| NoCacheAvailable (url : string).

(** How [download_with_cache] and [process_urls] end when they do not
    return: an exception of [download_file] that is not caught, the exit of
    [error], the [FileNotFoundError] or another exception of a file that is
    read, an exception other than [OSError] of a file that is written, such
    as a [UnicodeEncodeError], and [KeyError]. *)
Inductive failure :=
| Propagated (msg : string)
| Exit (why : note)
| FileNotFoundError (path : string)
| ReadFailed (path : string)
| WriteCrashed (path : string)
| KeyError (key : string).

(** What goes wrong with a path that is opened for writing: [open] raises
    an [OSError] and the file is as it was; or the file is opened, and so
    emptied, and an exception follows that leaves [remains] in it, an
    [OSError] or another one. *)
Inductive write_fault :=
| OpenRefused
| WriteBroken (remains : string)
| WriteCrashes (remains : string).

(** The machine the converter runs on.  [outcomes] gives, call by call,
    what the decorated [download_file] comes to (nothing left: the host is
    unreachable); [files] holds the text of the files that exist, as it is
    stored; [sealed] holds the paths whose writing goes wrong, and how;
    [locked] holds the files that exist and whose reading raises;
    [linesep] is [os.linesep]; [environ] is [os.environ]; [notes] collects
    what [info], [silent_error] and [error] are given. *)
Record host := Host {
  outcomes : list fetched;
  files : gmap string string;
  sealed : gmap string write_fault;
  locked : gset string;
  linesep : string;
  environ : gmap string string;
  notes : list note
}.

Definition record (n : note) (h : host) : host :=
  Host (outcomes h) (files h) (sealed h) (locked h) (linesep h) (environ h) (notes h ++ [n]).

Definition store (path text : string) (h : host) : host :=
  Host (outcomes h) (<[path := text]> (files h)) (sealed h) (locked h) (linesep h)
       (environ h) (notes h).

(** [with open(path, "r") as f: f.read()]. *)
Definition read_text (path : string) (h : host) : string + failure :=
  match files h !! path with
  | None => inr (FileNotFoundError path)
  | Some text =>
      if bool_decide (path ∈ locked h) then inr (ReadFailed path)
      else inl (Py.universal_newlines text)
  end.

(** [with open(path, "w") as f: f.write(data)]: it goes through, raises an
    [OSError], or raises another exception. *)
Inductive written :=
| WriteDone
| WriteOSError
| WriteOtherError.

Definition write_text (path data : string) (h : host) : written * host :=
  match sealed h !! path with
  | None => (WriteDone, store path (Py.to_linesep (linesep h) data) h)
  | Some OpenRefused => (WriteOSError, h)
  | Some (WriteBroken remains) => (WriteOSError, store path remains h)
  | Some (WriteCrashes remains) => (WriteOtherError, store path remains h)
  end.

(** Modelled from the spec: [retry] of [src/requests.py] is not among the
    sources; the outcome of [download_file] under its decorator is read off
    the script of the host. *)
Definition download_file (url : string) (h : host) : fetched * host :=
  match outcomes h with
  | o :: later =>
      (o, Host later (files h) (sealed h) (locked h) (linesep h) (environ h) (notes h))
  | [] => (HttpFailure url, h)
  end.

(** [os.getenv(name, "")]. *)
Definition getenv (h : host) (name : string) : string :=
  default "" (environ h !! name).

Definition read_urls_from_env (h : host) (env_var : string) : list string :=
  let urls := getenv h env_var in
  Py.strip <$> filter (λ url, Py.strip url ≠ "") (Text.split urls).

(** [read_urls]; [read_urls_from_file] rests on [ConfigParser] and is a
    parameter. *)
Definition read_urls (read_urls_from_file : string → host → list string)
    (h : host) (env_var : string) : list string + failure :=
  match env_file_map !! env_var with
  | None => inr (KeyError env_var)
  | Some file_path =>
      inl (read_urls_from_file file_path h ++ read_urls_from_env h env_var)%list
  end.

(** Modelled from the spec: [error] of the package's [__init__] is not
    among the sources; it ends the process, so that the [raise] after it is
    not reached. *)
Definition download_with_cache (url cache_file : string) (h : host)
    : (string + failure) * host :=
  match download_file url h with
  | (Data data, h) =>
      match write_text cache_file data h with
      | (WriteDone, h) => (inl data, record (UpdatedCache cache_file) h)
      | (WriteOSError, h) => (inl data, record (FailedToWriteCache cache_file) h)
      | (WriteOtherError, h) => (inr (WriteCrashed cache_file), h)
      end
  | (HttpFailure e, h) =>
      match read_text cache_file h with
      | inl cached_data => (inl cached_data, record (UsingCachedData cache_file e) h)
      | inr (FileNotFoundError _) =>
          (inr (Exit (NoCacheAvailable url)), record (NoCacheAvailable url) h)
      | inr other => (inr other, h)
      end
  | (OtherFailure e, h) => (inr (Propagated e), h)
  end.

(** The cache file of the [i]-th URL of a list. *)
Definition cache_path (base : string) (i : nat) : string :=
  if bool_decide (i = 0%nat) then base else base +:+ "." +:+ pretty i.





End Domains.

(** ** Predicates and sample inputs used by the statements *)

(** The exceptions of the transport layer. *)
Definition is_http (e : exn) : Prop := ∃ msg, e = HTTPException msg.

(** A desired list of 399001 distinct domains, which needs 400 lists. *)
Fixpoint label (p : positive) : Domain :=
  match p with
  | xH => "a.example"
  | xO q => "b" +:+ label q
  | xI q => "c" +:+ label q
  end.

Definition four_hundred_lists : list Domain :=
  (Pos.iter (λ acc : positive * list Domain, (Pos.succ acc.1, label acc.1 :: acc.2))
            (xH, []) 399001).2.

Definition blank_world : world := World (Store ∅ ∅ ∅) [] empty_cache empty_cache [].

Definition cgp : CloudflareManager := Manager "[CGP]" "[CGP] Block Ads".

(** A store with one managed list, which holds two domains and is not
    referenced by any rule. *)
Definition first_name : string := "[CGP] - 001".
Definition one_list_world : world :=
  World (Store {[ 7%N := (first_name, ({[ "a.example"; "b.example" ]} : gset Domain)) ]} ∅ ∅)
        [] empty_cache empty_cache [].

(** A store whose rule references one managed list, the name of which
    does not end with a number. *)
Definition misnamed_world : world :=
  World (Store {[ 7%N := ("[CGP] - old", ({[ "a.example" ]} : gset Domain)) ]}
               {[ 9%N := ("[CGP] Block Ads", [7%N]) ]} ∅)
        [] empty_cache empty_cache [].

(** Whether the next request fails in transport, and the world once the
    transport has answered. *)
Definition fails (w : world) : bool :=
  match faults w with true :: _ => true | _ => false end.
Definition tick (w : world) : world := set_faults (tail (faults w)) w.

Definition connection_failed {A} : res A := Raise (HTTPException "connection failed").

(** The store with the items of a list replaced. *)
Definition put_list (id : ident) (name : string) (items : gset Domain) (s : store) : store :=
  Store (<[id := (name, items)]> (st_lists s)) (st_rules s) (st_retired s).
Definition drop_list (id : ident) (s : store) : store :=
  Store (delete id (st_lists s)) (st_rules s) ({[id]} ∪ st_retired s).
Definition put_rule (id : ident) (name : string) (ids : list ident) (s : store) : store :=
  Store (st_lists s) (<[id := (name, ids)]> (st_rules s)) (st_retired s).
Definition drop_rule (id : ident) (s : store) : store :=
  Store (st_lists s) (delete id (st_rules s)) ({[id]} ∪ st_retired s).

(** A domain the regular expression can give back: not empty, no comma. *)
Fixpoint no_comma (s : string) : bool :=
  match s with
  | EmptyString => true
  | String c r => negb (Ascii.eqb c Re.comma) && no_comma r
  end.

Definition valid_domain (d : Domain) : Prop := d ≠ "" ∧ no_comma d = true.

(** The items to remove that the remote list does not hold. *)
Definition stale (items : gset Domain) (rm : list Domain) : list Domain :=
  filter (λ d, d ∉ items) rm.

(** No transport failure in the next [n] requests. *)
Definition quiet (n : nat) (w : world) : Prop :=
  Forall (λ b, b = false) (take n (faults w)).

(** The removal lists of successive attempts when the items of [missing]
    are reported one after the other. *)
Fixpoint removals (rm missing : list Domain) : list (list Domain) :=
  match missing with
  | [] => [rm]
  | d :: later => rm :: removals (Py.remove_first d rm) later
  end.

(** The error of the list-creation branch. *)
Definition is_loop_capacity_error {A} (r : res A) : Prop :=
  ∃ limit unassigned, r = Raise (SystemExit (CannotCreateMoreLists limit unassigned)).

(** [m] only appends to the trace, and what it appends satisfies [P]. *)
Definition emits {A} (P : event → Prop) (m : M A) : Prop :=
  ∀ w r w', m w = (r, w') → ∃ new, trace w' = (trace w ++ new)%list ∧ Forall P new.

Definition is_log (e : event) : Prop :=
  match e with EvInfo _ | EvSilentError _ | EvSaveCache _ => True | _ => False end.

(** The events of the three stages of a pass. *)
Definition reclaim_event (e : event) : Prop :=
  match e with EvDeleteList _ | EvInfo _ | EvSilentError _ => True | _ => False end.
Definition list_event (e : event) : Prop :=
  match e with
  | EvCreateList _ _ | EvUpdateList _ _ _ | EvInfo _ | EvSilentError _ => True
  | _ => False
  end.
Definition rule_event (e : event) : Prop :=
  match e with
  | EvCreateRule _ _ | EvUpdateRule _ _ _ | EvInfo _ | EvSilentError _ | EvSaveCache _ => True
  | _ => False
  end.

(** The name of the list at index [i]. *)
Definition canon (self : CloudflareManager) (i : Z) : string :=
  list_name self +:+ " - " +:+ Py.fmt_03d i.

(** [self.cache] with the items recorded for a list, and with one more list. *)
Definition with_mapping (id : ident) (items : list Domain) (w : world) : world :=
  set_mem (Cache (cache_lists (mem w)) (cache_rules (mem w))
                 (<[id := items]> (cache_mapping (mem w)))) w.
Definition with_list (l : lst) (w : world) : world :=
  set_mem (Cache (cache_lists (mem w) ++ [l]) (cache_rules (mem w)) (cache_mapping (mem w))) w.

(** The plan for an index that has a list: what is fetched, dropped, kept
    and added. *)
Definition top_up `{PySetOrder} (kept remaining : gset Domain) : list Domain :=
  if bool_decide (card kept < 1000)
  then take (Z.to_nat (1000 - card kept)) (set_order remaining)
  else [].

(** The seed of a new list. *)
Definition seed `{PySetOrder} (remaining : gset Domain) : list Domain :=
  take (Z.to_nat (Z.min 1000 (card remaining))) (set_order remaining).

(** A name under the managed prefix. *)
Definition managed (self : CloudflareManager) (name : string) : Prop :=
  String.prefix (list_name self) name = true.

(** The check, for one index, that the suffix of a canonical name reads
    back as the index. *)
Definition suffix_reads_back (j : Z) : bool :=
  bool_decide (Py.int (" " +:+ Py.fmt_03d j) = Some j) &&
  bool_decide (Py.after_last "-" (" " +:+ Py.fmt_03d j) = None).

(** What [get_lists] and [get_rules] see in a store. *)
Definition remote_lists (p : string) (s : store) : list lst :=
  filter (λ l, String.prefix p (lst_name l) = true)
         ((λ q, Lst q.1 q.2.1) <$> map_to_list (st_lists s)).
Definition remote_rules (p : string) (s : store) : list rule :=
  filter (λ r, String.prefix p (r_name r) = true)
         ((λ q, Rule q.1 q.2.1 q.2.2) <$> map_to_list (st_rules s)).

Definition is_delete_list (e : event) : bool :=
  match e with EvDeleteList _ => true | _ => false end.
Definition is_create_list (e : event) : bool :=
  match e with EvCreateList _ _ => true | _ => false end.
Definition is_failure_record (e : event) : bool :=
  match e with EvSilentError (FailedToDelete _ _) => true | _ => false end.
Definition deleted_id (e : event) : option ident :=
  match e with EvDeleteList id => Some id | _ => None end.

(** The lists of a store once the lists [gone] are deleted. *)
Definition without (gone : list ident) (lists : gmap ident (string * gset Domain))
    : gmap ident (string * gset Domain) :=
  foldl (λ m id, delete id m) lists gone.

(** The orphan loop has stopped on its [break]: right after the deletion
    of the last list it tried, which brought the count under [MAX_LISTS]. *)
Definition stopped_after (tried : list lst) (gone : list ident) (new : list event)
    (count : Z) : Prop :=
  ∃ l, last tried = Some l ∧ last gone = Some (lst_id l) ∧
       last new = Some (EvInfo (DeletedOrphan (lst_name l))) ∧ count < MAX_LISTS.

(** ** Teardown *)

(** The rules and the lists a teardown works on: what [self.cache] holds,
    or else what the store holds. *)
Definition known_lists (self : CloudflareManager) (w : world) : list lst :=
  match cache_lists (mem w) with
  | _ :: _ => cache_lists (mem w)
  | [] => remote_lists (list_name self) (remote w)
  end.
Definition known_rules (self : CloudflareManager) (w : world) : list rule :=
  match cache_rules (mem w) with
  | _ :: _ => cache_rules (mem w)
  | [] => remote_rules (rule_name self) (remote w)
  end.

Definition rule_request (r : rule) : event := EvDeleteRule (r_id r).
Definition list_request (l : lst) : event := EvDeleteList (lst_id l).

(** What a teardown deletes: a rule or a list; the request for it and the
    line logged once it is deleted; the targets of a teardown in the order
    of the two loops; and the events of a deletion that goes through, [c]
    being the cache that is saved. *)
Inductive target :=
| TRule (r : rule)
| TList (l : lst).

Definition target_request (t : target) : event :=
  match t with TRule r => rule_request r | TList l => list_request l end.

Definition target_log (t : target) : log_line :=
  match t with TRule r => DeletedRule (r_name r) | TList l => DeletedList (lst_name l) end.

Definition teardown_targets (key : lst → Z) (self : CloudflareManager) (w : world)
    : list target :=
  (TRule <$> known_rules self w) ++ (TList <$> sort_by_key key (known_lists self w)).

Definition completed (t : target) (c : cache) : list event :=
  [target_request t; EvInfo (target_log t); EvSaveCache c].

(** The key used in the examples: the number at the end of the name, and 0
    when there is none. *)
Definition index_key (l : lst) : Z := default 0 (Py.int (Py.split_last "-" (lst_name l))).

(** A store with a rule and its two lists, where the third request fails
    in transport. *)
Definition two_lists_store : store :=
  Store {[ 7%N := ("[CGP] - 001", ({[ "a.example" ]} : gset Domain));
           8%N := ("[CGP] - 002", ({[ "b.example" ]} : gset Domain)) ]}
        {[ 9%N := ("[CGP] Block Ads", [7%N; 8%N]) ]} ∅.
Definition third_request_fails : world :=
  World two_lists_store [false; false; true] empty_cache empty_cache [].
Definition two_lists_world : world :=
  World two_lists_store [] empty_cache empty_cache [].

(** ** The state a pass expects, and the invariant of its loop *)

Abbreviation lists_map := (gmap ident (string * gset Domain)) (only parsing).

(** The managed lists of a store are well-formed: canonical names with an
    index from 1 to [MAX_LISTS], no name twice, at most 1000 items. *)
Record good_lists (self : CloudflareManager) (L : lists_map) : Prop := {
  gl_canon : ∀ id name items, L !! id = Some (name, items) → managed self name →
             ∃ i, 1 ≤ i ≤ MAX_LISTS ∧ name = canon self i;
  gl_names : ∀ id1 id2 name s1 s2, L !! id1 = Some (name, s1) → L !! id2 = Some (name, s2) →
             managed self name → id1 = id2;
  gl_sizes : ∀ id name items, L !! id = Some (name, items) → managed self name →
             (size items ≤ 1000)%nat
}.

(** The cache agrees with the store: the lists it knows are managed lists of
    the store, it knows all of them if it knows any, and the items it
    records for a list are the items of that list. *)
Record cache_agrees (self : CloudflareManager) (c : cache) (L : lists_map) : Prop := {
  ca_lists : ∀ l, l ∈ cache_lists c →
             managed self (lst_name l) ∧ ∃ items, L !! lst_id l = Some (lst_name l, items);
  ca_all : cache_lists c ≠ [] → ∀ id name items, L !! id = Some (name, items) →
           managed self name → Lst id name ∈ cache_lists c;
  ca_items : ∀ id its, cache_mapping c !! id = Some its →
             ∃ name, L !! id = Some (name, list_to_set its)
}.

(** No domain is in two managed lists. *)
Definition lists_disjoint (self : CloudflareManager) (L : lists_map) : Prop :=
  ∀ id1 id2 n1 n2 s1 s2, L !! id1 = Some (n1, s1) → L !! id2 = Some (n2, s2) →
    managed self n1 → managed self n2 → id1 ≠ id2 → s1 ## s2.

(** A list the loop is done with. *)
Definition settled (D : gset Domain) (R0 : lists_map) (CL : list lst)
    (rem : gset Domain) (ids : list ident) (w : world) (l : lst) : Prop :=
  ∃ items its,
    st_lists (remote w) !! lst_id l = Some (lst_name l, items) ∧
    items ⊆ D ∧ (size items ≤ 1000)%nat ∧
    cache_mapping (mem w) !! lst_id l = Some its ∧ list_to_set its = items ∧
    lst_id l ∈ ids ∧
    (rem ≠ ∅ → (1000 ≤ size items)%nat) ∧
    rem ## items ∧
    (l ∈ CL → ∀ nm it0, R0 !! lst_id l = Some (nm, it0) → it0 ∩ D ⊆ items).

(** A list the loop has yet to visit. *)
Definition pending (R0 : lists_map) (CL : list lst) (w : world) (l : lst) : Prop :=
  l ∈ CL ∧ ∃ it0 its,
    R0 !! lst_id l = Some (lst_name l, it0) ∧
    cache_mapping (mem w) !! lst_id l = Some its ∧ list_to_set its = it0 ∧
    (∀ x, st_lists (remote w) !! lst_id l = Some x → x = (lst_name l, it0)).

(** What holds when the loop starts: [R0] is the store the pass found,
    [CL] the lists of the inventory and [rem] the domains to place. *)
Record loop_entry (self : CloudflareManager) (D : gset Domain) (R0 : lists_map)
    (CL : list lst) (rem : gset Domain) (w : world) : Prop := {
  le_good : good_lists self R0;
  le_lists : ∀ l, l ∈ CL → managed self (lst_name l) ∧ pending R0 CL w l;
  le_sub : ∀ id x, st_lists (remote w) !! id = Some x → R0 !! id = Some x;
  le_all : ∀ id name items, st_lists (remote w) !! id = Some (name, items) →
           managed self name → Lst id name ∈ CL;
  le_cache : cache_lists (mem w) = CL;
  le_rem : ∀ x, x ∈ rem ↔
           x ∈ D ∧ ∀ l nm it0, l ∈ CL → R0 !! lst_id l = Some (nm, it0) → x ∉ it0;
  le_known : ∀ id, id ∈ dom R0 → id ∈ dom (st_lists (remote w)) ∪ st_retired (remote w)
}.

(** The invariant after the indexes up to [k], out of [m]. *)
Record loop_inv (self : CloudflareManager) (D : gset Domain) (R0 : lists_map)
    (CL : list lst) (m k : Z) (rem : gset Domain) (ids : list ident) (w : world) : Prop := {
  li_lists : ∀ l, l ∈ cache_lists (mem w) →
             ∃ j, 1 ≤ j ≤ m ∧ lst_name l = canon self j ∧
                  if decide (j ≤ k) then settled D R0 CL rem ids w l else pending R0 CL w l;
  li_name_inj : ∀ l1 l2, l1 ∈ cache_lists (mem w) → l2 ∈ cache_lists (mem w) →
                lst_name l1 = lst_name l2 → l1 = l2;
  li_id_inj : ∀ l1 l2, l1 ∈ cache_lists (mem w) → l2 ∈ cache_lists (mem w) →
              lst_id l1 = lst_id l2 → l1 = l2;
  li_old : ∀ l, l ∈ CL → l ∈ cache_lists (mem w);
  li_ids : ∀ id, id ∈ ids →
           ∃ l j, l ∈ cache_lists (mem w) ∧ lst_id l = id ∧
                  lst_name l = canon self j ∧ 1 ≤ j ≤ k;
  li_len : len ids ≤ Z.max 0 k;
  li_rem : rem ⊆ D ∧
           ∀ l nm it0, l ∈ CL → R0 !! lst_id l = Some (nm, it0) → rem ## it0;
  li_cover : ∀ x, x ∈ D →
             x ∈ rem ∨
             (∃ l nm it0, l ∈ CL ∧ R0 !! lst_id l = Some (nm, it0) ∧ x ∈ it0) ∨
             (∃ l items, l ∈ cache_lists (mem w) ∧
                         st_lists (remote w) !! lst_id l = Some (lst_name l, items) ∧
                         x ∈ items);
  li_managed : ∀ id name items, st_lists (remote w) !! id = Some (name, items) →
               managed self name → Lst id name ∈ cache_lists (mem w);
  li_occupied : rem ≠ ∅ → ∀ j, 1 ≤ j ≤ k →
                ∃ l, l ∈ cache_lists (mem w) ∧ lst_name l = canon self j;
  li_known : ∀ l, l ∈ cache_lists (mem w) →
             lst_id l ∈ dom (st_lists (remote w)) ∪ st_retired (remote w);
  li_disj : lists_disjoint self R0 →
            ∀ l1 l2 n1 n2 s1 s2,
              l1 ∈ cache_lists (mem w) → l2 ∈ cache_lists (mem w) → l1 ≠ l2 →
              st_lists (remote w) !! lst_id l1 = Some (n1, s1) →
              st_lists (remote w) !! lst_id l2 = Some (n2, s2) → s1 ## s2
}.

(** [list_name_to_id] of the loop. *)
Definition name_dict (current_lists : list lst) : gmap string ident :=
  foldl (λ m l, <[lst_name l := lst_id l]> m) ∅ current_lists.

(** The largest index of the loop, from the indexes read off the names. *)
Definition max_index_of (parsed : list Z) (needed_lists : Z) : Z :=
  Z.min (match merge_sort Z.le parsed with
         | _ :: _ => max_of (merge_sort Z.le parsed ++ [needed_lists])
         | [] => needed_lists
         end) MAX_LISTS.


(** ** Orphans *)

(** The orphans a pass sees: the managed lists of the store that the rule
    the pass knows does not reference. *)
Definition orphans_of (self : CloudflareManager) (w : world) : list lst :=
  filter (λ l, lst_id l ∉ utils.extract_list_ids (find_rule (rule_name self) (known_rules self w)))
         (remote_lists (list_name self) (remote w)).

(** Two lists that no rule references, and room for many more. *)
Definition two_orphans : world :=
  World (Store {[ 7%N := ("[CGP] - 002", ({[ "x.example" ]} : gset Domain));
                  8%N := ("[CGP] - 003", ({[ "y.example" ]} : gset Domain)) ]} ∅ ∅)
        [] empty_cache empty_cache [].

(** What a pass may add to the trace once the orphans are dealt with:
    no deletion of any kind. *)
Definition build_event (e : event) : Prop :=
  match e with EvDeleteList _ | EvDeleteRule _ => False | _ => True end.

(** A request that stays within the plan for the desired set [D]: a new
    list gets between 1 and 1000 desired domains, an update adds at most 1000
    desired domains and removes none of the desired ones. *)
Definition planned (D : gset Domain) (e : event) : Prop :=
  match e with
  | EvCreateList _ items =>
      (1 ≤ List.length items ≤ 1000)%nat ∧ NoDup items ∧ ∀ x, x ∈ items → x ∈ D
  | EvUpdateList _ rm ap =>
      (List.length ap ≤ 1000)%nat ∧ NoDup ap ∧ (∀ x, x ∈ ap → x ∈ D) ∧ (∀ x, x ∈ rm → x ∉ D)
  | _ => True
  end.

(** An event that is not a request about a rule. *)
Definition not_rule_request (e : event) : Prop :=
  match e with
  | EvCreateRule _ _ | EvUpdateRule _ _ _ | EvDeleteRule _ => False
  | _ => True
  end.

(** ** Redirects *)

(** The URL a [Location] leads to from [url]: the [Location] itself when
    it names a host, its join with [url] otherwise; [None] when the library
    raises. *)
Definition hop `{Download.UrlLib} (url loc : string) : option string :=
  match Download.urlparse loc with
  | None => None
  | Some p => if Download.non_empty (Download.netloc p) then Some loc
              else Download.urljoin url loc
  end.

(** The first request of a download, and the request that follows a
    redirect to [url]; [None] when the library raises before the request is
    made. *)
Definition first_request `{Download.UrlLib} (url : string) : option Download.request :=
  match Download.urlparse url with
  | None => None
  | Some p =>
      if Download.connection (Download.is_https p) (Download.netloc p)
      then Some (Download.connect p (Download.path p)) else None
  end.

Definition redirect_request `{Download.UrlLib} (url : string) : option Download.request :=
  match Download.urlparse url with
  | None => None
  | Some p =>
      if Download.connection (Download.is_https p) (Download.netloc p)
      then Some (Download.connect p (Download.full_path p)) else None
  end.

(** The URLs reached from [url] through a sequence of [Location] headers,
    each with the request made for it: each header is resolved against the
    URL reached before it.  [None] when the library raises on the way. *)
Fixpoint route `{Download.UrlLib} (url : string) (locs : list string)
    : option (list (string * Download.request)) :=
  match locs with
  | [] => Some []
  | loc :: later =>
      match hop url loc with
      | None => None
      | Some u =>
          match redirect_request u with
          | None => None
          | Some r =>
              match route u later with
              | None => None
              | Some hops => Some ((u, r) :: hops)
              end
          end
      end
  end.

(** The [Location] the loop follows after an exchange, if it follows one. *)
Definition followed (x : Download.exchange) : option string :=
  match x with
  | Download.Answered resp =>
      if Download.is_redirect (Download.status resp) then
        match Download.location resp with
        | Some loc => if Download.non_empty loc then Some loc else None
        | None => None
        end
      else None
  | _ => None
  end.

(** Two redirects, the second with a relative [Location], and then the
    file. *)
Definition two_hops : Download.net :=
  Download.Net
    [Download.Answered (Download.Response 302 (Some "http://b.example/y/") Download.ReadFails);
     Download.Answered (Download.Response 302 (Some "z.txt") Download.ReadFails);
     Download.Answered (Download.Response 200 None (Download.Text "data"))] [].

(** A server that redirects to itself for ever. *)
Definition redirect_loop : Download.net :=
  Download.Net
    (replicate 11 (Download.Answered (Download.Response 302 (Some "/loop") Download.ReadFails)))
    [].

(** ** The domain sources *)

(** A word: not empty, no whitespace. *)
Definition is_word (u : string) : Prop := u ≠ "" ∧ Text.no_space u = true.


(** The next call of [download_file] on [h] does not give fresh data. *)
Definition next_fails (h : Domains.host) : Prop :=
  match Domains.outcomes h with
  | Domains.HttpFailure _ :: _ | [] => True
  | _ => False
  end.



Definition newline : string := Eval cbv in String (ascii_of_nat 10) "".

Definition sample_host : Domains.host :=
  Domains.Host [Domains.Data ("x.example" +:+ newline); Domains.Data ("y.example" +:+ newline);
                Domains.Data ("ok.example" +:+ newline)]
               {[ "./lists/dynamic_whitelist.txt" := "" ]} ∅ ∅ newline
               {[ "DYNAMIC_BLACKLIST" := "z.example" ]} [].

(** A text without carriage return. *)
Fixpoint no_cr (s : string) : bool :=
  match s with
  | EmptyString => true
  | String c r => negb (Ascii.eqb c Py.CR) && no_cr r
  end.

(** A host whose line separator is that of POSIX or of Windows, and on
    which every file can be written and every file that exists can be
    read. *)
Definition crlf : string := Eval cbv in String Py.CR (String Py.LF "").


(** A host with the files and the settings of [h], on which every
    download fails. *)
Definition offline (h : Domains.host) : Domains.host :=
  Domains.Host [] (Domains.files h) (Domains.sealed h) (Domains.locked h)
               (Domains.linesep h) (Domains.environ h) [].


(** ** The retry of [update_list], in the words of its comments *)

(** A string of ASCII characters only. *)
Fixpoint ascii_only (s : string) : bool :=
  match s with
  | EmptyString => true
  | String c r => (nat_of_ascii c <? 128)%nat && ascii_only r
  end.

(** The words "not found in list" occur in [e]. *)
Definition not_found_in_list (e : string) : Prop :=
  ∃ before after, e = before +:+ "not found in list" +:+ after.

(** [l'] is [l] without the first occurrence of [d], if there is one. *)
Inductive dropped (d : Domain) : list Domain → list Domain → Prop :=
| dropped_first l1 l2 : d ∉ l1 → dropped d (l1 ++ d :: l2) (l1 ++ l2)
| dropped_absent l : d ∉ l → dropped d l l.

(** What the attempt numbered [attempt], of the three numbered 0, 1 and 2,
    comes to over an endpoint [request] when the items to remove are [rm]:
    the list the endpoint returns; or, before the last attempt, on an
    [HTTPException] whose text holds "not found in list" and names a domain,
    a record of it and the next attempt without that domain; or else the
    exception of the endpoint, as it is. *)
Inductive retried (request : ident → list Domain → list Domain → M lst)
    (list_id : ident) (append_items : list Domain) :
    Z → list Domain → world → res (option lst) * world → Prop :=
| retried_returns attempt rm w result w1 :
    request list_id rm append_items w = (Ok result, w1) →
    retried request list_id append_items attempt rm w (Ok (Some result), w1)
| retried_again attempt rm w e d rm' w1 out :
    request list_id rm append_items w = (Raise (HTTPException e), w1) →
    attempt < 2 →
    not_found_in_list e →
    Re.search_group2 e = Some d →
    dropped d rm rm' →
    retried request list_id append_items (attempt + 1) rm'
            (emit (EvSilentError (NotInListRetry d)) w1) out →
    retried request list_id append_items attempt rm w out
| retried_raises attempt rm w x w1 :
    request list_id rm append_items w = (Raise x, w1) →
    attempt = 2 ∨ (∀ e, x = HTTPException e → ¬ not_found_in_list e ∨ Re.search_group2 e = None) →
    retried request list_id append_items attempt rm w (Raise x, w1).

(** What [update_list] makes of the answer to its last request. *)
Definition returned (r : res lst) : res (option lst) :=
  match r with Ok result => Ok (Some result) | Raise e => Raise e end.

(** * Properties *)

(** ** Running the monad *)

Ltac unfold_M :=
  unfold error, info, silent_error, set_mapping, utils.save_cache, utils.load_cache in *;
  unfold mbind, M_bind, mret, M_ret, raise, modify, gets in *.

Ltac unfold_api :=
  unfold create_list, create_rule, update_rule, get_lists, get_rules, delete_list,
    delete_rule, get_list_items, Api.get_lists_req, Api.get_rules_req, Api.get_items_req,
    Api.post_list_req, Api.patch_list_req, Api.delete_list_req, Api.post_rule_req,
    Api.put_rule_req, Api.delete_rule_req, Api.transport in *;
  unfold_M.

Lemma is_http_Exception e : is_http e → is_Exception e = true.
Proof. by intros [msg ->]. Qed.

Lemma bind_Ok {A B} (m : M A) (f : A → M B) w a w' :
  m w = (Ok a, w') → (m ≫= f) w = f a w'.
Proof. intros E. unfold mbind, M_bind. by rewrite E. Qed.

Lemma bind_Raise {A B} (m : M A) (f : A → M B) w e w' :
  m w = (Raise e, w') → (m ≫= f) w = (Raise e, w').
Proof. intros E. unfold mbind, M_bind. by rewrite E. Qed.

Lemma bind_inv {A B} (m : M A) (f : A → M B) w r w'' :
  (m ≫= f) w = (r, w'') →
  (∃ e, m w = (Raise e, w'') ∧ r = Raise e) ∨ (∃ a w', m w = (Ok a, w') ∧ f a w' = (r, w'')).
Proof.
  unfold mbind, M_bind. destruct (m w) as [[a|e] w'] eqn:E; intros Hr.
  - right. eauto.
  - left. exists e. by simplify_eq.
Qed.

(** ** What the client raises *)

Lemma transport_raises w e w' : Api.transport w = (Raise e, w') → is_http e.
Proof.
  unfold Api.transport. intros Hr. repeat case_match; simplify_eq. by eexists.
Qed.

Ltac api_cases := intros; unfold_api; repeat case_match; simplify_eq; try by eexists.

Lemma get_lists_raises p w e w' : get_lists p w = (Raise e, w') → is_http e.
Proof. api_cases. Qed.

Lemma get_rules_raises p w e w' : get_rules p w = (Raise e, w') → is_http e.
Proof. api_cases. Qed.

Lemma get_list_items_raises id w e w' : get_list_items id w = (Raise e, w') → is_http e.
Proof. api_cases. Qed.

Lemma create_list_raises n ds w e w' : create_list n ds w = (Raise e, w') → is_http e.
Proof. api_cases. Qed.

Lemma patch_list_raises id rm ap w e w' :
  Api.patch_list_req id rm ap w = (Raise e, w') → is_http e.
Proof. api_cases. Qed.

Lemma delete_list_raises id w e w' : delete_list id w = (Raise e, w') → is_http e.
Proof. api_cases. Qed.

Lemma delete_rule_raises id w e w' : delete_rule id w = (Raise e, w') → is_http e.
Proof. api_cases. Qed.

Lemma create_rule_raises n ids w e w' : create_rule n ids w = (Raise e, w') → is_http e.
Proof. api_cases. Qed.

Lemma update_rule_raises n id ids w e w' : update_rule n id ids w = (Raise e, w') → is_http e.
Proof. api_cases. Qed.

Lemma update_list_attempts_raises attempts mx id rm ap w e w' :
  update_list_attempts Api.patch_list_req attempts mx id rm ap w = (Raise e, w') → is_http e.
Proof.
  revert rm w. induction attempts as [|a later IH]; intros rm w; simpl.
  - unfold_M. intros Hr. discriminate.
  - destruct (Api.patch_list_req id rm ap w) as [[r|[msg|arg|why]] w1] eqn:E; intros Hr.
    + done.
    + destruct (_ && _).
      * destruct (Re.search_group2 msg); [|simplify_eq; by eexists].
        unfold_M. simpl in Hr. eapply IH, Hr.
      * simplify_eq. by eexists.
    + by apply patch_list_raises in E as [? ?].
    + by apply patch_list_raises in E as [? ?].
Qed.

Lemma update_list_raises `{PySetOrder} id rm ap w e w' :
  update_list id rm ap w = (Raise e, w') → is_http e.
Proof. apply update_list_attempts_raises. Qed.

(** ** C4: the capacity precheck *)

(** C4.  When the desired list holds more than [MAX_LISTS * 1000 = 298000]
    domains, [update_resources] ends in [error] with the world as it found
    it: no request was sent, the remote store, the cache file, [self.cache]
    and the trace are unchanged.  A list that needs 400 lists is such a list. *)
Theorem capacity_precheck `{PySetOrder} (self : CloudflareManager)
    (domains_to_block : list Domain) (w : world) :
  MAX_LISTS * 1000 < len domains_to_block →
  ∃ why, update_resources self domains_to_block w = (Raise (SystemExit why), w).
Proof.
  intros Hbig. unfold update_resources.
  destruct (decide (300000 < len domains_to_block)) as [Hfree|Hfree].
  - exists ExceedsFreeLimit. rewrite (bool_decide_eq_true_2 _ Hfree). done.
  - exists (TooManyDomains (len domains_to_block) (MAX_LISTS * 1000)).
    rewrite (bool_decide_eq_false_2 _ Hfree), (bool_decide_eq_true_2 _ Hbig). done.
Qed.

Lemma capacity_precheck_witness :
  (len four_hundred_lists + 999) `div` 1000 = 400 ∧
  ∃ why, @update_resources elements_order cgp
           four_hundred_lists blank_world
         = (Raise (SystemExit why), blank_world).
Proof.
  split; [by vm_compute|].
  apply (@capacity_precheck elements_order). by vm_compute.
Defined.

(** ** The requests, as equations *)

Lemma transport_eq w :
  Api.transport w = ((if fails w then connection_failed else Ok ()), tick w).
Proof.
  unfold Api.transport, fails, tick, connection_failed.
  destruct w as [r f d m t]; simpl. by destruct f as [|[] f].
Qed.

Lemma get_lists_eq p w :
  get_lists p w =
  if fails w then (connection_failed, tick w)
  else (Ok (filter (λ l, String.prefix p (lst_name l) = true)
              ((λ q, Lst q.1 q.2.1) <$> map_to_list (st_lists (remote w)))), tick w).
Proof.
  unfold get_lists, Api.get_lists_req. unfold_M. rewrite transport_eq.
  by destruct (fails w).
Qed.

Lemma get_rules_eq p w :
  get_rules p w =
  if fails w then (connection_failed, tick w)
  else (Ok (filter (λ r, String.prefix p (r_name r) = true)
              ((λ q, Rule q.1 q.2.1 q.2.2) <$> map_to_list (st_rules (remote w)))), tick w).
Proof.
  unfold get_rules, Api.get_rules_req. unfold_M. rewrite transport_eq.
  by destruct (fails w).
Qed.

Lemma get_list_items_eq id w :
  get_list_items id w =
  if fails w then (connection_failed, tick w)
  else match st_lists (remote w) !! id with
       | Some (_, items) => (Ok (take 1000 (elements items)), tick w)
       | None => (Raise (HTTPException Api.no_such_resource), tick w)
       end.
Proof.
  unfold get_list_items, Api.get_items_req. unfold_M. rewrite transport_eq.
  destruct (fails w); [done|]. simpl.
  by destruct (st_lists (remote w) !! id) as [[? ?]|].
Qed.

Lemma create_list_eq name items w :
  create_list name items w =
  let w1 := tick (emit (EvCreateList name items) w) in
  if fails w then (connection_failed, w1)
  else let id := Api.fresh_id (remote w) in
       (Ok (Lst id name), set_remote (put_list id name (list_to_set items) (remote w)) w1).
Proof.
  unfold create_list, Api.post_list_req. unfold_M. rewrite transport_eq.
  change (fails (emit _ w)) with (fails w). by destruct (fails w).
Qed.

Lemma patch_list_eq id remove append w :
  Api.patch_list_req id remove append w =
  let w1 := tick (emit (EvUpdateList id remove append) w) in
  if fails w then (connection_failed, w1)
  else match st_lists (remote w) !! id with
       | None => (Raise (HTTPException Api.no_such_resource), w1)
       | Some (name, items) =>
           match filter (λ d, d ∉ items) remove with
           | d :: _ => (Raise (HTTPException (Api.not_found_body d)), w1)
           | [] => (Ok (Lst id name),
                    set_remote (put_list id name ((items ∖ list_to_set remove) ∪ list_to_set append)
                                  (remote w)) w1)
           end
       end.
Proof.
  unfold Api.patch_list_req. unfold_M. rewrite transport_eq.
  change (fails (emit _ w)) with (fails w). destruct (fails w); [done|]. simpl.
  destruct (st_lists (remote w) !! id) as [[name items]|]; [|done].
  by destruct (filter _ remove).
Qed.

Lemma delete_list_eq id w :
  delete_list id w =
  let w1 := tick (emit (EvDeleteList id) w) in
  if fails w then (connection_failed, w1)
  else match st_lists (remote w) !! id with
       | None => (Raise (HTTPException Api.no_such_resource), w1)
       | Some _ => (Ok (), set_remote (drop_list id (remote w)) w1)
       end.
Proof.
  unfold delete_list, Api.delete_list_req. unfold_M. rewrite transport_eq.
  change (fails (emit _ w)) with (fails w). destruct (fails w); [done|]. simpl.
  by destruct (st_lists (remote w) !! id).
Qed.

Lemma create_rule_eq name ids w :
  create_rule name ids w =
  let w1 := tick (emit (EvCreateRule name ids) w) in
  if fails w then (connection_failed, w1)
  else let id := Api.fresh_id (remote w) in
       (Ok (Rule id name ids), set_remote (put_rule id name ids (remote w)) w1).
Proof.
  unfold create_rule, Api.post_rule_req. unfold_M. rewrite transport_eq.
  change (fails (emit _ w)) with (fails w). by destruct (fails w).
Qed.

Lemma update_rule_eq name id ids w :
  update_rule name id ids w =
  let w1 := tick (emit (EvUpdateRule name id ids) w) in
  if fails w then (connection_failed, w1)
  else match st_rules (remote w) !! id with
       | None => (Raise (HTTPException Api.no_such_resource), w1)
       | Some _ => (Ok (Rule id name ids), set_remote (put_rule id name ids (remote w)) w1)
       end.
Proof.
  unfold update_rule, Api.put_rule_req. unfold_M. rewrite transport_eq.
  change (fails (emit _ w)) with (fails w). destruct (fails w); [done|]. simpl.
  by destruct (st_rules (remote w) !! id).
Qed.

Lemma delete_rule_eq id w :
  delete_rule id w =
  let w1 := tick (emit (EvDeleteRule id) w) in
  if fails w then (connection_failed, w1)
  else match st_rules (remote w) !! id with
       | None => (Raise (HTTPException Api.no_such_resource), w1)
       | Some _ => (Ok (), set_remote (drop_rule id (remote w)) w1)
       end.
Proof.
  unfold delete_rule, Api.delete_rule_req. unfold_M. rewrite transport_eq.
  change (fails (emit _ w)) with (fails w). destruct (fails w); [done|]. simpl.
  by destruct (st_rules (remote w) !! id).
Qed.

(** ** Strings: the error body and the regular expression *)

Lemma append_cons x (a b : string) : String x a +:+ b = String x (a +:+ b).
Proof. reflexivity. Qed.

Lemma append_nil (b : string) : "" +:+ b = b.
Proof. reflexivity. Qed.

Lemma append_assoc (a b c : string) : (a +:+ b) +:+ c = a +:+ b +:+ c.
Proof. induction a as [|x a IH]; [done|]. by rewrite !append_cons, IH. Qed.

Lemma prefix_app p r : String.prefix p (p +:+ r) = true.
Proof.
  induction p as [|c p IH]; simpl; [by destruct r|].
  destruct (ascii_dec c c); [done|congruence].
Qed.

Lemma contains_prefix p s : String.prefix p s = true → Py.contains p s = true.
Proof. intros H. destruct s; cbn [Py.contains]; by rewrite H. Qed.

Lemma contains_app a p r : Py.contains p (a +:+ p +:+ r) = true.
Proof.
  induction a as [|c a IH].
  - change (Py.contains p (p +:+ r) = true). apply contains_prefix, prefix_app.
  - change (String c a +:+ p +:+ r) with (String c (a +:+ p +:+ r)).
    cbn [Py.contains]. rewrite IH. apply orb_true_r.
Qed.

Lemma prefix_split p : ∀ s, String.prefix p s = true → ∃ r, s = p +:+ r.
Proof.
  induction p as [|c p IH]; intros s Hp; [by exists s|].
  destruct s as [|c' s]; [done|]. simpl in Hp.
  destruct (ascii_dec c c') as [<-|]; [|done].
  destruct (IH s Hp) as [r ->]. by exists r.
Qed.

(** [Py.contains] is the test for a substring. *)
Lemma contains_spec p s :
  Py.contains p s = true ↔ ∃ before after, s = before +:+ p +:+ after.
Proof.
  split; [|intros (a & r & ->); apply contains_app].
  induction s as [|c s IH]; cbn [Py.contains]; intros Hc.
  - rewrite orb_false_r in Hc. apply prefix_split in Hc as [r Hr]. by exists "", r.
  - apply orb_true_iff in Hc as [Hp|Hc].
    + apply prefix_split in Hp as [r Hr]. by exists "", r.
    + destruct (IH Hc) as (a & r & ->). by exists (String c a), r.
Qed.

Lemma span_not_comma d r :
  no_comma d = true → Py.span_not Re.comma (d +:+ String Re.comma r) = (d, String Re.comma r).
Proof.
  induction d as [|c d IH]; intros Hd.
  - done.
  - simpl in Hd. apply andb_true_iff in Hd as [Hc Hd].
    change (String c d +:+ ?x) with (String c (d +:+ x)).
    cbn [Py.span_not]. apply negb_true_iff in Hc. rewrite Hc.
    by rewrite (IH Hd).
Qed.

Lemma not_found_body_contains d :
  Py.contains "not found in list" (Api.not_found_body d) = true.
Proof.
  assert (Api.not_found_body d =
    ("400 {" +:+ String Re.quote "message" +:+ String Re.quote ": " +:+
     String Re.quote "item to be removed, " +:+ d +:+ ", ") +:+
    "not found in list" +:+ String Re.quote "}") as ->.
  { unfold Api.not_found_body. by rewrite !append_assoc. }
  apply contains_app.
Qed.

Lemma search_after_prefix (rest g : string) :
  Re.match_tail rest = Some g →
  Re.search_group2
    ("400 {" +:+ String Re.quote "message" +:+ String Re.quote ": " +:+
     String Re.quote "item to be removed, " +:+ rest) = Some g.
Proof.
  intros Hg. rewrite !append_cons, !append_nil.
  lazy -[Re.match_tail]. by rewrite Hg.
Qed.

Lemma match_tail_not_found d :
  valid_domain d →
  Re.match_tail (d +:+ ", not found in list" +:+ String Re.quote "}") = Some d.
Proof.
  intros [Hne Hd]. unfold Re.match_tail.
  rewrite append_cons.
  change (String "," ?r) with (String Re.comma r).
  rewrite (span_not_comma d _ Hd).
  destruct d; [done|]. by vm_compute.
Qed.

Lemma not_found_body_search d :
  valid_domain d → Re.search_group2 (Api.not_found_body d) = Some d.
Proof.
  intros Hd. unfold Api.not_found_body.
  by apply search_after_prefix, match_tail_not_found.
Qed.

Lemma other_errors_do_not_contain :
  Py.contains "not found in list" "connection failed" = false ∧
  Py.contains "not found in list" Api.no_such_resource = false.
Proof. by vm_compute. Qed.

(** ** [update_list]: the retry on an item that is not in the list *)

Lemma elem_of_remove_first x d (l : list string) :
  x ∈ Py.remove_first d l → x ∈ l.
Proof.
  induction l as [|y l IH]; simpl; [done|].
  destruct (String.eqb d y); set_solver.
Qed.

Lemma elem_of_remove_first_2 x d (l : list string) :
  x ∈ l → x = d ∨ x ∈ Py.remove_first d l.
Proof.
  induction l as [|y l IH]; simpl; [set_solver|].
  destruct (String.eqb_spec d y) as [->|Hne]; set_solver.
Qed.

Lemma stale_remove_first items d rm later :
  stale items rm = d :: later → stale items (Py.remove_first d rm) = later.
Proof.
  unfold stale. induction rm as [|y rm IH]; simpl; [done|].
  rewrite filter_cons. destruct (decide (y ∉ items)) as [Hy|Hy].
  - intros [= -> <-]. by rewrite String.eqb_refl.
  - intros Hst. destruct (String.eqb_spec d y) as [->|Hne].
    + assert (y ∈ filter (λ d, d ∉ items) rm) as Hin by (rewrite Hst; set_solver).
      apply list_elem_of_filter in Hin. tauto.
    + rewrite filter_cons, decide_False by done. by apply IH.
Qed.

Lemma stale_head_in items d rm later : stale items rm = d :: later → d ∈ rm ∧ d ∉ items.
Proof.
  intros Hst. assert (d ∈ stale items rm) as Hin by (rewrite Hst; set_solver).
  apply list_elem_of_filter in Hin. tauto.
Qed.

Lemma quiet_head n w : quiet (S n) w → fails w = false ∧ quiet n (tick w).
Proof.
  unfold quiet, fails, tick. destruct w as [r f d m t]; simpl.
  destruct f as [|b f]; simpl.
  - intros _. split; [done|]. by rewrite take_nil.
  - intros Hq. apply Forall_cons in Hq as [-> Hq]. done.
Qed.

Lemma quiet_emit n e w : quiet n (emit e w) ↔ quiet n w.
Proof. done. Qed.

(** The attempts numbered [a], [a + 1], ... up to [n] of them, the last one
    being the one that no longer retries. *)
Lemma update_list_attempts_run id name items ap n : ∀ a rm w,
  st_lists (remote w) !! id = Some (name, items) →
  (∀ d, d ∈ stale items rm → valid_domain d) →
  quiet (S n) w →
  ∃ r w' new,
    update_list_attempts Api.patch_list_req (seqZ a (Z.of_nat (S n))) (a + Z.of_nat (S n)) id rm ap w = (r, w') ∧
    trace w' = (trace w ++ new)%list ∧
    filter (λ e, is_mutation e = true) new
      = (λ l, EvUpdateList id l ap) <$> take (S n) (removals rm (stale items rm)) ∧
    mem w' = mem w ∧ disk w' = disk w ∧
    if decide (List.length (stale items rm) ≤ n)%nat then
      r = Ok (Some (Lst id name)) ∧
      remote w' = put_list id name ((items ∖ list_to_set rm) ∪ list_to_set ap) (remote w)
    else
      (∃ d, stale items rm !! n = Some d ∧ r = Raise (HTTPException (Api.not_found_body d))) ∧
      remote w' = remote w.
Proof.
  induction n as [|n IH]; intros a rm w Hid Hvalid Hq.
  - (* the last attempt *)
    rewrite seqZ_cons by lia. cbn [update_list_attempts]. rewrite patch_list_eq. cbn zeta.
    apply quiet_head in Hq as [-> _]. rewrite Hid. fold (stale items rm).
    destruct (stale items rm) as [|d later] eqn:Hst.
    + eexists _, _, [_]. split; [done|]. simpl. split_and!; try done.
    + rewrite not_found_body_contains. cbn [andb].
      replace (a <? a + Z.of_nat 1 - 1) with false by (symmetry; apply Z.ltb_ge; lia).
      eexists _, _, [_]. split; [done|]. simpl. split_and!; try done.
      by exists d.
  - rewrite seqZ_cons by lia. cbn [update_list_attempts]. rewrite patch_list_eq. cbn zeta.
    apply quiet_head in Hq as [Hf Hq]. rewrite Hf, Hid. fold (stale items rm).
    destruct (stale items rm) as [|d later] eqn:Hst.
    + eexists _, _, [_]. split; [done|]. simpl. split_and!; try done.
    + rewrite not_found_body_contains. cbn [andb].
      replace (a <? a + Z.of_nat (S (S n)) - 1) with true by (symmetry; apply Z.ltb_lt; lia).
      rewrite not_found_body_search by (apply Hvalid; set_solver).
      destruct (stale_head_in _ _ _ _ Hst) as [Hin Hnot].
      rewrite bool_decide_eq_true_2 by done.
      unfold_M. cbv beta iota.
      set (w1 := emit (EvSilentError (NotInListRetry d)) (tick (emit (EvUpdateList id rm ap) w))).
      destruct (IH (Z.succ a) (Py.remove_first d rm) w1) as (r & w' & new & Hrun & Htr & Hmut & Hmem & Hdisk & Hres).
      { done. }
      { intros x Hx. apply Hvalid. rewrite (stale_remove_first _ _ _ _ Hst) in Hx. set_solver. }
      { done. }
      replace (Z.succ a + Z.of_nat (S n)) with (a + Z.of_nat (S (S n))) in Hrun by lia.
      replace (Z.pred (Z.of_nat (S (S n)))) with (Z.of_nat (S n)) by lia.
      rewrite Hrun. rewrite (stale_remove_first _ _ _ _ Hst) in Hmut, Hres.
      eexists r, w', (_ :: _ :: new). split; [done|]. split.
      { rewrite Htr. unfold w1. simpl. by rewrite <- !app_assoc. }
      split. { cbn [removals]. rewrite firstn_cons, fmap_cons.
               rewrite filter_cons_True by done. rewrite filter_cons_False by (simpl; congruence).
               by rewrite Hmut. }
      split; [done|]. split; [done|].
      destruct (decide (List.length later ≤ n)%nat) as [Hle|Hgt].
      * rewrite decide_True by (simpl; lia). destruct Hres as [-> ->]. split; [done|].
        unfold w1, put_list; simpl. do 2 f_equal. f_equal.
        assert (∀ x, x ∈ rm → x = d ∨ x ∈ Py.remove_first d rm) as H1
          by (intros; by apply elem_of_remove_first_2).
        assert (∀ x, x ∈ Py.remove_first d rm → x ∈ rm) as H2
          by (intros ?; apply elem_of_remove_first).
        clear -H1 H2 Hnot. set_solver.
      * rewrite decide_False by (simpl; lia). destruct Hres as [Hd ->]. done.
Qed.

Lemma set_order_elem `{PySetOrder} (s : gset string) x : x ∈ set_order s ↔ x ∈ s.
Proof. by rewrite (set_order_perm s), elem_of_elements. Qed.

Lemma set_order_NoDup `{PySetOrder} (s : gset string) : NoDup (set_order s).
Proof. rewrite (set_order_perm s). apply NoDup_elements. Qed.

Lemma set_order_length `{PySetOrder} (s : gset string) : List.length (set_order s) = size s.
Proof. by rewrite (set_order_perm s). Qed.

Lemma list_to_set_order `{PySetOrder} (s : gset string) : list_to_set (set_order s) = s.
Proof. apply set_eq. intros x. by rewrite elem_of_list_to_set, set_order_elem. Qed.

(** [list.remove] takes out the first occurrence. *)
Lemma remove_first_split d (l : list Domain) :
  d ∈ l → ∃ l1 l2, l = (l1 ++ d :: l2)%list ∧ (d ∉ l1) ∧ Py.remove_first d l = (l1 ++ l2)%list.
Proof.
  induction l as [|y l IH]; [by intros ?%elem_of_nil|].
  intros Hin. cbn [Py.remove_first]. destruct (String.eqb_spec d y) as [->|Hne].
  - exists [], l. split; [done|]. split; [apply not_elem_of_nil|done].
  - apply elem_of_cons in Hin as [->|Hin]; [done|].
    destruct (IH Hin) as (l1 & l2 & -> & Hl1 & ->).
    exists (y :: l1), l2. split; [done|]. split; [|done].
    apply not_elem_of_cons. by split.
Qed.

Lemma dropped_remove_first d (rm : list Domain) :
  dropped d rm (if bool_decide (d ∈ rm) then Py.remove_first d rm else rm).
Proof.
  destruct (bool_decide (d ∈ rm)) eqn:Hin.
  - apply bool_decide_eq_true in Hin.
    destruct (remove_first_split d rm Hin) as (l1 & l2 & -> & Hl1 & ->).
    by apply dropped_first.
  - apply bool_decide_eq_false in Hin. by apply dropped_absent.
Qed.

Lemma first_occurrence_unique (d : Domain) (l1 l2 k1 k2 : list Domain) :
  d ∉ l1 → d ∉ k1 → (l1 ++ d :: l2 = k1 ++ d :: k2)%list → l1 = k1 ∧ l2 = k2.
Proof.
  revert k1. induction l1 as [|x l1 IH]; intros [|y k1] Hl Hk Heq; simpl in Heq.
  - by injection Heq as <-.
  - injection Heq as <- _. by apply not_elem_of_cons in Hk as [? _].
  - injection Heq as -> _. by apply not_elem_of_cons in Hl as [? _].
  - injection Heq as <- Heq.
    apply not_elem_of_cons in Hl as [_ Hl]. apply not_elem_of_cons in Hk as [_ Hk].
    destruct (IH k1 Hl Hk Heq) as [-> ->]. done.
Qed.

Lemma dropped_functional d (l l1 l2 : list Domain) :
  dropped d l l1 → dropped d l l2 → l1 = l2.
Proof.
  intros H1 H2. inversion H1 as [a1 b1 Ha1 Ea1 Eb1|a1 Ha1 Ea1 Eb1];
    inversion H2 as [a2 b2 Ha2 Ea2 Eb2|a2 Ha2 Ea2 Eb2]; subst.
  - destruct (first_occurrence_unique d a2 b2 a1 b1 Ha2 Ha1 Ea2) as [-> ->]. done.
  - exfalso. apply Ha2. apply elem_of_app. right. apply elem_of_cons. by left.
  - exfalso. apply Ha1. apply elem_of_app. right. apply elem_of_cons. by left.
  - done.
Qed.

(** The three cases of [retried] exclude one another: an endpoint and a
    starting point have one outcome. *)
Lemma retried_functional request id ap a rm w out1 out2 :
  retried request id ap a rm w out1 → retried request id ap a rm w out2 → out1 = out2.
Proof.
  intros H1. revert out2.
  induction H1 as [a rm w result w1 Hreq|a rm w e d rm' w1 out Hreq Ha Hnf Hs Hd Hrest IH
                   |a rm w x w1 Hreq Hwhy];
    intros out2 H2.
  - inversion H2 as [? ? ? result2 w2 Hreq2|? ? ? e2 d2 rm2 w2 out' Hreq2 Ha2 Hnf2 Hs2 Hd2 Hrest2
                     |? ? ? x2 w2 Hreq2 Hwhy2]; subst; rewrite Hreq in Hreq2;
      congruence.
  - inversion H2 as [? ? ? result2 w2 Hreq2|? ? ? e2 d2 rm2 w2 out' Hreq2 Ha2 Hnf2 Hs2 Hd2 Hrest2
                     |? ? ? x2 w2 Hreq2 Hwhy2]; subst; rewrite Hreq in Hreq2.
    + discriminate Hreq2.
    + injection Hreq2 as <- <-. rewrite Hs in Hs2. injection Hs2 as <-.
      rewrite <- (dropped_functional _ _ _ _ Hd Hd2) in Hrest2. by apply IH.
    + injection Hreq2 as <- <-. destruct Hwhy2 as [->|Hother]; [lia|].
      destruct (Hother _ eq_refl) as [Hn|Hn]; [done|congruence].
  - inversion H2 as [? ? ? result2 w2 Hreq2|? ? ? e2 d2 rm2 w2 out' Hreq2 Ha2 Hnf2 Hs2 Hd2 Hrest2
                     |? ? ? x2 w2 Hreq2 Hwhy2]; subst; rewrite Hreq in Hreq2.
    + discriminate Hreq2.
    + injection Hreq2 as Hx Hw. subst x w2. destruct Hwhy as [->|Hother]; [lia|].
      destruct (Hother _ eq_refl) as [Hn|Hn]; [done|congruence].
    + by injection Hreq2 as <- <-.
Qed.

(** The loop over an endpoint follows [retried], from any attempt on. *)
Lemma update_list_attempts_retried request id ap n : ∀ a rm w,
  0 ≤ a → a + Z.of_nat (S n) = 3 →
  retried request id ap a rm w
          (update_list_attempts request (seqZ a (Z.of_nat (S n))) 3 id rm ap w).
Proof.
  induction n as [|n IH]; intros a rm w Ha0 Ha;
    rewrite seqZ_cons by lia; cbn [update_list_attempts];
    destruct (request id rm ap w) as [[result|[e|arg|why]] w1] eqn:Hreq;
    try (by apply retried_returns);
    try (apply retried_raises; [done|]; right; by intros e' [=]).
  - replace (a <? 3 - 1) with false by (symmetry; apply Z.ltb_ge; lia).
    rewrite andb_false_r. apply retried_raises; [done|]. left. lia.
  - destruct (Py.contains "not found in list" e) eqn:Hc; cbn [andb].
    + replace (a <? 3 - 1) with true by (symmetry; apply Z.ltb_lt; lia).
      destruct (Re.search_group2 e) as [d|] eqn:Hs.
      * unfold mbind, M_bind, silent_error, modify. cbv beta iota.
        eapply retried_again; [done|lia|by apply contains_spec|done|apply dropped_remove_first|].
        replace (Z.pred (Z.of_nat (S (S n)))) with (Z.of_nat (S n)) by lia.
        replace (Z.succ a) with (a + 1) by lia. apply IH; lia.
      * apply retried_raises; [done|]. right. intros e' [= <-]. by right.
    + apply retried_raises; [done|]. right. intros e' [= <-]. left.
      intros Hnf%contains_spec. congruence.
Qed.

(** C6.  [update_list] when the domains to remove are well-formed.  On a
    list the remote store holds, and with no failure of transport, each
    request that is rejected because an item to remove is [missing] from the
    list is followed by a request without that item; there are at most three
    requests.  With at most two missing items the call returns the list and
    the store holds the items minus the removals plus the additions; with
    three or more the third rejection is raised and the store is unchanged.
    An error of another kind (the list does not exist, or the transport
    fails) is raised at once, after a single request.

    Whatever the endpoint answers, as long as the texts of its "not found in
    list" errors are ASCII, the call is [retried] from attempt 0 on: it
    returns the list of the first request that succeeds; before the third
    attempt an [HTTPException] whose text holds "not found in list" and
    names a domain is recorded and followed by a request without the first
    occurrence of that domain among the items to remove; every other
    exception, and any exception of the third attempt, is raised as it
    is. *)
Theorem update_list_not_found_retry `{PySetOrder} (list_id : ident) (remove_items : gset Domain)
    (append_items : list Domain) (w : world) :
  (∀ d, d ∈ remove_items → valid_domain d) →
  let remove_list := set_order remove_items in
  let first_request := tick (emit (EvUpdateList list_id remove_list append_items) w) in
  (∀ name items,
     st_lists (remote w) !! list_id = Some (name, items) →
     quiet 3 w →
     let missing := stale items remove_list in
     ∃ r w' new,
       update_list list_id remove_items append_items w = (r, w') ∧
       trace w' = (trace w ++ new)%list ∧
       filter (λ e, is_mutation e = true) new
         = (λ l, EvUpdateList list_id l append_items) <$> take 3 (removals remove_list missing) ∧
       if decide (List.length missing ≤ 2)%nat then
         r = Ok (Some (Lst list_id name)) ∧
         remote w' = put_list list_id name
                       ((items ∖ remove_items) ∪ list_to_set append_items) (remote w)
       else
         (∃ d, missing !! 2%nat = Some d ∧ r = Raise (HTTPException (Api.not_found_body d))) ∧
         remote w' = remote w) ∧
  (st_lists (remote w) !! list_id = None → fails w = false →
     update_list list_id remove_items append_items w
     = (Raise (HTTPException Api.no_such_resource), first_request)) ∧
  (fails w = true →
     update_list list_id remove_items append_items w = (connection_failed, first_request)) ∧
  (∀ request : ident → list Domain → list Domain → M lst,
     (∀ rm w0 e w1, request list_id rm append_items w0 = (Raise (HTTPException e), w1) →
                    not_found_in_list e → ascii_only e = true) →
     retried request list_id append_items 0 remove_list w
             (update_list_with request list_id remove_items append_items w)).
Proof.
  intros Hvalid remove_list first_request. split_and!.
  - intros name items Hid Hq missing.
    destruct (update_list_attempts_run list_id name items append_items 2 0
                remove_list w Hid) as (r & w' & new & Hrun & Htr & Hmut & _ & _ & Hres).
    { intros d Hd. apply Hvalid. apply list_elem_of_filter in Hd as [_ Hd].
      by apply set_order_elem. }
    { done. }
    exists r, w', new. split; [exact Hrun|]. split; [done|]. split; [done|].
    unfold remove_list in Hres. by rewrite list_to_set_order in Hres.
  - intros Hid Hf.
    unfold update_list, update_list_with. rewrite seqZ_cons by lia. cbn [update_list_attempts].
    rewrite patch_list_eq. cbn zeta. rewrite Hf, Hid.
    by replace (Py.contains "not found in list" Api.no_such_resource) with false by by vm_compute.
  - intros Hf.
    unfold update_list, update_list_with. rewrite seqZ_cons by lia. cbn [update_list_attempts].
    rewrite patch_list_eq. cbn zeta. rewrite Hf. unfold connection_failed.
    by replace (Py.contains "not found in list" "connection failed") with false by by vm_compute.
  - intros request _. unfold update_list_with.
    apply (update_list_attempts_retried request list_id append_items 2 0); lia.
Qed.

Lemma update_list_not_found_retry_witness :
  stale {[ "a.example"; "b.example" ]} (@set_order elements_order {[ "b.example"; "gone.example" ]})
    = ["gone.example"] ∧
  ∃ w', @update_list elements_order 7%N {[ "b.example"; "gone.example" ]} ["c.example"]
          one_list_world = (Ok (Some (Lst 7%N first_name)), w') ∧
        st_lists (remote w') !! 7%N = Some (first_name, {[ "a.example"; "c.example" ]}) ∧
        List.length (filter (λ e, is_mutation e = true) (trace w')) = 2%nat.
Proof.
  split; [by vm_compute|].
  assert (∀ d : Domain, d ∈ ({[ "b.example"; "gone.example" ]} : gset Domain) → valid_domain d)
    as Hvalid.
  { intros d [->%elem_of_singleton| ->%elem_of_singleton]%elem_of_union; by split. }
  destruct (@update_list_not_found_retry elements_order 7%N _ ["c.example"] one_list_world Hvalid)
    as (Hretry & _ & _ & _).
  destruct (Hretry first_name {[ "a.example"; "b.example" ]}) as (r & w' & new & Hrun & Htr & Hmut & Hres).
  { by vm_compute. }
  { repeat constructor. }
  rewrite decide_True in Hres by (vm_compute; lia).
  destruct Hres as [-> Hremote]. exists w'. split; [exact Hrun|]. split.
  - rewrite Hremote. simpl. rewrite lookup_insert_eq. by vm_compute.
  - rewrite Htr. simpl. rewrite Hmut. by vm_compute.
Defined.

(** ** C9: the capacity error inside the loop *)

Ltac inv_bind H :=
  let e := fresh "e" in let a := fresh "a" in let w1 := fresh "w" in
  let H1 := fresh H in let Hr := fresh "Hr" in
  apply bind_inv in H as [(e & H & Hr) | (a & w1 & H1 & H)];
  [try discriminate Hr; try (injection Hr as Hr); subst|].

Lemma set_mapping_eq id items w :
  set_mapping id items w =
  (Ok (), set_mem (Cache (cache_lists (mem w)) (cache_rules (mem w))
                         (<[id := items]> (cache_mapping (mem w)))) w).
Proof. done. Qed.

Lemma len_app {A} (l1 l2 : list A) : len (l1 ++ l2) = len l1 + len l2.
Proof. unfold len. rewrite length_app. lia. Qed.

Lemma len_nonneg {A} (l : list A) : 0 ≤ len l.
Proof. unfold len. lia. Qed.

(** One turn appends at most one identifier, and ends in the capacity error
    only when [MAX_LISTS] identifiers are already there. *)
Lemma reconcile_index_length `{PySetOrder} self d dict i rem ids w r w' :
  reconcile_index self d dict i (rem, ids) w = (r, w') →
  (∀ rem' ids', r = Ok (rem', ids') → len ids ≤ len ids' ≤ len ids + 1) ∧
  (is_loop_capacity_error r → MAX_LISTS ≤ len ids).
Proof.
  unfold reconcile_index. intros Hrun.
  destruct (dict !! _) as [list_id|].
  - inv_bind Hrun.
    { apply get_list_items_raises in Hrun as [msg ->]. split; [done|]. by intros (? & ? & ?). }
    inv_bind Hrun.
    { split; [done|]. intros (? & ? & [= ->]). destruct (_ || _).
      - inv_bind Hrun; [by apply update_list_raises in Hrun as [? [=]]|].
        inv_bind Hrun; [done|]. done.
      - done. }
    unfold_M. simplify_eq. split; [|by intros (? & ? & ?)].
    intros ? ? [= <- <-]. rewrite len_app. unfold len; simpl. lia.
  - destruct (bool_decide (rem ≠ ∅)).
    + destruct (bool_decide (MAX_LISTS ≤ len ids)) eqn:Hfull.
      * unfold_M. simplify_eq. split; [done|]. intros _. by apply bool_decide_eq_true in Hfull.
      * rewrite bind_Ok with (a := ()) (w' := w) in Hrun by done.
        inv_bind Hrun.
        { apply create_list_raises in Hrun as [msg ->]. split; [done|]. by intros (? & ? & ?). }
        unfold_M. cbv beta iota in Hrun. simplify_eq. split; [|by intros (? & ? & ?)].
        intros ? ? [= <- <-]. rewrite len_app. unfold len; simpl. lia.
    + unfold_M. simplify_eq. split; [|by intros (? & ? & ?)].
      intros ? ? [= <- <-]. lia.
Qed.

Lemma reconcile_loop_length `{PySetOrder} self d dict indexes : ∀ rem ids w r w',
  foldM (reconcile_index self d dict) indexes (rem, ids) w = (r, w') →
  (∀ rem' ids', r = Ok (rem', ids') → len ids' ≤ len ids + len indexes) ∧
  (is_loop_capacity_error r → MAX_LISTS + 1 ≤ len ids + len indexes).
Proof.
  induction indexes as [|i indexes IH]; intros rem ids w r w' Hrun; simpl in Hrun.
  - unfold_M. simplify_eq. split; [|by intros (? & ? & ?)].
    intros ? ? [= <- <-]. unfold len; simpl. lia.
  - assert (len (i :: indexes) = len indexes + 1) as -> by (unfold len; simpl; lia).
    inv_bind Hrun.
    + apply reconcile_index_length in Hrun as [_ Hcap]. split; [done|].
      intros Herr. specialize (Hcap Herr). pose proof (len_nonneg indexes). lia.
    + destruct a as [rem1 ids1].
      apply reconcile_index_length in Hrun0 as [Hlen _].
      specialize (Hlen _ _ eq_refl).
      apply IH in Hrun as [Hok Hcap]. split.
      * intros ? ? ->. specialize (Hok _ _ eq_refl). lia.
      * intros Herr. specialize (Hcap Herr). lia.
Qed.

Lemma parse_indexes_raises names w e w' :
  parse_indexes names w = (Raise e, w') → ∃ arg, e = ValueError arg.
Proof.
  revert w e w'. induction names as [|n names IH]; intros w e w'; simpl.
  - by unfold_M.
  - destruct (Py.int _).
    + intros Hrun. inv_bind Hrun; [by eapply IH|]. by unfold_M.
    + unfold_M. intros [= <- <-]. by eexists.
Qed.

Lemma len_seqZ a n : len (seqZ a n) = Z.max 0 n.
Proof. unfold len. rewrite length_seqZ. lia. Qed.

(** C9.  The error of the list-creation branch, [Cannot create more lists],
    is never the outcome of the loop over the indexes: there are at most
    [MAX_LISTS] indexes and each appends at most one identifier, so that the
    creation branch always sees fewer than [MAX_LISTS] identifiers; a
    finished loop leaves at most [MAX_LISTS] of them. *)
Theorem loop_capacity_error_unreachable `{PySetOrder} (self : CloudflareManager)
    (domains_to_block : list Domain) (current_lists : list lst)
    (remaining_domains : gset Domain) (w : world) :
  ¬ is_loop_capacity_error
      (reconcile_lists self domains_to_block current_lists remaining_domains w).1 ∧
  ∀ rem new_list_ids w',
    reconcile_lists self domains_to_block current_lists remaining_domains w
      = (Ok (rem, new_list_ids), w') →
    len new_list_ids ≤ MAX_LISTS.
Proof.
  destruct (reconcile_lists self domains_to_block current_lists remaining_domains w)
    as [r w'] eqn:Hrun.
  unfold reconcile_lists in Hrun. simpl.
  inv_bind Hrun.
  { split; [|done]. apply parse_indexes_raises in Hrun as [arg ->]. by intros (? & ? & ?). }
  apply reconcile_loop_length in Hrun as [Hok Hcap].
  rewrite len_seqZ in Hok, Hcap. change (len (@nil ident)) with 0 in *.
  unfold MAX_LISTS in *. split.
  - intros Herr. specialize (Hcap Herr). lia.
  - intros rem ids w2 [= -> ->]. specialize (Hok _ _ eq_refl). lia.
Qed.

(** ** What a computation appends to the trace *)

Lemma emits_mono {A} (P Q : event → Prop) (m : M A) :
  (∀ e, P e → Q e) → emits P m → emits Q m.
Proof.
  intros HPQ Hm w r w' Hrun. destruct (Hm _ _ _ Hrun) as (new & Htr & Hall).
  exists new. split; [done|]. eapply Forall_impl; eauto.
Qed.

Lemma emits_ret {A} P (a : A) : emits P (mret a).
Proof. intros w r w' [= <- <-]. exists []. by rewrite app_nil_r. Qed.

Lemma emits_raise {A} P e : emits P (@raise A e).
Proof. intros w r w' [= <- <-]. exists []. by rewrite app_nil_r. Qed.

Lemma emits_error {A} P why : emits P (@error A why).
Proof. apply emits_raise. Qed.

Lemma emits_gets {A} P (f : world → A) : emits P (gets f).
Proof. intros w r w' [= <- <-]. exists []. by rewrite app_nil_r. Qed.

Lemma emits_bind {A B} P (m : M A) (f : A → M B) :
  emits P m → (∀ a, emits P (f a)) → emits P (m ≫= f).
Proof.
  intros Hm Hf w r w' Hrun. inv_bind Hrun; [by eapply Hm|].
  destruct (Hm _ _ _ Hrun0) as (n1 & Ht1 & Hall1).
  destruct (Hf _ _ _ _ Hrun) as (n2 & Ht2 & Hall2).
  exists (n1 ++ n2)%list. split; [by rewrite Ht2, Ht1, app_assoc|].
  by apply Forall_app.
Qed.

Lemma emits_silent {A} P (f : world → world) (a : A) :
  (∀ w, trace (f w) = trace w) → emits P (λ w, (Ok a, f w)).
Proof. intros Hf w r w' [= <- <-]. exists []. by rewrite app_nil_r, Hf. Qed.

Lemma emits_modify P (f : world → world) :
  (∀ w, trace (f w) = trace w) → emits P (modify f).
Proof. apply emits_silent. Qed.

Lemma emits_emit P e : P e → emits P (modify (emit e)).
Proof. intros He w r w' [= <- <-]. exists [e]. split; [done|]. by apply Forall_singleton. Qed.

Lemma emits_info (P : event → Prop) l : P (EvInfo l) → emits P (info l).
Proof. apply emits_emit. Qed.

Lemma emits_silent_error (P : event → Prop) l : P (EvSilentError l) → emits P (silent_error l).
Proof. apply emits_emit. Qed.

Lemma emits_save_cache (P : event → Prop) : (∀ c, P (EvSaveCache c)) → emits P utils.save_cache.
Proof.
  intros HP w r w' [= <- <-]. exists [EvSaveCache (mem w)]. split; [done|].
  by apply Forall_singleton.
Qed.

Lemma emits_try_except {A} P (body : M A) handler :
  emits P body → (∀ e, emits P (handler e)) → emits P (try_except body handler).
Proof.
  intros Hb Hh w r w' Hrun. unfold try_except in Hrun.
  destruct (body w) as [[a|e] w1] eqn:Hbody.
  - simplify_eq. by eapply Hb.
  - destruct (Hb _ _ _ Hbody) as (n1 & Ht1 & Hall1).
    destruct (is_Exception e); [|simplify_eq; eauto].
    destruct (Hh _ _ _ _ Hrun) as (n2 & Ht2 & Hall2).
    exists (n1 ++ n2)%list. split; [by rewrite Ht2, Ht1, app_assoc|].
    by apply Forall_app.
Qed.

Lemma emits_foldM {A S} P (f : A → S → M S) (l : list A) :
  (∀ a s, emits P (f a s)) → ∀ s, emits P (foldM f l s).
Proof.
  intros Hf. induction l as [|a l IH]; intros s; simpl.
  - apply emits_ret.
  - apply emits_bind; [apply Hf|]. intros s'. apply IH.
Qed.

Lemma emits_transport P : emits P Api.transport.
Proof.
  intros w r w'. rewrite transport_eq. intros [= <- <-]. exists []. by rewrite app_nil_r.
Qed.

Lemma emits_get_lists P p : emits P (get_lists p).
Proof.
  intros w r w'. rewrite get_lists_eq. intros Hrun. exists []. rewrite app_nil_r.
  split; [|done]. by destruct (fails w); simplify_eq.
Qed.

Lemma emits_get_rules P p : emits P (get_rules p).
Proof.
  intros w r w'. rewrite get_rules_eq. intros Hrun. exists []. rewrite app_nil_r.
  split; [|done]. by destruct (fails w); simplify_eq.
Qed.

Lemma emits_get_list_items P id : emits P (get_list_items id).
Proof.
  intros w r w'. rewrite get_list_items_eq. intros Hrun. exists []. rewrite app_nil_r.
  split; [|done]. destruct (fails w); simplify_eq; [done|].
  destruct (st_lists (remote w) !! id) as [[? ?]|]; by simplify_eq.
Qed.

Lemma emits_create_list (P : event → Prop) name items :
  P (EvCreateList name items) → emits P (create_list name items).
Proof.
  intros HP w r w'. rewrite create_list_eq. cbn zeta. intros Hrun.
  exists [EvCreateList name items]. split; [|by apply Forall_singleton].
  by destruct (fails w); simplify_eq.
Qed.

Lemma emits_patch_list (P : event → Prop) id rm ap :
  P (EvUpdateList id rm ap) → emits P (Api.patch_list_req id rm ap).
Proof.
  intros HP w r w'. rewrite patch_list_eq. cbn zeta. intros Hrun.
  exists [EvUpdateList id rm ap]. split; [|by apply Forall_singleton].
  destruct (fails w); simplify_eq; [done|].
  destruct (st_lists (remote w) !! id) as [[? ?]|]; simplify_eq; [|done].
  by destruct (filter _ rm); simplify_eq.
Qed.

Lemma emits_delete_list (P : event → Prop) id :
  P (EvDeleteList id) → emits P (delete_list id).
Proof.
  intros HP w r w'. rewrite delete_list_eq. cbn zeta. intros Hrun.
  exists [EvDeleteList id]. split; [|by apply Forall_singleton].
  destruct (fails w); simplify_eq; [done|].
  by destruct (st_lists (remote w) !! id); simplify_eq.
Qed.

Lemma emits_create_rule (P : event → Prop) name ids :
  P (EvCreateRule name ids) → emits P (create_rule name ids).
Proof.
  intros HP w r w'. rewrite create_rule_eq. cbn zeta. intros Hrun.
  exists [EvCreateRule name ids]. split; [|by apply Forall_singleton].
  by destruct (fails w); simplify_eq.
Qed.

Lemma emits_update_rule (P : event → Prop) name id ids :
  P (EvUpdateRule name id ids) → emits P (update_rule name id ids).
Proof.
  intros HP w r w'. rewrite update_rule_eq. cbn zeta. intros Hrun.
  exists [EvUpdateRule name id ids]. split; [|by apply Forall_singleton].
  destruct (fails w); simplify_eq; [done|].
  by destruct (st_rules (remote w) !! id); simplify_eq.
Qed.

Lemma emits_delete_rule (P : event → Prop) id :
  P (EvDeleteRule id) → emits P (delete_rule id).
Proof.
  intros HP w r w'. rewrite delete_rule_eq. cbn zeta. intros Hrun.
  exists [EvDeleteRule id]. split; [|by apply Forall_singleton].
  destruct (fails w); simplify_eq; [done|].
  by destruct (st_rules (remote w) !! id); simplify_eq.
Qed.

Lemma emits_update_list_attempts (P : event → Prop) attempts mx id ap :
  (∀ rm, P (EvUpdateList id rm ap)) → (∀ l, P (EvSilentError l)) →
  ∀ rm, emits P (update_list_attempts Api.patch_list_req attempts mx id rm ap).
Proof.
  intros HP HS. induction attempts as [|a later IH]; intros rm; simpl.
  - apply emits_ret.
  - intros w r w' Hrun.
    destruct (Api.patch_list_req id rm ap w) as [r1 w1] eqn:Hpatch.
    destruct (emits_patch_list P id rm ap (HP rm) _ _ _ Hpatch) as (n1 & Ht1 & Hall1).
    assert (w' = w1 → ∃ new, trace w' = (trace w ++ new)%list ∧ Forall P new) as Hsame.
    { intros ->. eauto. }
    destruct r1 as [res|[msg|arg|why]]; try (apply Hsame; by simplify_eq).
    destruct (_ && _); [|apply Hsame; by simplify_eq].
    destruct (Re.search_group2 msg) as [dom|]; [|apply Hsame; by simplify_eq].
    assert (emits P (_ ← silent_error (NotInListRetry dom);
                     update_list_attempts Api.patch_list_req later mx id
                       (if bool_decide (dom ∈ rm) then Py.remove_first dom rm else rm) ap)) as Hrest.
    { apply emits_bind; [by apply emits_silent_error|]. intros _. apply IH. }
    destruct (Hrest _ _ _ Hrun) as (n2 & Ht2 & Hall2).
    exists (n1 ++ n2)%list. split; [by rewrite Ht2, Ht1, app_assoc|]. by apply Forall_app.
Qed.

Lemma emits_update_list `{PySetOrder} (P : event → Prop) id rm ap :
  (∀ rm, P (EvUpdateList id rm ap)) → (∀ l, P (EvSilentError l)) →
  emits P (update_list id rm ap).
Proof. intros. by apply emits_update_list_attempts. Qed.

(** A tactic for the routine cases. *)
Ltac emits_step :=
  match goal with
  | |- emits _ (mbind _ _) => apply emits_bind; [|intros ?]
  | |- emits _ (mret _) => apply emits_ret
  | |- emits _ (raise _) => apply emits_raise
  | |- emits _ (error _) => apply emits_error
  | |- emits _ (gets _) => apply emits_gets
  | |- emits _ (info _) => apply emits_info; done
  | |- emits _ (silent_error _) => apply emits_silent_error; done
  | |- emits _ utils.save_cache => apply emits_save_cache; done
  | |- emits _ (set_mapping _ _) => apply emits_modify; done
  | |- emits _ (modify _) => apply emits_modify; done
  | |- emits _ (get_lists _) => apply emits_get_lists
  | |- emits _ (get_rules _) => apply emits_get_rules
  | |- emits _ (get_list_items _) => apply emits_get_list_items
  | |- emits _ (create_list _ _) => apply emits_create_list; done
  | |- emits _ (delete_list _) => apply emits_delete_list; done
  | |- emits _ (delete_rule _) => apply emits_delete_rule; done
  | |- emits _ (create_rule _ _) => apply emits_create_rule; done
  | |- emits _ (update_rule _ _ _) => apply emits_update_rule; done
  | |- emits _ (update_list _ _ _) => apply emits_update_list; done
  | |- emits _ (try_except _ _) => apply emits_try_except; [|intros ?]
  | |- emits _ (foldM _ _ _) => apply emits_foldM; intros ? ?
  | |- emits _ (match ?x with _ => _ end) => destruct x
  | |- emits _ (let '(_, _) := ?x in _) => destruct x
  end.

Ltac emits_auto := repeat emits_step.

Lemma emits_get_current_lists P n : emits P (utils.get_current_lists n).
Proof. unfold utils.get_current_lists. emits_auto. Qed.

Lemma emits_get_current_rules P n : emits P (utils.get_current_rules n).
Proof. unfold utils.get_current_rules. emits_auto. Qed.

Lemma emits_get_list_items_cached P id : emits P (utils.get_list_items_cached id).
Proof. unfold utils.get_list_items_cached. emits_auto. Qed.

Lemma emits_delete_orphans orphans : ∀ count, emits reclaim_event (delete_orphans orphans count).
Proof.
  induction orphans as [|l later IH]; intros count; simpl; [apply emits_ret|].
  emits_auto. apply IH.
Qed.

Lemma emits_reclaim_orphans self : emits reclaim_event (reclaim_orphans self).
Proof.
  unfold reclaim_orphans. emits_auto; try apply emits_get_current_rules.
  apply emits_delete_orphans.
Qed.

Lemma emits_take_inventory self d : emits (λ _, False) (take_inventory self d).
Proof.
  unfold take_inventory. emits_auto; try apply emits_get_current_lists.
  apply emits_get_list_items_cached.
Qed.

Lemma emits_reconcile_index `{PySetOrder} self d dict i acc :
  emits list_event (reconcile_index self d dict i acc).
Proof. unfold reconcile_index. emits_auto. Qed.

Lemma emits_parse_indexes P names : emits P (parse_indexes names).
Proof. induction names as [|n names IH]; simpl; emits_auto. apply IH. Qed.

Lemma emits_reconcile_lists `{PySetOrder} self d cl rem :
  emits list_event (reconcile_lists self d cl rem).
Proof.
  unfold reconcile_lists. emits_auto; [apply emits_parse_indexes|].
  apply emits_reconcile_index.
Qed.

Lemma emits_sync_rule self rules ids : emits rule_event (sync_rule self rules ids).
Proof. unfold sync_rule. emits_auto. Qed.

(** ** One index of the loop, as equations *)

Lemma filter_nil_Forall {A} (P : A → Prop) `{∀ x, Decision (P x)} (l : list A) :
  Forall (λ x, ¬ P x) l → filter P l = [].
Proof.
  induction 1 as [|x l Hx _ IH]; [done|]. by rewrite filter_cons_False.
Qed.

(** With nothing to remove that the list lacks, [update_list] is one request. *)
Lemma update_list_clean `{PySetOrder} id name items (remove_items : gset Domain) ap w :
  st_lists (remote w) !! id = Some (name, items) →
  remove_items ⊆ items →
  update_list id remove_items ap w =
  let w1 := tick (emit (EvUpdateList id (set_order remove_items) ap) w) in
  if fails w then (connection_failed, w1)
  else (Ok (Some (Lst id name)),
        set_remote (put_list id name ((items ∖ remove_items) ∪ list_to_set ap) (remote w)) w1).
Proof.
  intros Hid Hsub. unfold update_list, update_list_with. rewrite seqZ_cons by lia.
  cbn [update_list_attempts]. rewrite patch_list_eq. cbn zeta.
  destruct (fails w).
  - unfold connection_failed.
    by replace (Py.contains "not found in list" "connection failed") with false by by vm_compute.
  - rewrite Hid. rewrite filter_nil_Forall.
    + by rewrite list_to_set_order.
    + apply Forall_forall. intros x Hx Hnot. apply set_order_elem in Hx. set_solver.
Qed.

Lemma fetched_subseteq (items : gset Domain) :
  list_to_set (C := gset Domain) (take 1000 (elements items)) ⊆ items.
Proof.
  intros x Hx. apply elem_of_list_to_set in Hx.
  apply elem_of_elements. by apply (subseteq_take 1000).
Qed.

Lemma fetched_all (items : gset Domain) :
  (size items ≤ 1000)%nat → list_to_set (C := gset Domain) (take 1000 (elements items)) = items.
Proof.
  intros Hsz. rewrite take_ge by exact Hsz.
  apply list_to_set_elements_L.
Qed.

(** An index whose name is in the dict: the list is fetched, and updated
    when something is to be removed or added. *)
Lemma reconcile_index_existing `{PySetOrder} self d dict i rem ids id w :
  dict !! canon self i = Some id →
  reconcile_index self d dict i (rem, ids) w =
  if fails w then (connection_failed, tick w)
  else match st_lists (remote w) !! id with
       | None => (Raise (HTTPException Api.no_such_resource), tick w)
       | Some (name, items) =>
           let current_values : gset Domain := list_to_set (take 1000 (elements items)) in
           let remove_items := current_values ∖ list_to_set d in
           let kept := current_values ∖ remove_items in
           let new_items := top_up kept rem in
           let chunk := kept ∪ list_to_set new_items in
           let w1 := tick w in
           if bool_decide (remove_items ≠ ∅) || bool_decide (new_items ≠ []) then
             let w2 := tick (emit (EvUpdateList id (set_order remove_items) new_items) w1) in
             if fails w1 then (connection_failed, w2)
             else
               (Ok (rem ∖ list_to_set new_items, (ids ++ [id])%list),
                with_mapping id (set_order chunk)
                  (emit (EvInfo (UpdatedList (canon self i) (len new_items)
                                   (card remove_items) (card chunk)))
                     (set_remote
                        (put_list id name ((items ∖ remove_items) ∪ list_to_set new_items)
                           (remote w)) w2)))
           else
             (Ok (rem ∖ list_to_set new_items, (ids ++ [id])%list),
              emit (EvSilentError (SkippedUpdate (canon self i) (card chunk))) w1)
       end.
Proof.
  intros Hdict. unfold reconcile_index. fold (canon self i). rewrite Hdict.
  unfold mbind at 1, M_bind at 1. rewrite get_list_items_eq.
  destruct (fails w) eqn:Hf; [done|].
  destruct (st_lists (remote w) !! id) as [[name items]|] eqn:Hid; [|done].
  cbn zeta. fold (top_up (list_to_set (take 1000 (elements items))
                  ∖ (list_to_set (take 1000 (elements items)) ∖ list_to_set d)) rem).
  set (cur := list_to_set (take 1000 (elements items)) : gset string).
  set (new_items := top_up _ rem).
  destruct (_ || _).
  - unfold mbind at 2, M_bind at 2. unfold mbind at 1, M_bind at 1.
    rewrite (update_list_clean id name items) by
      (try done; pose proof (fetched_subseteq items); set_solver).
    cbn zeta. change (fails (tick w)) with (fails (tick w)).
    destruct (fails (tick w)); [done|]. done.
  - done.
Qed.

(** An index without a list: a list is created when domains remain. *)
Lemma reconcile_index_missing `{PySetOrder} self d dict i rem ids w :
  dict !! canon self i = None →
  len ids < MAX_LISTS →
  reconcile_index self d dict i (rem, ids) w =
  if bool_decide (rem ≠ ∅) then
    let new_items := seed rem in
    let w1 := tick (emit (EvCreateList (canon self i) new_items) w) in
    if fails w then (connection_failed, w1)
    else
      let id := Api.fresh_id (remote w) in
      (Ok (rem ∖ list_to_set new_items, (ids ++ [id])%list),
       with_mapping id new_items
         (with_list (Lst id (canon self i))
            (emit (EvInfo (CreatedList (canon self i) (len new_items)))
               (set_remote (put_list id (canon self i) (list_to_set new_items) (remote w)) w1))))
  else (Ok (rem, ids), w).
Proof.
  intros Hdict Hlen. unfold reconcile_index. fold (canon self i). rewrite Hdict.
  destruct (bool_decide (rem ≠ ∅)); [|done].
  rewrite bool_decide_eq_false_2 by lia.
  unfold mbind at 1, M_bind at 1. unfold mret at 1, M_ret at 1.
  unfold mbind at 1, M_bind at 1. rewrite create_list_eq. cbn zeta.
  fold (seed rem). destruct (fails w); done.
Qed.

(** ** Canonical names *)

Lemma after_last_app sep (a t : string) :
  Py.after_last sep (a +:+ String sep t) = Some (default t (Py.after_last sep t)).
Proof.
  induction a as [|c a IH].
  - rewrite append_nil. simpl. destruct (Py.after_last sep t); [done|].
    by rewrite Ascii.eqb_refl.
  - rewrite append_cons. simpl. by rewrite IH.
Qed.

Lemma suffixes_read_back : forallb suffix_reads_back (seqZ 1 MAX_LISTS) = true.
Proof. by vm_compute. Qed.

Lemma suffix_reads_back_range j :
  1 ≤ j ≤ MAX_LISTS →
  Py.int (" " +:+ Py.fmt_03d j) = Some j ∧ Py.after_last "-" (" " +:+ Py.fmt_03d j) = None.
Proof.
  intros Hj. pose proof suffixes_read_back as Hall.
  rewrite forallb_forall in Hall. specialize (Hall j).
  unfold suffix_reads_back in Hall. rewrite andb_true_iff, !bool_decide_eq_true in Hall.
  apply Hall. apply list_elem_of_In, elem_of_seqZ. unfold MAX_LISTS in *. lia.
Qed.

Lemma canon_managed self j : managed self (canon self j).
Proof. apply prefix_app. Qed.

Lemma canon_parse self j :
  1 ≤ j ≤ MAX_LISTS → Py.int (Py.split_last "-" (canon self j)) = Some j.
Proof.
  intros Hj. destruct (suffix_reads_back_range j Hj) as [Hint Hlast].
  unfold Py.split_last, canon.
  change (" - " +:+ Py.fmt_03d j) with (" " +:+ String "-" (" " +:+ Py.fmt_03d j)).
  rewrite <- append_assoc, after_last_app, Hlast. done.
Qed.

Lemma canon_inj self i j :
  1 ≤ i ≤ MAX_LISTS → 1 ≤ j ≤ MAX_LISTS → canon self i = canon self j → i = j.
Proof.
  intros Hi Hj Heq. pose proof (canon_parse self i Hi) as H1.
  rewrite Heq, (canon_parse self j Hj) in H1. congruence.
Qed.

(** X14.  Round trip of the list names: for every prefix, even one that
    holds hyphens, and every index from 1 to [MAX_LISTS], the name
    [update_resources] gives the list of that index starts with the prefix
    [get_lists] filters on, reads back as that index in the indexing step,
    and belongs to no other index. *)
Theorem list_names_round_trip (self : CloudflareManager) (i j : Z) :
  1 ≤ i ≤ MAX_LISTS → 1 ≤ j ≤ MAX_LISTS →
  let name := list_name self +:+ " - " +:+ Py.fmt_03d i in
  String.prefix (list_name self) name = true ∧
  Py.int (Py.split_last "-" name) = Some i ∧
  (name = list_name self +:+ " - " +:+ Py.fmt_03d j → i = j).
Proof.
  intros Hi Hj name. split; [apply canon_managed|]. split; [by apply canon_parse|].
  by apply canon_inj.
Qed.

Lemma list_names_round_trip_witness :
  Py.int (Py.split_last "-" ("[my-lists]" +:+ " - " +:+ Py.fmt_03d 42)) = Some 42.
Proof.
  exact (proj1 (proj2 (list_names_round_trip (Manager "[my-lists]" "[my-lists] Block Ads")
                         42 7 ltac:(unfold MAX_LISTS; lia) ltac:(unfold MAX_LISTS; lia)))).
Defined.

(** ** The cache helpers, as equations *)

Lemma get_current_lists_eq n w :
  utils.get_current_lists n w =
  match cache_lists (mem w) with
  | _ :: _ => (Ok (cache_lists (mem w)), w)
  | [] =>
      if fails w then (connection_failed, tick w)
      else (Ok (remote_lists n (remote w)),
            set_mem (Cache (remote_lists n (remote w)) (cache_rules (mem w))
                           (cache_mapping (mem w))) (tick w))
  end.
Proof.
  unfold utils.get_current_lists. unfold_M. destruct (cache_lists (mem w)) eqn:E; [|done].
  rewrite get_lists_eq. by destruct (fails w).
Qed.

Lemma get_current_rules_eq n w :
  utils.get_current_rules n w =
  match cache_rules (mem w) with
  | _ :: _ => (Ok (cache_rules (mem w)), w)
  | [] =>
      if fails w then (connection_failed, tick w)
      else (Ok (remote_rules n (remote w)),
            set_mem (Cache (cache_lists (mem w)) (remote_rules n (remote w))
                           (cache_mapping (mem w))) (tick w))
  end.
Proof.
  unfold utils.get_current_rules. unfold_M. destruct (cache_rules (mem w)) eqn:E; [|done].
  rewrite get_rules_eq. by destruct (fails w).
Qed.

Lemma get_list_items_cached_eq id w :
  utils.get_list_items_cached id w =
  match cache_mapping (mem w) !! id with
  | Some items => (Ok items, w)
  | None =>
      if fails w then (connection_failed, tick w)
      else match st_lists (remote w) !! id with
           | Some (_, items) =>
               (Ok (take 1000 (elements items)),
                with_mapping id (take 1000 (elements items)) (tick w))
           | None => (Raise (HTTPException Api.no_such_resource), tick w)
           end
  end.
Proof.
  unfold utils.get_list_items_cached. unfold_M.
  destruct (cache_mapping (mem w) !! id) eqn:E; [done|].
  rewrite get_list_items_eq. destruct (fails w); [done|].
  by destruct (st_lists (remote w) !! id) as [[? ?]|].
Qed.

Lemma elem_of_remote_lists p s id name :
  Lst id name ∈ remote_lists p s ↔
  (∃ items, st_lists s !! id = Some (name, items)) ∧ String.prefix p name = true.
Proof.
  unfold remote_lists. rewrite list_elem_of_filter, list_elem_of_fmap. simpl. split.
  - intros [Hp ([k [n items]] & [= -> ->] & Hin)]. split; [|done].
    exists items. by apply elem_of_map_to_list.
  - intros [[items Hid] Hp]. split; [done|].
    exists (id, (name, items)). split; [done|]. by apply elem_of_map_to_list.
Qed.

(** ** The orphan loop *)

Lemma without_cons id gone L : without (id :: gone) L = without gone (delete id L).
Proof. done. Qed.

Lemma lookup_without gone : ∀ L id,
  without gone L !! id = if decide (id ∈ gone) then None else L !! id.
Proof.
  induction gone as [|g gone IH]; intros L id.
  - by rewrite decide_False by set_solver.
  - rewrite without_cons, IH. destruct (decide (id = g)) as [->|Hne].
    + rewrite (decide_True _ _ (list_elem_of_here g gone)).
      destruct (decide (g ∈ gone)); [done|]. apply lookup_delete_eq.
    + rewrite lookup_delete_ne by done.
      destruct (decide (id ∈ gone)) as [Hin|Hin].
      * by rewrite decide_True by set_solver.
      * by rewrite decide_False by set_solver.
Qed.

Lemma delete_orphans_cons l later count w :
  delete_orphans (l :: later) count w =
  let w1 := tick (emit (EvDeleteList (lst_id l)) w) in
  let failed e :=
    delete_orphans later count (emit (EvSilentError (FailedToDelete (lst_name l) e)) w1) in
  if fails w then failed (HTTPException "connection failed")
  else match st_lists (remote w) !! lst_id l with
       | None => failed (HTTPException Api.no_such_resource)
       | Some _ =>
           let w2 := emit (EvInfo (DeletedOrphan (lst_name l)))
                       (set_remote (drop_list (lst_id l) (remote w)) w1) in
           if bool_decide (count - 1 < MAX_LISTS) then (Ok (count - 1), w2)
           else delete_orphans later (count - 1) w2
       end.
Proof.
  cbn [delete_orphans]. unfold try_except, mbind, M_bind. cbv beta.
  rewrite delete_list_eq. cbn zeta.
  destruct (fails w); [done|].
  destruct (st_lists (remote w) !! lst_id l); [|done].
  cbn. by destruct (bool_decide (count - 1 < MAX_LISTS)).
Qed.

Lemma omap_deleted_cons id e new :
  deleted_id e = None →
  omap deleted_id (EvDeleteList id :: e :: new) = id :: omap deleted_id new.
Proof. intros He. cbn [omap list_omap deleted_id]. by rewrite He. Qed.

Lemma last_further {A} (x y : A) (l : list A) : last l = Some y → last (x :: l) = Some y.
Proof. by destruct l. Qed.

Lemma stopped_after_failure l e tried gone new count :
  stopped_after tried gone new count →
  stopped_after (l :: tried) gone
    (EvDeleteList (lst_id l) :: EvSilentError (FailedToDelete (lst_name l) e) :: new) count.
Proof.
  intros (l0 & Htried & Hgone & Hnew & Hc). exists l0.
  split; [by apply last_further|]. split; [done|]. split; [|done].
  by do 2 apply last_further.
Qed.

Lemma stopped_after_success l tried gone new count :
  stopped_after tried gone new count →
  stopped_after (l :: tried) (lst_id l :: gone)
    (EvDeleteList (lst_id l) :: EvInfo (DeletedOrphan (lst_name l)) :: new) count.
Proof.
  intros (l0 & Htried & Hgone & Hnew & Hc). exists l0.
  split; [by apply last_further|]. split; [by apply last_further|]. split; [|done].
  by do 2 apply last_further.
Qed.

Lemma delete_orphans_spec orphans : ∀ count w,
  ∃ count' w' gone new,
    delete_orphans orphans count w = (Ok count', w') ∧
    mem w' = mem w ∧ disk w' = disk w ∧
    st_rules (remote w') = st_rules (remote w) ∧
    st_lists (remote w') = without gone (st_lists (remote w)) ∧
    st_retired (remote w') = list_to_set gone ∪ st_retired (remote w) ∧
    NoDup gone ∧
    (∀ id, id ∈ gone → id ∈ lst_id <$> orphans) ∧
    (∀ id, id ∈ gone → is_Some (st_lists (remote w) !! id)) ∧
    count' = count - len gone ∧
    (len gone ≤ 1 ∨ MAX_LISTS ≤ count' + 1) ∧
    (count' < MAX_LISTS ∨ omap deleted_id new = lst_id <$> orphans) ∧
    trace w' = (trace w ++ new)%list ∧
    omap deleted_id new `prefix_of` (lst_id <$> orphans) ∧
    len (filter (λ e, is_delete_list e = true) new)
      = len gone + len (filter (λ e, is_failure_record e = true) new) ∧
    ∃ tried,
      tried `prefix_of` orphans ∧
      omap deleted_id new = lst_id <$> tried ∧
      len new = 2 * len tried ∧
      gone `sublist_of` (lst_id <$> tried) ∧
      (tried = orphans ∨ stopped_after tried gone new count') ∧
      (gone ≠ [] → count' < MAX_LISTS → stopped_after tried gone new count').
Proof.
  induction orphans as [|l later IH]; intros count w.
  - exists count, w, [], []. simpl.
    split; [done|]. split; [done|]. split; [done|]. split; [done|]. split; [done|].
    split; [set_solver|]. split; [apply NoDup_nil_2|]. split; [set_solver|].
    split; [set_solver|]. split; [unfold len; simpl; lia|].
    split; [left; unfold len; simpl; lia|]. split; [by right|].
    split; [by rewrite app_nil_r|]. split; [done|]. split; [done|].
    exists []. split; [done|]. split; [done|]. split; [done|]. split; [done|].
    split; [by left|]. done.
  - rewrite delete_orphans_cons. cbn zeta.
    set (w1 := tick (emit (EvDeleteList (lst_id l)) w)).
    assert (∀ e,
      ∃ count' w' gone new,
        delete_orphans later count
          (emit (EvSilentError (FailedToDelete (lst_name l) e)) w1) = (Ok count', w') ∧
        mem w' = mem w ∧ disk w' = disk w ∧
        st_rules (remote w') = st_rules (remote w) ∧
        st_lists (remote w') = without gone (st_lists (remote w)) ∧
        st_retired (remote w') = list_to_set gone ∪ st_retired (remote w) ∧
        NoDup gone ∧
        (∀ id, id ∈ gone → id ∈ lst_id <$> l :: later) ∧
        (∀ id, id ∈ gone → is_Some (st_lists (remote w) !! id)) ∧
        count' = count - len gone ∧
        (len gone ≤ 1 ∨ MAX_LISTS ≤ count' + 1) ∧
        (count' < MAX_LISTS ∨ omap deleted_id new = lst_id <$> l :: later) ∧
        trace w' = (trace w ++ new)%list ∧
        omap deleted_id new `prefix_of` (lst_id <$> l :: later) ∧
        len (filter (λ e, is_delete_list e = true) new)
          = len gone + len (filter (λ e, is_failure_record e = true) new) ∧
        ∃ tried,
          tried `prefix_of` l :: later ∧
          omap deleted_id new = lst_id <$> tried ∧
          len new = 2 * len tried ∧
          gone `sublist_of` (lst_id <$> tried) ∧
          (tried = l :: later ∨ stopped_after tried gone new count') ∧
          (gone ≠ [] → count' < MAX_LISTS → stopped_after tried gone new count')) as Hfail.
    { intros e.
      destruct (IH count (emit (EvSilentError (FailedToDelete (lst_name l) e)) w1))
        as (c' & w' & gone & new & Hrun & Hmem & Hdisk & Hrules & Hlists & Hret & Hnd & Hin
            & Hex & Hc & Hstop & Hall & Htr & Hpre & Hlen
            & tried & Htried & Hreq & Hnew & Hsub & Hend & Hbelow).
      exists c', w', gone,
        (EvDeleteList (lst_id l) :: EvSilentError (FailedToDelete (lst_name l) e) :: new).
      split; [done|]. split; [done|]. split; [done|]. split; [done|]. split; [done|].
      split; [done|]. split; [done|].
      split. { intros id Hid. rewrite fmap_cons. apply list_elem_of_further. by apply Hin. }
      split; [done|]. split; [done|]. split; [done|].
      split. { destruct Hall as [?|Hall]; [by left|right].
               rewrite omap_deleted_cons, fmap_cons by done. by rewrite Hall. }
      split. { rewrite Htr. simpl. by rewrite <- !app_assoc. }
      split. { rewrite omap_deleted_cons, fmap_cons by done. by apply prefix_cons. }
      split.
      { rewrite filter_cons_True by done. rewrite filter_cons_False by (simpl; congruence).
        rewrite filter_cons_False by (simpl; congruence). rewrite filter_cons_True by done.
        unfold len in *. simpl. lia. }
      exists (l :: tried). split; [by apply prefix_cons|].
      split; [rewrite omap_deleted_cons, fmap_cons by done; by rewrite Hreq|].
      split; [unfold len in *; simpl; lia|].
      split; [rewrite fmap_cons; by apply sublist_cons|].
      split. { destruct Hend as [->|Hend]; [by left|right]. by apply stopped_after_failure. }
      intros Hg Hc'. by apply stopped_after_failure, Hbelow. }
    destruct (fails w) eqn:Hf; [apply Hfail|].
    destruct (st_lists (remote w) !! lst_id l) as [x|] eqn:Hid; [|apply Hfail].
    clear Hfail.
    set (w2 := emit (EvInfo (DeletedOrphan (lst_name l)))
                 (set_remote (drop_list (lst_id l) (remote w)) w1)).
    destruct (bool_decide (count - 1 < MAX_LISTS)) eqn:Hstop.
    + apply bool_decide_eq_true in Hstop.
      exists (count - 1), w2, [lst_id l],
        [EvDeleteList (lst_id l); EvInfo (DeletedOrphan (lst_name l))].
      split; [done|]. split; [done|]. split; [done|]. split; [done|]. split; [done|].
      split; [simpl; set_solver|]. split; [apply NoDup_singleton|].
      split. { intros id ->%list_elem_of_singleton. set_solver. }
      split. { intros id ->%list_elem_of_singleton. by rewrite Hid. }
      split; [unfold len; simpl; lia|]. split; [left; unfold len; simpl; lia|].
      split; [by left|]. split; [simpl; by rewrite <- !app_assoc|].
      split. { rewrite omap_deleted_cons, fmap_cons by done. apply prefix_cons, prefix_nil. }
      split; [done|].
      assert (stopped_after [l] [lst_id l]
                [EvDeleteList (lst_id l); EvInfo (DeletedOrphan (lst_name l))] (count - 1))
        as Hhere by (by exists l).
      exists [l]. split; [apply prefix_cons, prefix_nil|]. split; [done|]. split; [done|].
      split; [done|]. split; [by right|]. done.
    + apply bool_decide_eq_false in Hstop.
      destruct (IH (count - 1) w2)
        as (c' & w' & gone & new & Hrun & Hmem & Hdisk & Hrules & Hlists & Hret & Hnd & Hin
            & Hex & Hc & Hstp & Hall & Htr & Hpre & Hlen
            & tried & Htried & Hreq & Hnew & Hsub & Hend & Hbelow).
      exists c', w', (lst_id l :: gone),
        (EvDeleteList (lst_id l) :: EvInfo (DeletedOrphan (lst_name l)) :: new).
      split; [done|]. split; [done|]. split; [done|]. split; [done|]. split; [done|].
      split; [rewrite Hret; simpl; set_solver|].
      split. { apply NoDup_cons. split; [|done]. intros Hin'. apply Hex in Hin'.
               simpl in Hin'. rewrite lookup_delete_eq in Hin'. by destruct Hin'. }
      split. { intros id [->|Hid']%elem_of_cons; [set_solver|].
               rewrite fmap_cons. apply list_elem_of_further. by apply Hin. }
      split. { intros id [->|Hid']%elem_of_cons; [by rewrite Hid|].
               apply Hex in Hid'. simpl in Hid'.
               destruct (decide (id = lst_id l)) as [->|Hne];
                 [by rewrite lookup_delete_eq in Hid'; destruct Hid'|].
               by rewrite lookup_delete_ne in Hid'. }
      split; [rewrite Hc; unfold len; simpl; lia|].
      split; [right; rewrite Hc; unfold len in *; simpl; destruct Hstp; lia|].
      split. { destruct Hall as [?|Hall]; [by left|right].
               rewrite omap_deleted_cons, fmap_cons by done. by rewrite Hall. }
      split. { rewrite Htr. simpl. by rewrite <- !app_assoc. }
      split. { rewrite omap_deleted_cons, fmap_cons by done. by apply prefix_cons. }
      split.
      { rewrite filter_cons_True by done. rewrite filter_cons_False by (simpl; congruence).
        rewrite filter_cons_False by (simpl; congruence).
        rewrite filter_cons_False by (simpl; congruence).
        unfold len in *. simpl. lia. }
      exists (l :: tried). split; [by apply prefix_cons|].
      split; [rewrite omap_deleted_cons, fmap_cons by done; by rewrite Hreq|].
      split; [unfold len in *; simpl; lia|].
      split; [rewrite fmap_cons; by apply sublist_skip|].
      assert (c' < MAX_LISTS → stopped_after (l :: tried) (lst_id l :: gone)
                (EvDeleteList (lst_id l) :: EvInfo (DeletedOrphan (lst_name l)) :: new) c')
        as Hlift.
      { intros Hc'. apply stopped_after_success. apply Hbelow; [|done].
        intros ->. unfold len in *. simpl in *. lia. }
      split; [|by intros _].
      destruct Hend as [->|Hend]; [by left|right]. apply Hlift. by destruct Hend as (? & _ & _ & _ & ?).
Qed.

Lemma remote_lists_delete p s id name items :
  st_lists s !! id = Some (name, items) → String.prefix p name = true →
  len (remote_lists p (drop_list id s)) = len (remote_lists p s) - 1.
Proof.
  intros Hid Hp. unfold remote_lists, len. simpl.
  rewrite <- (map_to_list_delete (st_lists s) id (name, items)) by done.
  rewrite fmap_cons, filter_cons_True by done. simpl. lia.
Qed.

Lemma len_remote_lists_without p gone : ∀ L R T,
  NoDup gone →
  (∀ id, id ∈ gone → ∃ name items, L !! id = Some (name, items) ∧ String.prefix p name = true) →
  len (remote_lists p (Store (without gone L) R T)) = len (remote_lists p (Store L R T)) - len gone.
Proof.
  induction gone as [|g gone IH]; intros L R T Hnd Hex.
  - unfold len; simpl; lia.
  - apply NoDup_cons in Hnd as [Hg Hnd]. rewrite without_cons.
    destruct (Hex g) as (name & items & Hid & Hp); [set_solver|].
    rewrite IH; [|done|].
    + pose proof (remote_lists_delete p (Store L R T) g name items Hid Hp) as Hd.
      unfold drop_list in Hd. simpl in Hd.
      unfold remote_lists in *. simpl in *. unfold len in *. simpl. lia.
    + intros id Hin. destruct (Hex id) as (n & it & Hl & Hpp); [set_solver|].
      exists n, it. split; [|done]. rewrite lookup_delete_ne; [done|]. set_solver.
Qed.

(** The first stage of a pass, when it gets through. *)
Lemma reclaim_orphans_ok self w rules count w' :
  reclaim_orphans self w = (Ok (rules, count), w') →
  ∃ gone,
    st_lists (remote w') = without gone (st_lists (remote w)) ∧
    st_rules (remote w') = st_rules (remote w) ∧
    st_retired (remote w') = list_to_set gone ∪ st_retired (remote w) ∧
    NoDup gone ∧
    (∀ id, id ∈ gone →
       (id ∉ utils.extract_list_ids (find_rule (rule_name self) rules)) ∧
       ∃ name items, st_lists (remote w) !! id = Some (name, items) ∧ managed self name) ∧
    count = len (remote_lists (list_name self) (remote w)) - len gone ∧
    (len gone ≤ 1 ∨ MAX_LISTS ≤ count + 1) ∧
    disk w' = disk w ∧
    cache_lists (mem w') = cache_lists (mem w) ∧
    cache_mapping (mem w') = cache_mapping (mem w) ∧
    cache_rules (mem w') = rules ∧
    (cache_rules (mem w) ≠ [] → rules = cache_rules (mem w)) ∧
    (cache_rules (mem w) = [] → rules = remote_rules (rule_name self) (remote w)).
Proof.
  unfold reclaim_orphans. intros Hrun.
  inv_bind Hrun. rewrite get_lists_eq in Hrun0.
  destruct (fails w) eqn:Hf; [done|]. injection Hrun0 as <- <-.
  fold (remote_lists (list_name self) (remote w)) in Hrun.
  set (all := remote_lists (list_name self) (remote w)) in *.
  inv_bind Hrun. rename a into current_rules.
  assert (remote w0 = remote w ∧ disk w0 = disk w ∧
          cache_lists (mem w0) = cache_lists (mem w) ∧
          cache_mapping (mem w0) = cache_mapping (mem w) ∧
          cache_rules (mem w0) = current_rules ∧
          (cache_rules (mem w) ≠ [] → current_rules = cache_rules (mem w)) ∧
          (cache_rules (mem w) = [] → current_rules = remote_rules (rule_name self) (remote w)))
    as (Hr0 & Hd0 & Hl0 & Hm0 & Hc0 & Hne0 & He0).
  { rewrite get_current_rules_eq in Hrun0.
    change (mem (tick w)) with (mem w) in Hrun0.
    destruct (cache_rules (mem w)) as [|r0 rs] eqn:Hcr.
    - destruct (fails (tick w)); [done|]. injection Hrun0 as <- <-. simpl. by rewrite ?Hcr.
    - injection Hrun0 as <- <-. simpl. by rewrite Hcr. }
  set (orphans := filter _ all) in Hrun.
  inv_bind Hrun. injection Hrun as -> -> ->.
  assert (∃ gone,
    mem w' = mem w0 ∧ disk w' = disk w0 ∧
    st_rules (remote w') = st_rules (remote w0) ∧
    st_lists (remote w') = without gone (st_lists (remote w0)) ∧
    st_retired (remote w') = list_to_set gone ∪ st_retired (remote w0) ∧
    NoDup gone ∧
    (∀ id, id ∈ gone → id ∈ lst_id <$> orphans) ∧
    (∀ id, id ∈ gone → is_Some (st_lists (remote w0) !! id)) ∧
    count = len all - len gone ∧
    (len gone ≤ 1 ∨ MAX_LISTS ≤ count + 1)) as (gone & Hmem & Hdisk & Hrules & Hlists & Hret
      & Hnd & Hin & Hex & Hc & Hstop).
  { destruct orphans as [|o os] eqn:Horph.
    - injection Hrun1 as <- <-. exists []. simpl.
      split_and!; try done; first [set_solver|apply NoDup_nil_2|(unfold len; simpl; lia)
                                   |(left; unfold len; simpl; lia)].
    - inv_bind Hrun1. unfold info, modify in Hrun2. injection Hrun2 as <- <-.
      destruct (delete_orphans_spec (take (Z.to_nat MAX_LISTS) (o :: os)) (len all)
                  (emit (EvInfo (FoundOrphans (len (o :: os)))) w0))
        as (c' & w2 & gone & new & Hrun & Hmem & Hdisk & Hrules & Hlists & Hret & Hnd & Hin
            & Hex & Hc & Hstop & _).
      rewrite Hrun in Hrun1. injection Hrun1 as <- <-.
      exists gone. split_and!; try done.
      intros id Hid. apply Hin in Hid.
      eapply list_elem_of_fmap in Hid as (l & -> & Hl).
      apply list_elem_of_fmap. exists l. split; [done|]. by eapply (subseteq_take _ _ l). }
  exists gone. rewrite Hlists, Hrules, Hret, Hr0, Hdisk, Hd0, Hmem, Hl0, Hm0, Hc0.
  split_and!; try done.
  intros id Hid. specialize (Hin _ Hid).
  apply list_elem_of_fmap in Hin as ([id' name] & -> & Hl). simpl.
  unfold orphans in Hl. apply list_elem_of_filter in Hl as [Hact Hl].
  split; [done|]. unfold all in Hl. apply elem_of_remote_lists in Hl as [[items Hit] Hp].
  by exists name, items.
Qed.

(** ** The inventory *)

Lemma elem_of_union_values (m : gmap ident (gset Domain)) x :
  x ∈ map_fold (λ _ domains acc, domains ∪ acc) (∅ : gset Domain) m ↔
  ∃ id s, m !! id = Some s ∧ x ∈ s.
Proof.
  revert m. apply (map_fold_weak_ind (λ acc m, x ∈ acc ↔ ∃ id s, m !! id = Some s ∧ x ∈ s)).
  - split; [set_solver|]. intros (id & s & Hl & _). by rewrite lookup_empty in Hl.
  - intros i s m r Hi IH. rewrite elem_of_union, IH. split.
    + intros [Hx|(id & s' & Hl & Hx)].
      * exists i, s. by rewrite lookup_insert_eq.
      * exists id, s'. split; [|done]. rewrite lookup_insert_ne; [done|]. congruence.
    + intros (id & s' & Hl & Hx). destruct (decide (i = id)) as [->|Hne].
      * rewrite lookup_insert_eq in Hl. left. congruence.
      * rewrite lookup_insert_ne in Hl by done. right. eauto.
Qed.

Lemma inventory_fold current_lists : ∀ (m : gmap ident (gset Domain)) w m' w',
  foldM (λ l (m : gmap ident (gset Domain)),
           items ← utils.get_list_items_cached (lst_id l);
           mret (<[lst_id l := list_to_set items]> m))
        current_lists m w = (Ok m', w') →
  remote w' = remote w ∧ disk w' = disk w ∧
  cache_lists (mem w') = cache_lists (mem w) ∧
  cache_rules (mem w') = cache_rules (mem w) ∧
  (∀ id its, cache_mapping (mem w) !! id = Some its → cache_mapping (mem w') !! id = Some its) ∧
  (∀ id its, cache_mapping (mem w') !! id = Some its →
     cache_mapping (mem w) !! id = Some its ∨
     ∃ name items, st_lists (remote w) !! id = Some (name, items) ∧
                   its = take 1000 (elements items)) ∧
  (∀ id, m' !! id = if decide (id ∈ lst_id <$> current_lists)
                    then list_to_set <$> (cache_mapping (mem w') !! id)
                    else m !! id) ∧
  (∀ l, l ∈ current_lists → is_Some (cache_mapping (mem w') !! lst_id l)).
Proof.
  induction current_lists as [|l ls IH]; intros m w m' w' Hrun; simpl in Hrun.
  - injection Hrun as <- <-. split_and!; try done; [by left|set_solver].
  - inv_bind Hrun. inv_bind Hrun0. injection Hrun0 as <- <-.
    rename a0 into items.
    assert (remote w1 = remote w ∧ disk w1 = disk w ∧
            cache_lists (mem w1) = cache_lists (mem w) ∧
            cache_rules (mem w1) = cache_rules (mem w) ∧
            cache_mapping (mem w1) !! lst_id l = Some items ∧
            (∀ id its, cache_mapping (mem w) !! id = Some its →
                       cache_mapping (mem w1) !! id = Some its) ∧
            (∀ id its, cache_mapping (mem w1) !! id = Some its →
               cache_mapping (mem w) !! id = Some its ∨
               ∃ name items, st_lists (remote w) !! id = Some (name, items) ∧
                             its = take 1000 (elements items)))
      as (Hr1 & Hd1 & Hl1 & Hc1 & Hm1 & Hext1 & Hnew1).
    { rewrite get_list_items_cached_eq in Hrun1.
      destruct (cache_mapping (mem w) !! lst_id l) as [its0|] eqn:Hhit.
      - injection Hrun1 as <- <-. split_and!; try done. by left.
      - destruct (fails w); [done|].
        destruct (st_lists (remote w) !! lst_id l) as [[name its1]|] eqn:Hid; [|done].
        injection Hrun1 as <- <-. simpl. split_and!; try done.
        + apply lookup_insert_eq.
        + intros id its Hits. rewrite lookup_insert_ne; [done|]. congruence.
        + intros id its. destruct (decide (lst_id l = id)) as [<-|Hne].
          * rewrite lookup_insert_eq. intros [= <-]. right. eauto.
          * rewrite lookup_insert_ne by done. by left. }
    apply IH in Hrun as (Hr & Hd & Hl & Hc & Hext & Hnew & Hm' & Hall).
    rewrite Hr, Hd, Hl, Hc, Hr1, Hd1, Hl1, Hc1. split_and!; try done.
    + intros id its Hits. by apply Hext, Hext1.
    + intros id its Hits. destruct (Hnew _ _ Hits) as [Hold|Hfresh].
      * by apply Hnew1.
      * right. by rewrite Hr1 in Hfresh.
    + intros id. rewrite Hm'. rewrite fmap_cons.
      destruct (decide (id ∈ lst_id <$> ls)) as [Hin|Hin].
      * by rewrite decide_True by set_solver.
      * destruct (decide (id = lst_id l)) as [->|Hne].
        -- rewrite decide_True by set_solver. rewrite lookup_insert_eq.
           by rewrite (Hext _ _ Hm1).
        -- rewrite decide_False by set_solver. by rewrite lookup_insert_ne.
    + intros l' [->|Hin]%elem_of_cons; [|by apply Hall].
      rewrite (Hext _ _ Hm1). by eexists.
Qed.

(** The second stage of a pass, when it gets through. *)
Lemma take_inventory_ok self d w current_lists rem w' :
  take_inventory self d w = (Ok (current_lists, rem), w') →
  remote w' = remote w ∧ disk w' = disk w ∧
  cache_lists (mem w') = current_lists ∧
  cache_rules (mem w') = cache_rules (mem w) ∧
  (cache_lists (mem w) ≠ [] → current_lists = cache_lists (mem w)) ∧
  (cache_lists (mem w) = [] → current_lists = remote_lists (list_name self) (remote w)) ∧
  (∀ id its, cache_mapping (mem w) !! id = Some its → cache_mapping (mem w') !! id = Some its) ∧
  (∀ id its, cache_mapping (mem w') !! id = Some its →
     cache_mapping (mem w) !! id = Some its ∨
     ∃ name items, st_lists (remote w) !! id = Some (name, items) ∧
                   its = take 1000 (elements items)) ∧
  (∀ l, l ∈ current_lists → is_Some (cache_mapping (mem w') !! lst_id l)) ∧
  (∀ x, x ∈ rem ↔
        x ∈ d ∧ ∀ l its, l ∈ current_lists →
                         cache_mapping (mem w') !! lst_id l = Some its → x ∉ its).
Proof.
  unfold take_inventory. intros Hrun.
  inv_bind Hrun. rename a into cl.
  assert (remote w0 = remote w ∧ disk w0 = disk w ∧
          cache_lists (mem w0) = cl ∧ cache_rules (mem w0) = cache_rules (mem w) ∧
          cache_mapping (mem w0) = cache_mapping (mem w) ∧
          (cache_lists (mem w) ≠ [] → cl = cache_lists (mem w)) ∧
          (cache_lists (mem w) = [] → cl = remote_lists (list_name self) (remote w)))
    as (Hr0 & Hd0 & Hl0 & Hc0 & Hm0 & Hne0 & He0).
  { rewrite get_current_lists_eq in Hrun0.
    destruct (cache_lists (mem w)) as [|l0 ls] eqn:Hcl.
    - destruct (fails w); [done|]. injection Hrun0 as <- <-. simpl. by rewrite ?Hcl.
    - injection Hrun0 as <- <-. by rewrite Hcl. }
  inv_bind Hrun. injection Hrun as -> <- ->.
  apply inventory_fold in Hrun1 as (Hr & Hd & Hl & Hc & Hext & Hnew & Hm' & Hall).
  rewrite Hr, Hd, Hl, Hc, Hr0, Hd0, Hl0, Hc0. rewrite Hm0 in Hext, Hnew. rewrite Hr0 in Hnew.
  split_and!; try done.
  intros x. rewrite elem_of_difference, elem_of_list_to_set, elem_of_union_values.
  split.
  - intros [Hx Hno]. split; [done|]. intros l its Hin Hits Hxi. apply Hno.
    exists (lst_id l), (list_to_set its). split; [|by apply elem_of_list_to_set].
    rewrite Hm', decide_True by (apply list_elem_of_fmap; eauto). by rewrite Hits.
  - intros [Hx Hno]. split; [done|]. intros (id & s & Hs & Hxs).
    rewrite Hm' in Hs. destruct (decide (id ∈ lst_id <$> current_lists)) as [Hin|Hin];
      [|by rewrite lookup_empty in Hs].
    apply list_elem_of_fmap in Hin as (l & -> & Hl').
    destruct (cache_mapping (mem w') !! lst_id l) as [its|] eqn:Hits; [|done].
    injection Hs as <-. apply elem_of_list_to_set in Hxs. by eapply Hno.
Qed.

(** ** The effect of one index *)

Lemma take_order_subseteq `{PySetOrder} n (s : gset Domain) :
  list_to_set (C := gset Domain) (take n (set_order s)) ⊆ s.
Proof.
  intros x Hx. apply elem_of_list_to_set in Hx.
  apply set_order_elem. by apply (subseteq_take n).
Qed.

Lemma take_order_NoDup `{PySetOrder} n (s : gset Domain) : NoDup (take n (set_order s)).
Proof. eapply sublist_NoDup; [apply set_order_NoDup|apply sublist_take]. Qed.

Lemma size_list_to_set_NoDup (l : list Domain) :
  NoDup l → size (list_to_set (C := gset Domain) l) = List.length l.
Proof. apply size_list_to_set. Qed.

(** When something is left after taking [n] domains, [n] domains were taken
    and the set had more. *)
Lemma take_order_more `{PySetOrder} n (s : gset Domain) :
  s ∖ list_to_set (take n (set_order s)) ≠ ∅ → (n < size s)%nat.
Proof.
  intros Hrest. rewrite <- set_order_length.
  destruct (decide (n < List.length (set_order s))%nat) as [Hlt|Hge]; [done|].
  exfalso. apply Hrest. rewrite take_ge by lia. rewrite list_to_set_order. set_solver.
Qed.

Lemma take_order_rest `{PySetOrder} n (s : gset Domain) :
  s ∖ list_to_set (take n (set_order s)) ≠ ∅ → List.length (take n (set_order s)) = n.
Proof.
  intros Hrest. apply take_order_more in Hrest.
  rewrite length_take, set_order_length. lia.
Qed.

Lemma top_up_subseteq `{PySetOrder} kept rem :
  list_to_set (C := gset Domain) (top_up kept rem) ⊆ rem.
Proof.
  unfold top_up. destruct (bool_decide _); [apply take_order_subseteq|set_solver].
Qed.

Lemma top_up_size `{PySetOrder} (kept rem : gset Domain) :
  kept ## rem →
  (size kept ≤ 1000 → size (kept ∪ list_to_set (top_up kept rem)) ≤ 1000)%nat.
Proof.
  intros Hdisj Hk. unfold top_up, card.
  destruct (bool_decide _) eqn:Hlt.
  - rewrite size_union.
    + rewrite size_list_to_set_NoDup by apply take_order_NoDup.
      rewrite length_take. apply bool_decide_eq_true in Hlt. lia.
    + pose proof (take_order_subseteq (Z.to_nat (1000 - Z.of_nat (size kept))) rem).
      set_solver.
  - simpl. rewrite union_empty_r_L. done.
Qed.

Lemma top_up_full `{PySetOrder} (kept rem : gset Domain) :
  kept ## rem →
  rem ∖ list_to_set (top_up kept rem) ≠ ∅ →
  (1000 ≤ size (kept ∪ list_to_set (top_up kept rem)))%nat.
Proof.
  intros Hdisj Hrest. unfold top_up, card in *.
  destruct (bool_decide _) eqn:Hlt.
  - apply bool_decide_eq_true in Hlt. rewrite size_union.
    + rewrite size_list_to_set_NoDup by apply take_order_NoDup.
      rewrite (take_order_rest _ _ Hrest). lia.
    + pose proof (take_order_subseteq (Z.to_nat (1000 - Z.of_nat (size kept))) rem).
      set_solver.
  - apply bool_decide_eq_false in Hlt. simpl. rewrite union_empty_r_L. lia.
Qed.

Lemma seed_subseteq `{PySetOrder} rem : list_to_set (C := gset Domain) (seed rem) ⊆ rem.
Proof. apply take_order_subseteq. Qed.

Lemma seed_size `{PySetOrder} (rem : gset Domain) :
  (size (list_to_set (C := gset Domain) (seed rem)) ≤ 1000)%nat.
Proof.
  unfold seed. rewrite size_list_to_set_NoDup by apply take_order_NoDup.
  rewrite length_take. lia.
Qed.

Lemma seed_len `{PySetOrder} (rem : gset Domain) : len (seed rem) ≤ 1000.
Proof. unfold seed, len. rewrite length_take. lia. Qed.

Lemma seed_full `{PySetOrder} (rem : gset Domain) :
  rem ∖ list_to_set (seed rem) ≠ ∅ →
  (1000 ≤ size (list_to_set (C := gset Domain) (seed rem)))%nat.
Proof.
  intros Hrest. unfold seed in *. rewrite size_list_to_set_NoDup by apply take_order_NoDup.
  rewrite (take_order_rest _ _ Hrest). apply take_order_more in Hrest.
  unfold card in *. lia.
Qed.

Lemma existing_effect `{PySetOrder} self d dict i rem ids id w rem' ids' w' :
  dict !! canon self i = Some id →
  reconcile_index self d dict i (rem, ids) w = (Ok (rem', ids'), w') →
  ∃ name items,
    st_lists (remote w) !! id = Some (name, items) ∧
    let cur : gset Domain := list_to_set (take 1000 (elements items)) in
    let kept := cur ∖ (cur ∖ list_to_set d) in
    let new := top_up kept rem in
    rem' = rem ∖ list_to_set new ∧ ids' = (ids ++ [id])%list ∧
    st_lists (remote w')
      = <[id := (name, (items ∖ (cur ∖ list_to_set d)) ∪ list_to_set new)]> (st_lists (remote w)) ∧
    st_rules (remote w') = st_rules (remote w) ∧
    st_retired (remote w') = st_retired (remote w) ∧
    disk w' = disk w ∧
    cache_lists (mem w') = cache_lists (mem w) ∧
    cache_rules (mem w') = cache_rules (mem w) ∧
    (cache_mapping (mem w') = <[id := set_order (kept ∪ list_to_set new)]> (cache_mapping (mem w)) ∨
     (cache_mapping (mem w') = cache_mapping (mem w) ∧ cur ∖ list_to_set d = ∅ ∧ new = [])).
Proof.
  intros Hdict. rewrite (reconcile_index_existing self d dict i rem ids id w Hdict).
  destruct (fails w); [done|].
  destruct (st_lists (remote w) !! id) as [[name items]|] eqn:Hid; [|done].
  cbn zeta. intros Hrun. exists name, items. split; [done|].
  set (cur := list_to_set (take 1000 (elements items)) : gset string) in *.
  set (new := top_up _ rem) in *.
  destruct (bool_decide (cur ∖ list_to_set d ≠ ∅)) eqn:Hrm;
  destruct (bool_decide (new ≠ [])) eqn:Hnew; cbn [orb] in Hrun.
  1-3: destruct (fails (tick w)); [done|]; injection Hrun as <- <- <-;
       split_and!; try done; by left.
  injection Hrun as <- <- <-.
  apply bool_decide_eq_false in Hrm, Hnew.
  apply dec_stable in Hrm. apply dec_stable in Hnew.
  split_and!; try done.
  - simpl. rewrite Hrm, Hnew. simpl.
    replace (items ∖ ∅ ∪ ∅) with items by set_solver. by rewrite insert_id.
  - by right.
Qed.

Lemma missing_effect `{PySetOrder} self d dict i rem ids w rem' ids' w' :
  dict !! canon self i = None →
  len ids < MAX_LISTS →
  reconcile_index self d dict i (rem, ids) w = (Ok (rem', ids'), w') →
  (rem = ∅ ∧ rem' = rem ∧ ids' = ids ∧ w' = w) ∨
  (rem ≠ ∅ ∧
   let new := seed rem in
   let id := Api.fresh_id (remote w) in
   rem' = rem ∖ list_to_set new ∧ ids' = (ids ++ [id])%list ∧
   st_lists (remote w') = <[id := (canon self i, list_to_set new)]> (st_lists (remote w)) ∧
   st_rules (remote w') = st_rules (remote w) ∧
   st_retired (remote w') = st_retired (remote w) ∧
   disk w' = disk w ∧
   cache_lists (mem w') = (cache_lists (mem w) ++ [Lst id (canon self i)])%list ∧
   cache_rules (mem w') = cache_rules (mem w) ∧
   cache_mapping (mem w') = <[id := new]> (cache_mapping (mem w))).
Proof.
  intros Hdict Hlen. rewrite (reconcile_index_missing self d dict i rem ids w Hdict Hlen).
  destruct (bool_decide (rem ≠ ∅)) eqn:Hrem.
  - apply bool_decide_eq_true in Hrem. cbn zeta.
    destruct (fails w); [done|]. intros [= <- <- <-]. right. by split_and!.
  - apply bool_decide_eq_false, dec_stable in Hrem. intros [= <- <- <-]. by left.
Qed.

(** ** The dict from names to identifiers *)

Lemma lst_eta (l : lst) : Lst (lst_id l) (lst_name l) = l.
Proof. by destruct l. Qed.

Lemma foldl_insert_Some (cl : list lst) : ∀ (m0 : gmap string ident) n id,
  foldl (λ m l, <[lst_name l := lst_id l]> m) m0 cl !! n = Some id →
  Lst id n ∈ cl ∨ m0 !! n = Some id.
Proof.
  induction cl as [|l cl IH]; intros m0 n id Hl; simpl in Hl; [by right|].
  apply IH in Hl as [Hin|Hl]; [left; by apply list_elem_of_further|].
  destruct (decide (lst_name l = n)) as [<-|Hne].
  - rewrite lookup_insert_eq in Hl. injection Hl as <-. left. rewrite lst_eta.
    apply list_elem_of_here.
  - rewrite lookup_insert_ne in Hl by done. by right.
Qed.

Lemma foldl_insert_is_Some (cl : list lst) : ∀ (m0 : gmap string ident) n,
  is_Some (m0 !! n) → is_Some (foldl (λ m l, <[lst_name l := lst_id l]> m) m0 cl !! n).
Proof.
  induction cl as [|l cl IH]; intros m0 n Hs; simpl; [done|].
  apply IH. destruct (decide (lst_name l = n)) as [<-|Hne].
  - rewrite lookup_insert_eq. by eexists.
  - by rewrite lookup_insert_ne.
Qed.

Lemma foldl_insert_None (cl : list lst) : ∀ (m0 : gmap string ident) n,
  foldl (λ m l, <[lst_name l := lst_id l]> m) m0 cl !! n = None →
  ∀ l, l ∈ cl → lst_name l ≠ n.
Proof.
  induction cl as [|l0 cl IH]; intros m0 n Hnone l Hin; [by apply elem_of_nil in Hin|].
  simpl in Hnone. apply elem_of_cons in Hin as [->|Hin]; [|by eapply IH].
  intros <-.
  pose proof (foldl_insert_is_Some cl (<[lst_name l0 := lst_id l0]> m0) (lst_name l0)) as Hs.
  rewrite Hnone in Hs. destruct Hs as [? ?]; [|done].
  rewrite lookup_insert_eq. by eexists.
Qed.

Lemma name_dict_Some cl n id : name_dict cl !! n = Some id → Lst id n ∈ cl.
Proof.
  intros Hl. apply foldl_insert_Some in Hl as [?|Hl]; [done|].
  by rewrite lookup_empty in Hl.
Qed.

Lemma name_dict_None cl n l : name_dict cl !! n = None → l ∈ cl → lst_name l ≠ n.
Proof. intros Hl. by eapply foldl_insert_None. Qed.

(** ** Facts read off the invariant *)

Section invariant_facts.
Context `{PySetOrder} (self : CloudflareManager) (D : gset Domain) (R0 : lists_map)
        (CL : list lst) (m k : Z) (rem : gset Domain) (ids : list ident) (w : world).
Hypothesis Hm : m ≤ MAX_LISTS.
Hypothesis Hinv : loop_inv self D R0 CL m k rem ids w.

Lemma inv_index l j :
  l ∈ cache_lists (mem w) → lst_name l = canon self j → 1 ≤ j ≤ MAX_LISTS →
  1 ≤ j ≤ m ∧
  if decide (j ≤ k) then settled D R0 CL rem ids w l else pending R0 CL w l.
Proof.
  intros Hl Hname Hj. destruct (li_lists _ _ _ _ _ _ _ _ _ Hinv l Hl) as (j' & Hj' & Hn' & Hst).
  assert (j' = j) as ->; [|done].
  apply (canon_inj self); [lia|done|congruence].
Qed.

(** The domains that remain are in no list the cache knows. *)
Lemma inv_rem_disjoint l n s :
  l ∈ cache_lists (mem w) → st_lists (remote w) !! lst_id l = Some (n, s) → rem ## s.
Proof.
  intros Hl Hs. destruct (li_lists _ _ _ _ _ _ _ _ _ Hinv l Hl) as (j & Hj & Hn & Hst).
  destruct (decide (j ≤ k)).
  - destruct Hst as (items & its & Hlook & _ & _ & _ & _ & _ & _ & Hd & _).
    rewrite Hs in Hlook. by injection Hlook as -> ->.
  - destruct Hst as (Hcl & it0 & its & HR0 & _ & _ & Hcur).
    specialize (Hcur _ Hs). injection Hcur as -> ->.
    destruct (li_rem _ _ _ _ _ _ _ _ _ Hinv) as [_ Hrem]. by eapply Hrem.
Qed.

(** A list the cache knows beyond the inventory has been visited. *)
Lemma inv_pending_old l j :
  l ∈ cache_lists (mem w) → lst_name l = canon self j → 1 ≤ j ≤ MAX_LISTS → k < j → l ∈ CL.
Proof.
  intros Hl Hname Hj Hk. destruct (inv_index l j Hl Hname Hj) as [_ Hst].
  rewrite decide_False in Hst by lia. by destruct Hst.
Qed.
End invariant_facts.

(** ** The invariant is kept by one index *)

Lemma settled_frame D R0 CL rem ids w rem' ids' w' l :
  settled D R0 CL rem ids w l →
  st_lists (remote w') !! lst_id l = st_lists (remote w) !! lst_id l →
  cache_mapping (mem w') !! lst_id l = cache_mapping (mem w) !! lst_id l →
  rem' ⊆ rem → (∀ x, x ∈ ids → x ∈ ids') →
  settled D R0 CL rem' ids' w' l.
Proof.
  intros (items & its & Hl & Hsub & Hsz & Hmp & Hits & Hid & Hfull & Hdisj & Hold) HL HM Hrem Hids.
  exists items, its. rewrite HL, HM. split_and!; try done.
  - by apply Hids.
  - intros Hne. apply Hfull. set_solver.
  - set_solver.
Qed.

Lemma pending_frame R0 CL w w' l :
  pending R0 CL w l →
  st_lists (remote w') !! lst_id l = st_lists (remote w) !! lst_id l →
  cache_mapping (mem w') !! lst_id l = cache_mapping (mem w) !! lst_id l →
  pending R0 CL w' l.
Proof.
  intros (Hcl & it0 & its & HR0 & Hmp & Hits & Hcur) HL HM.
  split; [done|]. exists it0, its. rewrite HL, HM. done.
Qed.

Section step.
Context `{PySetOrder} (self : CloudflareManager) (d : list Domain) (R0 : lists_map)
        (CL : list lst) (m : Z).
Hypothesis Hgood : good_lists self R0.
Hypothesis Hm : m ≤ MAX_LISTS.

Lemma step_existing i rem ids w id rem' ids' w' :
  1 ≤ i ≤ m →
  loop_inv self (list_to_set d) R0 CL m (i - 1) rem ids w →
  name_dict CL !! canon self i = Some id →
  reconcile_index self d (name_dict CL) i (rem, ids) w = (Ok (rem', ids'), w') →
  loop_inv self (list_to_set d) R0 CL m i rem' ids' w'.
Proof.
  intros Hi Hinv Hdict Hrun.
  set (D := list_to_set d : gset string) in *.
  set (l0 := Lst id (canon self i)).
  assert (l0 ∈ CL) as Hl0CL by (by apply name_dict_Some).
  assert (l0 ∈ cache_lists (mem w)) as Hl0 by (by apply (li_old _ _ _ _ _ _ _ _ _ Hinv)).
  destruct (inv_index self D R0 CL m (i - 1) rem ids w Hm Hinv l0 i Hl0 eq_refl) as [_ Hpend];
    [lia|].
  rewrite decide_False in Hpend by lia.
  destruct Hpend as (_ & it0 & its & HR0 & HMp & Hits & Hcur). simpl in HR0, HMp, Hcur.
  destruct (existing_effect self d (name_dict CL) i rem ids id w rem' ids' w' Hdict Hrun)
    as (name & items & Hid & Hrem' & Hids' & HL' & Hrules' & Hret' & Hdisk' & HC' & HCr' & HM').
  specialize (Hcur _ Hid). injection Hcur as -> ->.
  assert (size it0 ≤ 1000)%nat as Hsz0
    by (eapply (gl_sizes _ _ Hgood); [exact HR0|apply canon_managed]).
  rewrite (fetched_all it0 Hsz0) in Hrem', HL', HM'. fold D in Hrem', HL', HM'.
  set (kept := it0 ∖ (it0 ∖ D)) in *.
  set (new := top_up kept rem) in *.
  set (items' := kept ∪ list_to_set new : gset string) in *.
  destruct (li_rem _ _ _ _ _ _ _ _ _ Hinv) as [HremD Hrem0].
  assert (rem ## it0) as Hremit0 by (by eapply (Hrem0 l0)).
  assert (kept ## rem) as Hkr by (unfold kept; set_solver).
  assert (list_to_set new ⊆ rem) as Hnew by apply top_up_subseteq.
  assert (rem' ⊆ rem) as Hsub' by (rewrite Hrem'; set_solver).
  assert (∃ its', cache_mapping (mem w') !! id = Some its' ∧ list_to_set its' = items')
    as (its' & HMid & Hits').
  { destruct HM' as [->|(-> & Hrm & Hnil)].
    - eexists. rewrite lookup_insert_eq. split; [done|]. apply list_to_set_order.
    - exists its. split; [done|]. rewrite Hits. unfold items', new.
      fold new. rewrite Hnil. unfold kept. rewrite Hrm. set_solver. }
  assert (∀ id', id' ≠ id → cache_mapping (mem w') !! id' = cache_mapping (mem w) !! id')
    as HMother.
  { intros id' Hne. destruct HM' as [->|(-> & _)]; [|done]. by rewrite lookup_insert_ne. }
  assert (∀ id', id' ≠ id → st_lists (remote w') !! id' = st_lists (remote w) !! id')
    as HLother by (intros id' Hne; by rewrite HL', lookup_insert_ne).
  assert (st_lists (remote w') !! id = Some (canon self i, items')) as HLid
    by (by rewrite HL', lookup_insert_eq).
  assert (∀ l, l ∈ cache_lists (mem w) → l ≠ l0 → lst_id l ≠ id) as Hother.
  { intros l Hl Hne Heq. apply Hne. by apply (li_id_inj _ _ _ _ _ _ _ _ _ Hinv). }
  assert (settled D R0 CL rem' ids' w' l0) as Hset0.
  { exists items', its'. simpl. split_and!; try done.
    - unfold items', kept. set_solver.
    - apply top_up_size; [done|]. etrans; [|exact Hsz0].
      apply subseteq_size. unfold kept. set_solver.
    - rewrite Hids'. set_solver.
    - intros Hne. apply top_up_full; [done|]. rewrite Hrem' in Hne. exact Hne.
    - rewrite Hrem'. unfold items'. set_solver.
    - intros _ nm it1 HR1. rewrite HR0 in HR1. injection HR1 as <- <-.
      unfold items', kept. set_solver. }
  constructor.
  - (* li_lists *)
    rewrite HC'. intros l Hl.
    destruct (li_lists _ _ _ _ _ _ _ _ _ Hinv l Hl) as (j & Hj & Hn & Hst).
    exists j. split; [done|]. split; [done|].
    destruct (decide (l = l0)) as [->|Hne].
    + assert (j = i) as -> by (apply (canon_inj self); [lia|lia|done]).
      by rewrite decide_True by lia.
    + assert (j ≠ i) as Hji.
      { intros ->. apply Hne. by apply (li_name_inj _ _ _ _ _ _ _ _ _ Hinv). }
      specialize (Hother l Hl Hne).
      destruct (decide (j ≤ i - 1)).
      * rewrite decide_True by lia.
        eapply settled_frame; eauto. rewrite Hids'. set_solver.
      * rewrite decide_False by lia. eapply pending_frame; eauto.
  - rewrite HC'. apply (li_name_inj _ _ _ _ _ _ _ _ _ Hinv).
  - rewrite HC'. apply (li_id_inj _ _ _ _ _ _ _ _ _ Hinv).
  - rewrite HC'. apply (li_old _ _ _ _ _ _ _ _ _ Hinv).
  - (* li_ids *)
    rewrite HC', Hids'. intros id' [Hin|Hin%list_elem_of_singleton]%elem_of_app; [|subst id'].
    + destruct (li_ids _ _ _ _ _ _ _ _ _ Hinv id' Hin) as (l & j & ? & ? & ? & ?).
      exists l, j. split_and!; try done; lia.
    + exists l0, i. split_and!; try done; lia.
  - rewrite Hids', len_app. pose proof (li_len _ _ _ _ _ _ _ _ _ Hinv).
    unfold len at 2. simpl. lia.
  - split; [set_solver|]. intros l nm it1 Hl HR1. specialize (Hrem0 l nm it1 Hl HR1).
    set_solver.
  - (* li_cover *)
    rewrite HC'. intros x Hx.
    destruct (li_cover _ _ _ _ _ _ _ _ _ Hinv x Hx) as [Hr|[Hold|(l & s & Hl & Hs & Hxs)]].
    + destruct (decide (x ∈ new)) as [Hxn|Hxn].
      * right. right. exists l0, items'. split_and!; try done.
        unfold items'. set_solver.
      * left. rewrite Hrem'. set_solver.
    + by right; left.
    + right. right. destruct (decide (l = l0)) as [->|Hne].
      * exists l0, items'. split_and!; try done. simpl in Hs.
        rewrite Hid in Hs. injection Hs as <-. unfold items', kept. set_solver.
      * exists l, s. split_and!; try done. by rewrite HLother by by apply Hother.
  - (* li_managed *)
    rewrite HC'. intros id' name' s Hs Hmg. destruct (decide (id' = id)) as [->|Hne].
    + rewrite HLid in Hs. by injection Hs as <- <-.
    + rewrite HLother in Hs by done. by eapply (li_managed _ _ _ _ _ _ _ _ _ Hinv).
  - (* li_occupied *)
    rewrite HC'. intros Hne j Hj. destruct (decide (j = i)) as [->|Hji].
    + by exists l0.
    + apply (li_occupied _ _ _ _ _ _ _ _ _ Hinv); [set_solver|lia].
  - (* li_known *)
    rewrite HC', Hret', HL', dom_insert_L. intros l Hl.
    pose proof (li_known _ _ _ _ _ _ _ _ _ Hinv l Hl). set_solver.
  - (* li_disj *)
    rewrite HC'. intros Hdisj l1 l2 n1 n2 s1 s2 Hl1 Hl2 Hne Hs1 Hs2.
    assert (∀ l n s, l ∈ cache_lists (mem w) → l ≠ l0 →
              st_lists (remote w) !! lst_id l = Some (n, s) → items' ## s) as Hfresh.
    { intros l n s Hl Hnl Hs.
      assert (it0 ## s) as Hit
        by (eapply (li_disj _ _ _ _ _ _ _ _ _ Hinv Hdisj l0 l); eauto).
      pose proof (inv_rem_disjoint self D R0 CL m (i - 1) rem ids w Hinv l n s Hl Hs).
      unfold items', kept. set_solver. }
    destruct (decide (l1 = l0)) as [->|Hn1]; destruct (decide (l2 = l0)) as [->|Hn2].
    + done.
    + simpl in Hs1. rewrite HLid in Hs1. injection Hs1 as <- <-.
      rewrite HLother in Hs2 by by apply Hother. by apply (Hfresh l2 n2 s2).
    + simpl in Hs2. rewrite HLid in Hs2. injection Hs2 as <- <-.
      rewrite HLother in Hs1 by by apply Hother.
      pose proof (Hfresh l1 n1 s1 Hl1 Hn1 Hs1). set_solver.
    + rewrite HLother in Hs1, Hs2 by by apply Hother.
      by eapply (li_disj _ _ _ _ _ _ _ _ _ Hinv Hdisj l1 l2).
Qed.

Lemma step_missing i rem ids w rem' ids' w' :
  1 ≤ i ≤ m →
  loop_inv self (list_to_set d) R0 CL m (i - 1) rem ids w →
  name_dict CL !! canon self i = None →
  reconcile_index self d (name_dict CL) i (rem, ids) w = (Ok (rem', ids'), w') →
  loop_inv self (list_to_set d) R0 CL m i rem' ids' w'.
Proof.
  intros Hi Hinv Hdict Hrun.
  set (D := list_to_set d : gset string) in *.
  assert (∀ l, l ∈ cache_lists (mem w) → lst_name l ≠ canon self i) as Hfree.
  { intros l Hl Hname.
    assert (l ∈ CL) as Hcl
      by (eapply (inv_pending_old self D R0 CL m (i - 1)); eauto; lia).
    by eapply name_dict_None. }
  assert (len ids < MAX_LISTS) as Hlen
    by (pose proof (li_len _ _ _ _ _ _ _ _ _ Hinv); lia).
  destruct (li_rem _ _ _ _ _ _ _ _ _ Hinv) as [HremD Hrem0].
  destruct (missing_effect self d (name_dict CL) i rem ids w rem' ids' w' Hdict Hlen Hrun)
    as [(Hrem & -> & -> & ->)|(Hrem & Hrem' & Hids' & HL' & Hrules' & Hret' & Hdisk' & HC'
                               & HCr' & HM')].
  - (* nothing remains: nothing happens *)
    constructor; try apply Hinv.
    + intros l Hl.
      destruct (li_lists _ _ _ _ _ _ _ _ _ Hinv l Hl) as (j & Hj & Hn & Hst).
      exists j. split; [done|]. split; [done|].
      assert (j ≠ i) by (intros ->; by eapply Hfree).
      destruct (decide (j ≤ i - 1)).
      * by rewrite decide_True by lia.
      * by rewrite decide_False by lia.
    + intros id Hin.
      destruct (li_ids _ _ _ _ _ _ _ _ _ Hinv id Hin) as (l & j & ? & ? & ? & ?).
      exists l, j. split_and!; try done; lia.
    + pose proof (li_len _ _ _ _ _ _ _ _ _ Hinv). lia.
    + intros Hne. done.
  - (* a list is created *)
    set (new := seed rem) in *.
    set (id := Api.fresh_id (remote w)) in *.
    set (l0 := Lst id (canon self i)) in *.
    assert (id ∉ dom (st_lists (remote w)) ∪ st_retired (remote w)) as Hfresh.
    { pose proof (is_fresh (dom (st_lists (remote w)) ∪ dom (st_rules (remote w))
                            ∪ st_retired (remote w))) as Hf.
      fold (Api.fresh_id (remote w)) in Hf. fold id in Hf. set_solver. }
    assert (∀ l, l ∈ cache_lists (mem w) → lst_id l ≠ id) as Hother.
    { intros l Hl Heq. apply Hfresh. rewrite <- Heq.
      by apply (li_known _ _ _ _ _ _ _ _ _ Hinv). }
    assert (l0 ∉ cache_lists (mem w)) as Hl0 by (intros Hin; by apply (Hother l0 Hin)).
    assert (list_to_set new ⊆ rem) as Hnew by apply seed_subseteq.
    assert (rem' ⊆ rem) as Hsub' by (rewrite Hrem'; set_solver).
    assert (∀ id', id' ≠ id → st_lists (remote w') !! id' = st_lists (remote w) !! id')
      as HLother by (intros id' Hne; by rewrite HL', lookup_insert_ne).
    assert (∀ id', id' ≠ id → cache_mapping (mem w') !! id' = cache_mapping (mem w) !! id')
      as HMother by (intros id' Hne; by rewrite HM', lookup_insert_ne).
    assert (st_lists (remote w') !! id = Some (canon self i, list_to_set new)) as HLid
      by (by rewrite HL', lookup_insert_eq).
    assert (settled D R0 CL rem' ids' w' l0) as Hset0.
    { exists (list_to_set new), new. simpl. split_and!; try done.
      - set_solver.
      - apply seed_size.
      - by rewrite HM', lookup_insert_eq.
      - rewrite Hids'. set_solver.
      - intros Hne. apply seed_full. rewrite Hrem' in Hne. exact Hne.
      - rewrite Hrem'. set_solver.
      - intros Hcl. exfalso. apply Hl0. by apply (li_old _ _ _ _ _ _ _ _ _ Hinv). }
    constructor.
    + (* li_lists *)
      rewrite HC'. intros l [Hl|Hl%list_elem_of_singleton]%elem_of_app.
      * destruct (li_lists _ _ _ _ _ _ _ _ _ Hinv l Hl) as (j & Hj & Hn & Hst).
        exists j. split; [done|]. split; [done|].
        assert (j ≠ i) by (intros ->; by eapply Hfree).
        specialize (Hother l Hl).
        destruct (decide (j ≤ i - 1)).
        -- rewrite decide_True by lia.
           eapply settled_frame; eauto. rewrite Hids'. set_solver.
        -- rewrite decide_False by lia. eapply pending_frame; eauto.
      * subst l. exists i. split; [lia|]. split; [done|]. by rewrite decide_True by lia.
    + (* li_name_inj *)
      rewrite HC'. intros l1 l2 [H1|H1%list_elem_of_singleton]%elem_of_app
                                [H2|H2%list_elem_of_singleton]%elem_of_app Hn.
      * by apply (li_name_inj _ _ _ _ _ _ _ _ _ Hinv).
      * subst l2. exfalso. by eapply Hfree.
      * subst l1. exfalso. by eapply (Hfree l2).
      * by subst.
    + (* li_id_inj *)
      rewrite HC'. intros l1 l2 [H1|H1%list_elem_of_singleton]%elem_of_app
                                [H2|H2%list_elem_of_singleton]%elem_of_app Hn.
      * by apply (li_id_inj _ _ _ _ _ _ _ _ _ Hinv).
      * subst l2. exfalso. by eapply Hother.
      * subst l1. exfalso. by eapply (Hother l2).
      * by subst.
    + rewrite HC'. intros l Hl. apply elem_of_app. left.
      by apply (li_old _ _ _ _ _ _ _ _ _ Hinv).
    + (* li_ids *)
      rewrite HC', Hids'. intros id' [Hin|Hin%list_elem_of_singleton]%elem_of_app.
      * destruct (li_ids _ _ _ _ _ _ _ _ _ Hinv id' Hin) as (l & j & ? & ? & ? & ?).
        exists l, j. split_and!; try done; first [lia|set_solver].
      * subst id'. exists l0, i. split_and!; try done; first [lia|set_solver].
    + rewrite Hids', len_app. pose proof (li_len _ _ _ _ _ _ _ _ _ Hinv).
      unfold len at 2. simpl. lia.
    + split; [set_solver|]. intros l nm it1 Hl HR1. specialize (Hrem0 l nm it1 Hl HR1).
      set_solver.
    + (* li_cover *)
      rewrite HC'. intros x Hx.
      destruct (li_cover _ _ _ _ _ _ _ _ _ Hinv x Hx) as [Hr|[Hold|(l & s & Hl & Hs & Hxs)]].
      * destruct (decide (x ∈ new)) as [Hxn|Hxn].
        -- right. right. exists l0, (list_to_set new). split_and!; try done; set_solver.
        -- left. rewrite Hrem'. set_solver.
      * by right; left.
      * right. right. exists l, s. split_and!; try done; [set_solver|].
        by rewrite HLother by by apply Hother.
    + (* li_managed *)
      rewrite HC'. intros id' name' s Hs Hmg. destruct (decide (id' = id)) as [->|Hne].
      * rewrite HLid in Hs. injection Hs as <- <-. set_solver.
      * rewrite HLother in Hs by done. apply elem_of_app. left.
        by eapply (li_managed _ _ _ _ _ _ _ _ _ Hinv).
    + (* li_occupied *)
      rewrite HC'. intros Hne j Hj. destruct (decide (j = i)) as [->|Hji].
      * exists l0. split; [set_solver|done].
      * destruct (li_occupied _ _ _ _ _ _ _ _ _ Hinv) with (j := j) as (l & ? & ?);
          [set_solver|lia|].
        exists l. split; [set_solver|done].
    + (* li_known *)
      rewrite HC', Hret', HL', dom_insert_L.
      intros l [Hl|Hl%list_elem_of_singleton]%elem_of_app.
      * pose proof (li_known _ _ _ _ _ _ _ _ _ Hinv l Hl). set_solver.
      * subst l. simpl. set_solver.
    + (* li_disj *)
      rewrite HC'. intros Hdisj l1 l2 n1 n2 s1 s2 Hl1 Hl2 Hne Hs1 Hs2.
      assert (∀ l n s, l ∈ cache_lists (mem w) →
                st_lists (remote w) !! lst_id l = Some (n, s) → list_to_set new ## s)
        as Hfr.
      { intros l n s Hl Hs.
        pose proof (inv_rem_disjoint self D R0 CL m (i - 1) rem ids w Hinv l n s Hl Hs).
        set_solver. }
      apply elem_of_app in Hl1 as [Hl1|Hl1%list_elem_of_singleton];
      apply elem_of_app in Hl2 as [Hl2|Hl2%list_elem_of_singleton].
      * rewrite HLother in Hs1, Hs2 by by apply Hother.
        by eapply (li_disj _ _ _ _ _ _ _ _ _ Hinv Hdisj l1 l2).
      * subst l2. simpl in Hs2. rewrite HLid in Hs2. injection Hs2 as <- <-.
        rewrite HLother in Hs1 by by apply Hother.
        pose proof (Hfr l1 n1 s1 Hl1 Hs1). set_solver.
      * subst l1. simpl in Hs1. rewrite HLid in Hs1. injection Hs1 as <- <-.
        rewrite HLother in Hs2 by by apply Hother.
        by apply (Hfr l2 n2 s2).
      * by subst.
Qed.
End step.

(** ** The loop over the indexes *)

Section loop.
Context `{PySetOrder} (self : CloudflareManager) (d : list Domain) (R0 : lists_map)
        (CL : list lst) (m : Z).
Hypothesis Hgood : good_lists self R0.
Hypothesis Hm : m ≤ MAX_LISTS.

Lemma step_index i rem ids w rem' ids' w' :
  1 ≤ i ≤ m →
  loop_inv self (list_to_set d) R0 CL m (i - 1) rem ids w →
  reconcile_index self d (name_dict CL) i (rem, ids) w = (Ok (rem', ids'), w') →
  loop_inv self (list_to_set d) R0 CL m i rem' ids' w'.
Proof.
  intros Hi Hinv Hrun. destruct (name_dict CL !! canon self i) as [id|] eqn:Hdict.
  - by eapply step_existing.
  - by eapply step_missing.
Qed.

Lemma loop_indexes (n : nat) : ∀ k rem ids w rem' ids' w',
  0 ≤ k → k + Z.of_nat n ≤ m →
  loop_inv self (list_to_set d) R0 CL m k rem ids w →
  foldM (reconcile_index self d (name_dict CL)) (seqZ (k + 1) (Z.of_nat n)) (rem, ids) w
    = (Ok (rem', ids'), w') →
  loop_inv self (list_to_set d) R0 CL m (k + Z.of_nat n) rem' ids' w'.
Proof.
  induction n as [|n IH]; intros k rem ids w rem' ids' w' Hk Hkn Hinv Hrun.
  - simpl in Hrun. injection Hrun as <- <- <-. by rewrite Z.add_0_r.
  - rewrite seqZ_cons in Hrun by lia. cbn [foldM] in Hrun.
    inv_bind Hrun. destruct a as [rem1 ids1].
    apply step_index in Hrun0; [|lia|by replace (k + 1 - 1) with k by lia].
    replace (Z.succ (k + 1)) with ((k + 1) + 1) in Hrun by lia.
    replace (Z.pred (Z.of_nat (S n))) with (Z.of_nat n) in Hrun by lia.
    apply IH in Hrun; [|lia|lia|done].
    by replace (k + Z.of_nat (S n)) with (k + 1 + Z.of_nat n) by lia.
Qed.
End loop.

(** ** The indexes of the existing lists *)

Lemma elem_of_dict_keys names : ∀ seen x,
  x ∈ dict_keys seen names ↔ x ∈ names ∧ x ∉ seen.
Proof.
  induction names as [|n names IH]; intros seen x; simpl.
  - rewrite !elem_of_nil. tauto.
  - destruct (bool_decide (n ∈ seen)) eqn:Hn.
    + apply bool_decide_eq_true in Hn. rewrite IH, elem_of_cons. split.
      * intros [? ?]. split; [by right|done].
      * intros [[->|?] ?]; [done|by split].
    + apply bool_decide_eq_false in Hn. rewrite !elem_of_cons, IH. split.
      * intros [->|[? ?]]; [by split; [left|]|]. split; [by right|set_solver].
      * intros [[->|?] ?]; [by left|]. destruct (decide (x = n)) as [->|?]; [by left|].
        right. split; [done|set_solver].
Qed.

Lemma parse_indexes_Ok names w parsed :
  mapM (λ n, Py.int (Py.split_last "-" n)) names = Some parsed →
  parse_indexes names w = (Ok parsed, w).
Proof.
  revert parsed. induction names as [|n names IH]; intros parsed.
  - by intros [= <-].
  - cbn [parse_indexes mapM]. unfold mbind at 1, option_bind at 1.
    destruct (Py.int (Py.split_last "-" n)) as [j|]; [|done].
    destruct (mapM _ names) as [later|]; [|done].
    intros [= <-]. unfold_M. by rewrite (IH later).
Qed.

Lemma parse_indexes_bad names w :
  (∃ n, n ∈ names ∧ Py.int (Py.split_last "-" n) = None) →
  ∃ n, n ∈ names ∧ Py.int (Py.split_last "-" n) = None ∧
       parse_indexes names w = (Raise (ValueError (Py.split_last "-" n)), w).
Proof.
  induction names as [|n names IH]; intros (bad & Hin & Hbad).
  - by apply elem_of_nil in Hin.
  - cbn [parse_indexes].
    destruct (Py.int (Py.split_last "-" n)) as [j|] eqn:Hn.
    + apply elem_of_cons in Hin as [->|Hin]; [congruence|].
      destruct IH as (n' & Hin' & Hbad' & Hrun); [by exists bad|].
      exists n'. split; [by apply list_elem_of_further|]. split; [done|].
      unfold_M. by rewrite Hrun.
    + exists n. split; [apply list_elem_of_here|]. done.
Qed.

Lemma max_of_ge (l : list Z) x : x ∈ l → x ≤ max_of l.
Proof.
  induction l as [|y l IH]; [by intros ?%elem_of_nil|].
  intros [->|Hin]%elem_of_cons; simpl; [lia|]. specialize (IH Hin). lia.
Qed.

Lemma max_of_nonneg (l : list Z) : 0 ≤ max_of l.
Proof. induction l; simpl; lia. Qed.

Lemma max_index_of_bounds parsed needed :
  0 ≤ needed →
  0 ≤ max_index_of parsed needed ≤ MAX_LISTS ∧
  Z.min needed MAX_LISTS ≤ max_index_of parsed needed ∧
  ∀ j, j ∈ parsed → j ≤ MAX_LISTS → j ≤ max_index_of parsed needed.
Proof.
  intros Hn. unfold max_index_of.
  pose proof (merge_sort_Permutation Z.le parsed) as Hperm.
  destruct (merge_sort Z.le parsed) as [|s ss] eqn:Hsort.
  - apply Permutation_nil_l in Hperm. subst parsed. unfold MAX_LISTS. split_and!; try lia.
    intros j Hj. by apply elem_of_nil in Hj.
  - set (l := ((s :: ss) ++ [needed])%list).
    pose proof (max_of_nonneg l). unfold MAX_LISTS.
    assert (needed ≤ max_of l) by (apply max_of_ge; unfold l; set_solver).
    split_and!; try lia.
    intros j Hj Hjm. assert (j ≤ max_of l); [|lia].
    apply max_of_ge. unfold l. rewrite <- Hperm in Hj. set_solver.
Qed.

Lemma reconcile_lists_eq `{PySetOrder} self d cl rem w :
  reconcile_lists self d cl rem w =
  (parsed ← parse_indexes (dict_keys ∅ (lst_name <$> cl));
   foldM (reconcile_index self d (name_dict cl))
         (seqZ 1 (max_index_of parsed ((len d + 999) `div` 1000))) (rem, [])) w.
Proof. done. Qed.

(** ** From the inventory to the end of the loop *)

Section entry.
Context `{PySetOrder} (self : CloudflareManager) (d : list Domain) (R0 : lists_map)
        (CL : list lst) (rem : gset Domain) (w : world).
Hypothesis Hentry : loop_entry self (list_to_set d) R0 CL rem w.

Lemma entry_canon l :
  l ∈ CL → ∃ j it0, 1 ≤ j ≤ MAX_LISTS ∧ lst_name l = canon self j ∧
                    R0 !! lst_id l = Some (lst_name l, it0).
Proof.
  intros Hl. destruct (le_lists _ _ _ _ _ _ Hentry l Hl) as (Hmg & _ & it0 & its & HR0 & _).
  destruct (gl_canon _ _ (le_good _ _ _ _ _ _ Hentry) _ _ _ HR0 Hmg) as (j & Hj & Hn).
  by exists j, it0.
Qed.

Lemma entry_name_inj l1 l2 : l1 ∈ CL → l2 ∈ CL → lst_name l1 = lst_name l2 → l1 = l2.
Proof.
  intros H1 H2 Hn.
  destruct (le_lists _ _ _ _ _ _ Hentry l1 H1) as (Hmg1 & _ & it1 & ? & HR1 & _).
  destruct (le_lists _ _ _ _ _ _ Hentry l2 H2) as (Hmg2 & _ & it2 & ? & HR2 & _).
  rewrite <- Hn in HR2.
  pose proof (gl_names _ _ (le_good _ _ _ _ _ _ Hentry) _ _ _ _ _ HR1 HR2 Hmg1) as Hid.
  destruct l1, l2; simpl in *; congruence.
Qed.

Lemma entry_id_inj l1 l2 : l1 ∈ CL → l2 ∈ CL → lst_id l1 = lst_id l2 → l1 = l2.
Proof.
  intros H1 H2 Hid.
  destruct (le_lists _ _ _ _ _ _ Hentry l1 H1) as (_ & _ & it1 & ? & HR1 & _).
  destruct (le_lists _ _ _ _ _ _ Hentry l2 H2) as (_ & _ & it2 & ? & HR2 & _).
  rewrite <- Hid, HR1 in HR2. destruct l1, l2; simpl in *; congruence.
Qed.

Lemma entry_parse :
  ∃ parsed,
    mapM (λ n, Py.int (Py.split_last "-" n)) (dict_keys ∅ (lst_name <$> CL)) = Some parsed ∧
    ∀ l j, l ∈ CL → lst_name l = canon self j → 1 ≤ j ≤ MAX_LISTS → j ∈ parsed.
Proof.
  assert (is_Some (mapM (λ n, Py.int (Py.split_last "-" n))
                        (dict_keys ∅ (lst_name <$> CL)))) as [parsed Hp].
  { apply mapM_is_Some, Forall_forall. intros n [Hn _]%elem_of_dict_keys.
    apply list_elem_of_fmap in Hn as (l & -> & Hl).
    destruct (entry_canon l Hl) as (j & it0 & Hj & Hn & _).
    exists j. cbv beta. rewrite Hn. by apply canon_parse. }
  exists parsed. split; [done|]. intros l j Hl Hn Hj.
  apply mapM_Some in Hp.
  assert (lst_name l ∈ dict_keys ∅ (lst_name <$> CL)) as Hk.
  { apply elem_of_dict_keys. split; [|set_solver]. apply list_elem_of_fmap. eauto. }
  apply list_elem_of_lookup_1 in Hk as [ix Hix].
  destruct (Forall2_lookup_l _ _ _ _ _ Hp Hix) as (j' & Hj' & Hparse).
  rewrite Hn, canon_parse in Hparse by done. injection Hparse as <-.
  by eapply list_elem_of_lookup_2.
Qed.

Lemma entry_inv m :
  (∀ l j, l ∈ CL → lst_name l = canon self j → 1 ≤ j ≤ MAX_LISTS → j ≤ m) →
  loop_inv self (list_to_set d) R0 CL m 0 rem [] w.
Proof.
  intros Hrange. pose proof (le_cache _ _ _ _ _ _ Hentry) as HC.
  constructor; rewrite ?HC.
  - intros l Hl. destruct (entry_canon l Hl) as (j & it0 & Hj & Hn & _).
    exists j. split; [split; [lia|by eapply Hrange]|]. split; [done|].
    rewrite decide_False by lia. by apply (le_lists _ _ _ _ _ _ Hentry).
  - apply entry_name_inj.
  - apply entry_id_inj.
  - done.
  - intros id Hid. by apply elem_of_nil in Hid.
  - unfold len. simpl. lia.
  - split.
    + intros x Hx. by apply (le_rem _ _ _ _ _ _ Hentry) in Hx as [? _].
    + intros l nm it0 Hl HR0. apply elem_of_disjoint. intros x Hx Hit.
      apply (le_rem _ _ _ _ _ _ Hentry) in Hx as [_ Hno]. by eapply Hno.
  - intros x Hx.
    destruct (decide (Exists (λ l, x ∈ default ∅ (snd <$> R0 !! lst_id l)) CL)) as [Hex|Hno].
    + right. left. apply Exists_exists in Hex as (l & Hl & Hin).
      destruct (R0 !! lst_id l) as [[nm it0]|] eqn:HR0; simpl in Hin; [|set_solver].
      by exists l, nm, it0.
    + left. apply (le_rem _ _ _ _ _ _ Hentry). split; [done|].
      intros l nm it0 Hl HR0 Hin. apply Hno, Exists_exists. exists l. split; [done|].
      by rewrite HR0.
  - intros id name items Hl Hmg. by eapply (le_all _ _ _ _ _ _ Hentry).
  - intros _ j Hj. lia.
  - intros l Hl. apply (le_known _ _ _ _ _ _ Hentry).
    destruct (entry_canon l Hl) as (j & it0 & _ & _ & HR0).
    apply elem_of_dom. by eexists.
  - intros Hdisj l1 l2 n1 n2 s1 s2 Hl1 Hl2 Hne Hs1 Hs2.
    apply (le_sub _ _ _ _ _ _ Hentry) in Hs1, Hs2.
    destruct (entry_canon l1 Hl1) as (j1 & it1 & _ & _ & HR1).
    destruct (entry_canon l2 Hl2) as (j2 & it2 & _ & _ & HR2).
    rewrite Hs1 in HR1. rewrite Hs2 in HR2. injection HR1 as -> ->. injection HR2 as -> ->.
    eapply (Hdisj (lst_id l1) (lst_id l2)); eauto.
    + by apply (le_lists _ _ _ _ _ _ Hentry).
    + by apply (le_lists _ _ _ _ _ _ Hentry).
    + intros Hid. by apply Hne, entry_id_inj.
Qed.

(** The third stage of a pass, when it gets through. *)
Lemma reconcile_lists_ok rem' ids' w' :
  reconcile_lists self d CL rem w = (Ok (rem', ids'), w') →
  ∃ m, 0 ≤ m ≤ MAX_LISTS ∧
       Z.min ((len d + 999) `div` 1000) MAX_LISTS ≤ m ∧
       loop_inv self (list_to_set d) R0 CL m m rem' ids' w'.
Proof.
  rewrite reconcile_lists_eq. destruct entry_parse as (parsed & Hparse & Hin).
  unfold mbind at 1, M_bind at 1. rewrite (parse_indexes_Ok _ _ _ Hparse).
  set (m := max_index_of parsed ((len d + 999) `div` 1000)).
  assert (0 ≤ (len d + 999) `div` 1000) as Hneeded
    by (apply Z.div_pos; [pose proof (len_nonneg d)|]; lia).
  destruct (max_index_of_bounds parsed _ Hneeded) as (Hm & Hmin & Hmax). fold m in Hm, Hmin, Hmax.
  intros Hrun. exists m. split; [done|]. split; [done|].
  replace (seqZ 1 m) with (seqZ (0 + 1) (Z.of_nat (Z.to_nat m))) in Hrun
    by (f_equal; lia).
  eapply (loop_indexes self d R0 CL m) in Hrun.
  - by replace (0 + Z.of_nat (Z.to_nat m)) with m in Hrun by lia.
  - apply (le_good _ _ _ _ _ _ Hentry).
  - lia.
  - lia.
  - lia.
  - apply entry_inv. intros l j Hl Hn Hj. apply Hmax; [by eapply Hin|lia].
Qed.
End entry.

(** ** The stages of a pass *)

Lemma pass_after_inventory `{PySetOrder} self d w rules count w1 cl rem w2 :
  len d ≤ MAX_LISTS * 1000 →
  reclaim_orphans self w = (Ok (rules, count), w1) →
  count < MAX_LISTS →
  take_inventory self d w1 = (Ok (cl, rem), w2) →
  update_resources self d w =
  (out ← reconcile_lists self d cl rem; sync_rule self rules out.2) w2.
Proof.
  intros Hd Hreclaim Hcount Hinv. unfold update_resources.
  rewrite (bool_decide_eq_false_2 (300000 < len d)) by (unfold MAX_LISTS in Hd; lia).
  rewrite (bool_decide_eq_false_2 (MAX_LISTS * 1000 < len d)) by lia.
  unfold mbind, M_bind, mret, M_ret. cbv beta iota. rewrite Hreclaim. cbv beta iota.
  rewrite (bool_decide_eq_false_2 (MAX_LISTS ≤ count)) by lia.
  rewrite Hinv. cbv beta iota.
  by destruct (reconcile_lists self d cl rem w2) as [[[rem' ids]|e] w3].
Qed.

Lemma pass_Ok `{PySetOrder} self d w u w' :
  update_resources self d w = (Ok u, w') →
  len d ≤ MAX_LISTS * 1000 ∧
  ∃ rules count w1 cl rem w2 rem' ids w3,
    reclaim_orphans self w = (Ok (rules, count), w1) ∧
    count < MAX_LISTS ∧
    take_inventory self d w1 = (Ok (cl, rem), w2) ∧
    reconcile_lists self d cl rem w2 = (Ok (rem', ids), w3) ∧
    sync_rule self rules ids w3 = (Ok u, w').
Proof.
  unfold update_resources. intros Hrun.
  destruct (bool_decide (300000 < len d)) eqn:Hfree.
  { by inv_bind Hrun. }
  destruct (bool_decide (MAX_LISTS * 1000 < len d)) eqn:Hbig.
  { inv_bind Hrun. injection Hrun0 as <- <-. by inv_bind Hrun. }
  apply bool_decide_eq_false in Hbig. split; [lia|].
  inv_bind Hrun. injection Hrun0 as <- <-.
  inv_bind Hrun. injection Hrun0 as <- <-.
  inv_bind Hrun. destruct a as [rules count].
  destruct (bool_decide (MAX_LISTS ≤ count)) eqn:Hgate.
  { by inv_bind Hrun. }
  apply bool_decide_eq_false in Hgate.
  inv_bind Hrun. injection Hrun1 as <- <-.
  inv_bind Hrun. destruct a as [cl rem].
  inv_bind Hrun. destruct a as [rem' ids].
  exists rules, count, w0, cl, rem, w1, rem', ids, w2. split_and!; try done. lia.
Qed.

(** ** C10: the indexes read off the names *)

(** X5 (on the subject of claim C10).  The step that reads the indexes off
    the names of the lists is partial.  When a pass within capacity gets as
    far as its inventory, the names of the lists of the inventory are ASCII,
    and one of them does not end, after its last hyphen, with a decimal
    number, the pass stops there with the [ValueError] of [int], raised
    for a text that does not read as a number: it neither returns nor
    reports an error of its own, and it leaves the world as the inventory
    left it. *)
Theorem index_parsing_not_total `{PySetOrder} (self : CloudflareManager)
    (domains_to_block : list Domain) (w : world)
    (current_rules : list rule) (current_list_count : Z) (w1 : world)
    (current_lists : list lst) (remaining_domains : gset Domain) (w2 : world) (l : lst) :
  len domains_to_block ≤ MAX_LISTS * 1000 →
  reclaim_orphans self w = (Ok (current_rules, current_list_count), w1) →
  current_list_count < MAX_LISTS →
  take_inventory self domains_to_block w1 = (Ok (current_lists, remaining_domains), w2) →
  Forall (λ l, ascii_only (lst_name l) = true) current_lists →
  l ∈ current_lists →
  Py.int (Py.split_last "-" (lst_name l)) = None →
  ∃ token,
    update_resources self domains_to_block w = (Raise (ValueError token), w2) ∧
    Py.int token = None ∧
    is_Exception (ValueError token) = true.
Proof.
  intros Hd Hreclaim Hcount Hinv _ Hl Hbad.
  rewrite (pass_after_inventory _ _ _ _ _ _ _ _ _ Hd Hreclaim Hcount Hinv).
  destruct (parse_indexes_bad (dict_keys ∅ (lst_name <$> current_lists)) w2)
    as (n & Hin & Hn & Hrun).
  { exists (lst_name l). split; [|done].
    apply elem_of_dict_keys. split; [|set_solver]. apply list_elem_of_fmap. eauto. }
  exists (Py.split_last "-" n). split; [|done].
  unfold mbind at 1, M_bind at 1. rewrite reconcile_lists_eq.
  unfold mbind, M_bind. by rewrite Hrun.
Qed.

Lemma index_parsing_not_total_witness :
  ∃ w2 token,
    @update_resources elements_order cgp ["a.example"] misnamed_world
      = (Raise (ValueError token), w2) ∧
    token = " old" ∧
    filter (λ e, is_mutation e = true) (trace w2) = [].
Proof.
  destruct (@index_parsing_not_total elements_order cgp ["a.example"] misnamed_world
              [Rule 9%N "[CGP] Block Ads" [7%N]] 1
              (set_mem (Cache [] [Rule 9%N "[CGP] Block Ads" [7%N]] ∅)
                       (tick (tick misnamed_world)))
              [Lst 7%N "[CGP] - old"] ∅
              (with_mapping 7%N ["a.example"]
                 (tick (set_mem (Cache [Lst 7%N "[CGP] - old"] [Rule 9%N "[CGP] Block Ads" [7%N]] ∅)
                                (tick (tick (tick misnamed_world))))))
              (Lst 7%N "[CGP] - old"))
    as (token & Hrun & Hint & _).
  - by vm_compute.
  - by vm_compute.
  - by vm_compute.
  - by vm_compute.
  - by apply Forall_singleton.
  - by apply list_elem_of_here.
  - by vm_compute.
  - eexists _, token. split; [exact Hrun|]. split; [|by vm_compute].
    assert (@update_resources elements_order cgp ["a.example"] misnamed_world
            = (Raise (ValueError " old"), 
               with_mapping 7%N ["a.example"]
                 (tick (set_mem (Cache [Lst 7%N "[CGP] - old"] [Rule 9%N "[CGP] Block Ads" [7%N]] ∅)
                                (tick (tick (tick misnamed_world))))))) as Hval by by vm_compute.
    rewrite Hval in Hrun. by injection Hrun.
Defined.

(** ** C7: teardown *)

Lemma teardown_rule_eq x w :
  teardown_rule x w =
  let w1 := tick (emit (rule_request x) w) in
  if fails w then (connection_failed, w1)
  else match st_rules (remote w) !! r_id x with
       | None => (Raise (HTTPException Api.no_such_resource), w1)
       | Some _ =>
           let c := Cache (cache_lists (mem w)) [] (cache_mapping (mem w)) in
           (Ok (), World (drop_rule (r_id x) (remote w)) (faults w1) c c
                     (trace w ++ [rule_request x; EvInfo (DeletedRule (r_name x)); EvSaveCache c]))
       end.
Proof.
  unfold teardown_rule. unfold mbind at 1, M_bind at 1. rewrite delete_rule_eq. cbn zeta.
  destruct (fails w); [done|]. destruct (st_rules (remote w) !! r_id x); [|done].
  unfold_M. unfold emit, set_disk, set_mem, set_remote, rule_request. simpl.
  by rewrite <- !app_assoc.
Qed.

Lemma teardown_list_eq l w :
  teardown_list l w =
  let w1 := tick (emit (list_request l) w) in
  if fails w then (connection_failed, w1)
  else match st_lists (remote w) !! lst_id l with
       | None => (Raise (HTTPException Api.no_such_resource), w1)
       | Some _ =>
           let c := Cache (filter (λ item, lst_id item ≠ lst_id l) (cache_lists (mem w)))
                          (cache_rules (mem w)) (delete (lst_id l) (cache_mapping (mem w))) in
           (Ok (), World (drop_list (lst_id l) (remote w)) (faults w1) c c
                     (trace w ++ [list_request l; EvInfo (DeletedList (lst_name l)); EvSaveCache c]))
       end.
Proof.
  unfold teardown_list. unfold mbind at 1, M_bind at 1. rewrite delete_list_eq. cbn zeta.
  destruct (fails w); [done|]. destruct (st_lists (remote w) !! lst_id l); [|done].
  unfold_M. unfold emit, set_disk, set_mem, set_remote, list_request. simpl.
  by rewrite <- !app_assoc.
Qed.

Lemma foldM_preserves {X} (step : X → M unit) (Q : world → Prop) :
  (∀ y w r w1, Q w → step y w = (r, w1) → Q w1) →
  ∀ xs w r w', Q w → foldM (λ x _, step x) xs () w = (r, w') → Q w'.
Proof.
  intros Hstep. induction xs as [|x xs IH]; intros w r w' HQ Hrun.
  - by injection Hrun as <- <-.
  - cbn [foldM] in Hrun. inv_bind Hrun; [by eapply Hstep|].
    destruct a. eapply IH; [|exact Hrun]. by eapply Hstep.
Qed.

(** A loop of deletions: each turn sends one request, and on success
    logs it and saves the cache. *)
Section deletions.
Context {X : Type} (step : X → M unit) (inj : X → target).
Hypothesis step_spec : ∀ x w r w1, step x w = (r, w1) →
  (∃ e, r = Raise e ∧ is_http e ∧ trace w1 = (trace w ++ [target_request (inj x)])%list) ∨
  (r = Ok () ∧ trace w1 = (trace w ++ completed (inj x) (mem w1))%list).

Lemma deletions_spec xs : ∀ w r w',
  foldM (λ x _, step x) xs () w = (r, w') →
  ∃ done saved, List.length saved = List.length done ∧
    match r with
    | Ok _ =>
        done = xs ∧
        trace w' = (trace w ++ mjoin (zip_with completed (inj <$> done) saved))%list ∧
        (xs ≠ [] → last saved = Some (mem w')) ∧ (xs = [] → w' = w)
    | Raise e =>
        is_http e ∧
        ∃ x, (done ++ [x])%list `prefix_of` xs ∧
             trace w' = (trace w ++ mjoin (zip_with completed (inj <$> done) saved)
                                 ++ [target_request (inj x)])%list
    end.
Proof.
  induction xs as [|x xs IH]; intros w r w' Hrun.
  - injection Hrun as <- <-. exists [], []. simpl. rewrite app_nil_r. by split_and!.
  - cbn [foldM] in Hrun. apply bind_inv in Hrun as [(e & Hrun & ->)|(a & w1 & Hrun & Hrest)].
    + destruct (step_spec _ _ _ _ Hrun) as [(e' & [= <-] & He & Htr)|(? & _)]; [|done].
      exists [], []. split; [done|]. split; [done|]. exists x.
      split; [apply prefix_cons, prefix_nil|done].
    + destruct a.
      destruct (step_spec _ _ _ _ Hrun) as [(e' & ? & _)|(_ & Htr)]; [done|].
      destruct (IH _ _ _ Hrest) as (done & saved & Hlen & Hres).
      exists (x :: done), (mem w1 :: saved). split; [simpl; by rewrite Hlen|].
      destruct r as [u|e].
      * destruct Hres as (-> & Htr' & Hlast & Hnil). split; [done|].
        split. { rewrite Htr', Htr. simpl. by rewrite <- !app_assoc. }
        split; [|done]. intros _. destruct xs as [|y ys].
        -- rewrite (Hnil eq_refl). by destruct saved.
        -- apply last_further. by apply Hlast.
      * destruct Hres as (He & y & Hpre & Htr'). split; [done|]. exists y.
        split; [by apply prefix_cons|]. rewrite Htr', Htr. simpl. by rewrite <- !app_assoc.
Qed.
End deletions.

Lemma teardown_rule_spec x w r w1 :
  teardown_rule x w = (r, w1) →
  (∃ e, r = Raise e ∧ is_http e ∧ trace w1 = (trace w ++ [target_request (TRule x)])%list) ∨
  (r = Ok () ∧ trace w1 = (trace w ++ completed (TRule x) (mem w1))%list).
Proof.
  rewrite teardown_rule_eq. cbn zeta. destruct (fails w).
  { intros [= <- <-]. left. eexists. split; [done|]. split; [by eexists|done]. }
  destruct (st_rules (remote w) !! r_id x).
  - intros [= <- <-]. by right.
  - intros [= <- <-]. left. eexists. split; [done|]. split; [by eexists|done].
Qed.

Lemma teardown_list_spec x w r w1 :
  teardown_list x w = (r, w1) →
  (∃ e, r = Raise e ∧ is_http e ∧ trace w1 = (trace w ++ [target_request (TList x)])%list) ∨
  (r = Ok () ∧ trace w1 = (trace w ++ completed (TList x) (mem w1))%list).
Proof.
  rewrite teardown_list_eq. cbn zeta. destruct (fails w).
  { intros [= <- <-]. left. eexists. split; [done|]. split; [by eexists|done]. }
  destruct (st_lists (remote w) !! lst_id x).
  - intros [= <- <-]. by right.
  - intros [= <- <-]. left. eexists. split; [done|]. split; [by eexists|done].
Qed.

Lemma teardown_rule_frame x w r w1 :
  teardown_rule x w = (r, w1) →
  st_lists (remote w1) = st_lists (remote w) ∧
  (∀ id, st_rules (remote w) !! id = None → st_rules (remote w1) !! id = None) ∧
  (r = Ok () → st_rules (remote w1) !! r_id x = None).
Proof.
  rewrite teardown_rule_eq. cbn zeta. destruct (fails w); [by intros [= <- <-]|].
  destruct (st_rules (remote w) !! r_id x) eqn:Hx; intros [= <- <-]; [|done].
  simpl. split; [done|]. split; [|by rewrite lookup_delete_eq].
  intros id Hid. destruct (decide (id = r_id x)) as [->|Hne];
    [by rewrite lookup_delete_eq|by rewrite lookup_delete_ne].
Qed.

Lemma teardown_list_frame x w r w1 :
  teardown_list x w = (r, w1) →
  st_rules (remote w1) = st_rules (remote w) ∧
  (∀ id, st_lists (remote w) !! id = None → st_lists (remote w1) !! id = None) ∧
  (r = Ok () → st_lists (remote w1) !! lst_id x = None).
Proof.
  rewrite teardown_list_eq. cbn zeta. destruct (fails w); [by intros [= <- <-]|].
  destruct (st_lists (remote w) !! lst_id x) eqn:Hx; intros [= <- <-]; [|done].
  simpl. split; [done|]. split; [|by rewrite lookup_delete_eq].
  intros id Hid. destruct (decide (id = lst_id x)) as [->|Hne];
    [by rewrite lookup_delete_eq|by rewrite lookup_delete_ne].
Qed.

Lemma rules_gone cr : ∀ w w',
  foldM (λ x _, teardown_rule x) cr () w = (Ok (), w') →
  ∀ x, x ∈ cr → st_rules (remote w') !! r_id x = None.
Proof.
  induction cr as [|y cr IH]; intros w w' Hrun x Hx; [by apply elem_of_nil in Hx|].
  cbn [foldM] in Hrun. inv_bind Hrun. destruct a.
  apply elem_of_cons in Hx as [->|Hx]; [|by eapply IH].
  eapply (foldM_preserves teardown_rule (λ w, st_rules (remote w) !! r_id y = None));
    [| |exact Hrun].
  - intros z v r v1 HQ Hstep. by apply (teardown_rule_frame _ _ _ _ Hstep).
  - by apply (teardown_rule_frame _ _ _ _ Hrun0).
Qed.

Lemma lists_gone cl : ∀ w w',
  foldM (λ x _, teardown_list x) cl () w = (Ok (), w') →
  ∀ x, x ∈ cl → st_lists (remote w') !! lst_id x = None.
Proof.
  induction cl as [|y cl IH]; intros w w' Hrun x Hx; [by apply elem_of_nil in Hx|].
  cbn [foldM] in Hrun. inv_bind Hrun. destruct a.
  apply elem_of_cons in Hx as [->|Hx]; [|by eapply IH].
  eapply (foldM_preserves teardown_list (λ w, st_lists (remote w) !! lst_id y = None));
    [| |exact Hrun].
  - intros z v r v1 HQ Hstep. by apply (teardown_list_frame _ _ _ _ Hstep).
  - by apply (teardown_list_frame _ _ _ _ Hrun0).
Qed.

(** With no failure of transport, rules that exist are all deleted. *)
Lemma rules_deleted cr : ∀ w,
  faults w = [] → NoDup (r_id <$> cr) →
  (∀ x, x ∈ cr → is_Some (st_rules (remote w) !! r_id x)) →
  ∃ w', foldM (λ x _, teardown_rule x) cr () w = (Ok (), w') ∧
        faults w' = [] ∧ st_lists (remote w') = st_lists (remote w).
Proof.
  induction cr as [|y cr IH]; intros w Hf Hnd Hin; [by exists w|].
  rewrite fmap_cons in Hnd. apply NoDup_cons in Hnd as [Hy Hnd].
  cbn [foldM]. unfold mbind, M_bind. rewrite teardown_rule_eq. cbn zeta.
  unfold fails. rewrite Hf. destruct (Hin y) as [v Hv]; [by left|]. rewrite Hv.
  match goal with |- ∃ w', foldM _ _ _ ?w1 = _ ∧ _ => destruct (IH w1) as (w' & Hrun & Hf' & Hl) end.
  - simpl. by rewrite Hf.
  - done.
  - intros x Hx. simpl. rewrite lookup_delete_ne; [apply Hin; by right|].
    intros Heq. apply Hy. rewrite Heq. apply list_elem_of_fmap. eauto.
  - exists w'. by rewrite Hrun, Hf', Hl.
Qed.

Lemma lists_deleted cl : ∀ w,
  faults w = [] → NoDup (lst_id <$> cl) →
  (∀ x, x ∈ cl → is_Some (st_lists (remote w) !! lst_id x)) →
  ∃ w', foldM (λ x _, teardown_list x) cl () w = (Ok (), w').
Proof.
  induction cl as [|y cl IH]; intros w Hf Hnd Hin; [by exists w|].
  rewrite fmap_cons in Hnd. apply NoDup_cons in Hnd as [Hy Hnd].
  cbn [foldM]. unfold mbind, M_bind. rewrite teardown_list_eq. cbn zeta.
  unfold fails. rewrite Hf. destruct (Hin y) as [v Hv]; [by left|]. rewrite Hv.
  match goal with |- ∃ w', foldM _ _ _ ?w1 = _ => destruct (IH w1) as (w' & Hrun) end.
  - simpl. by rewrite Hf.
  - done.
  - intros x Hx. simpl. rewrite lookup_delete_ne; [apply Hin; by right|].
    intros Heq. apply Hy. rewrite Heq. apply list_elem_of_fmap. eauto.
  - by exists w'.
Qed.

Lemma remote_lists_ids p s :
  NoDup (lst_id <$> remote_lists p s) ∧
  ∀ l, l ∈ remote_lists p s → is_Some (st_lists s !! lst_id l).
Proof.
  unfold remote_lists. split.
  - eapply sublist_NoDup; [|apply fmap_sublist, sublist_filter].
    rewrite <- list_fmap_compose. apply (NoDup_fst_map_to_list (st_lists s)).
  - intros l [_ Hl]%list_elem_of_filter. apply list_elem_of_fmap in Hl as ([id v] & -> & Hl).
    apply elem_of_map_to_list in Hl. simpl. by rewrite Hl.
Qed.

Lemma remote_rules_ids p s :
  NoDup (r_id <$> remote_rules p s) ∧
  ∀ x, x ∈ remote_rules p s → is_Some (st_rules s !! r_id x).
Proof.
  unfold remote_rules. split.
  - eapply sublist_NoDup; [|apply fmap_sublist, sublist_filter].
    rewrite <- list_fmap_compose. apply (NoDup_fst_map_to_list (st_rules s)).
  - intros l [_ Hl]%list_elem_of_filter. apply list_elem_of_fmap in Hl as ([id v] & -> & Hl).
    apply elem_of_map_to_list in Hl. simpl. by rewrite Hl.
Qed.

Lemma teardown_fetch key self w :
  delete_resources key self w =
  if bool_decide (cache_lists (mem w) = []) && fails w then (connection_failed, tick w)
  else
    let w1 := if bool_decide (cache_lists (mem w) = [])
              then set_mem (Cache (known_lists self w) (cache_rules (mem w))
                                  (cache_mapping (mem w))) (tick w)
              else w in
    if bool_decide (cache_rules (mem w) = []) && fails w1 then (connection_failed, tick w1)
    else
      let w2 := if bool_decide (cache_rules (mem w) = []) then tick w1 else w1 in
      let sorted := sort_by_key key (known_lists self w) in
      (_ ← foldM (λ x _, teardown_rule x) (known_rules self w) ();
       foldM (λ x _, teardown_list x) sorted ())
        (set_mem (Cache sorted (known_rules self w) (cache_mapping (mem w))) w2).
Proof.
  unfold delete_resources. unfold mbind at 1, M_bind at 1. rewrite get_current_lists_eq.
  unfold known_lists, known_rules.
  destruct (cache_lists (mem w)) as [|l0 ls] eqn:Hcl; simpl bool_decide; cbn [andb].
  - destruct (fails w) eqn:Hf; [done|]. cbn zeta.
    unfold mbind at 1, M_bind at 1. rewrite get_current_rules_eq. simpl cache_rules.
    destruct (cache_rules (mem w)) as [|r0 rs] eqn:Hcr; simpl bool_decide; cbn [andb].
    + change (fails (set_mem _ (tick w))) with (fails (tick w)).
      destruct (fails (tick w)); [done|]. done.
    + done.
  - cbn zeta. unfold mbind at 1, M_bind at 1. rewrite get_current_rules_eq.
    destruct (cache_rules (mem w)) as [|r0 rs] eqn:Hcr; simpl bool_decide; cbn [andb].
    + destruct (fails w); rewrite ?Hcl; done.
    + unfold mbind at 1, M_bind at 1, modify. cbv beta iota. by rewrite Hcr.
Qed.

(** The sort of [delete_resources]: the same lists, by increasing key, and
    lists of equal keys in the order they had. *)
Lemma insert_by_key_Permutation k x l : insert_by_key k x l ≡ₚ x :: l.
Proof.
  induction l as [|y l IH]; [done|]. cbn [insert_by_key].
  destruct (bool_decide (by_key k x y)); [done|]. by rewrite IH, Permutation_swap.
Qed.

Lemma sort_by_key_Permutation k l : sort_by_key k l ≡ₚ l.
Proof.
  induction l as [|x l IH]; [done|]. cbn [sort_by_key foldr].
  fold (sort_by_key k l). by rewrite insert_by_key_Permutation, IH.
Qed.

Lemma insert_by_key_sorted k x l :
  StronglySorted (by_key k) l → StronglySorted (by_key k) (insert_by_key k x l).
Proof.
  induction l as [|y l IH]; intros Hs; cbn [insert_by_key].
  - by repeat constructor.
  - apply StronglySorted_inv in Hs as [Hs Hall].
    destruct (bool_decide (by_key k x y)) eqn:Hxy.
    + apply bool_decide_eq_true in Hxy. constructor; [by constructor|].
      constructor; [done|]. eapply Forall_impl; [exact Hall|].
      unfold by_key in *. intros z Hz. lia.
    + apply bool_decide_eq_false in Hxy. constructor; [by apply IH|].
      rewrite insert_by_key_Permutation. constructor; [|done].
      unfold by_key in *. lia.
Qed.

Lemma sort_by_key_sorted k l : StronglySorted (by_key k) (sort_by_key k l).
Proof.
  induction l as [|x l IH]; [constructor|]. cbn [sort_by_key foldr].
  by apply insert_by_key_sorted.
Qed.

Lemma insert_by_key_stable k x l z :
  filter (λ y, k y = z) (insert_by_key k x l) = filter (λ y, k y = z) (x :: l).
Proof.
  induction l as [|y l IH]; [done|]. cbn [insert_by_key].
  destruct (bool_decide (by_key k x y)) eqn:Hxy; [done|].
  apply bool_decide_eq_false in Hxy. unfold by_key in Hxy.
  rewrite (filter_cons _ y), IH, !(filter_cons _ x), !(filter_cons _ y).
  destruct (decide (k x = z)), (decide (k y = z)); try done. lia.
Qed.

Lemma sort_by_key_stable k l z :
  filter (λ y, k y = z) (sort_by_key k l) = filter (λ y, k y = z) l.
Proof.
  induction l as [|x l IH]; [done|]. cbn [sort_by_key foldr]. fold (sort_by_key k l).
  by rewrite insert_by_key_stable, !(filter_cons _ x), IH.
Qed.

Lemma prefix_fmap {A B} (f : A → B) (l1 l2 : list A) :
  l1 `prefix_of` l2 → (f <$> l1) `prefix_of` (f <$> l2).
Proof. intros [k ->]. exists (f <$> k). by rewrite fmap_app. Qed.

(** X3 (on the subject of claim C7).  [delete_resources] takes the rules it
    knows and then the lists it knows, the lists by increasing key with
    lists of equal keys in the order they had.  For each target in turn it
    requests the deletion, logs it and saves the cache, in that order.  It
    does not tolerate a failure: it records none, and the first request
    that fails raises its error, so that the trace is made of the complete
    deletions of a prefix of the targets followed by the request that
    failed; a teardown that fails before any request leaves no trace.  When
    it returns, every target was deleted in full, every rule and list it
    knew is gone from the store, and the last event is the save of the
    cache as it is in memory.  With an empty cache and no failure of
    transport it returns. *)
Theorem teardown_stops_at_first_failure (key : lst → Z) (self : CloudflareManager) (w : world) :
  (∀ r w', delete_resources key self w = (r, w') →
     ∃ done saved,
       List.length saved = List.length done ∧
       match r with
       | Ok _ =>
           done = teardown_targets key self w ∧
           trace w' = (trace w ++ mjoin (zip_with completed done saved))%list ∧
           (done ≠ [] → last saved = Some (mem w')) ∧
           (∀ x, x ∈ known_rules self w → st_rules (remote w') !! r_id x = None) ∧
           (∀ l, l ∈ known_lists self w → st_lists (remote w') !! lst_id l = None)
       | Raise e =>
           is_http e ∧
           ((done = [] ∧ trace w' = trace w) ∨
            ∃ t, (done ++ [t])%list `prefix_of` teardown_targets key self w ∧
                 trace w' = (trace w ++ mjoin (zip_with completed done saved)
                                     ++ [target_request t])%list)
       end) ∧
  (sort_by_key key (known_lists self w) ≡ₚ known_lists self w ∧
   StronglySorted (by_key key) (sort_by_key key (known_lists self w)) ∧
   ∀ z, filter (λ l, key l = z) (sort_by_key key (known_lists self w))
        = filter (λ l, key l = z) (known_lists self w)) ∧
  (faults w = [] → cache_lists (mem w) = [] → cache_rules (mem w) = [] →
   ∃ w', delete_resources key self w = (Ok (), w')).
Proof.
  split; [|split].
  - intros r w'. rewrite teardown_fetch.
    destruct (bool_decide (cache_lists (mem w) = []) && fails w).
    { intros [= <- <-]. exists [], []. split; [done|]. split; [by eexists|]. by left. }
    cbn zeta.
    set (w1 := if bool_decide (cache_lists (mem w) = []) then _ else w).
    assert (trace w1 = trace w ∧ remote w1 = remote w) as [Ht1 Hr1].
    { unfold w1. by destruct (bool_decide (cache_lists (mem w) = [])). }
    destruct (bool_decide (cache_rules (mem w) = []) && fails w1).
    { intros [= <- <-]. exists [], []. split; [done|]. split; [by eexists|]. by left. }
    set (w2 := if bool_decide (cache_rules (mem w) = []) then tick w1 else w1).
    assert (trace w2 = trace w ∧ remote w2 = remote w) as [Ht2 Hr2].
    { unfold w2. by destruct (bool_decide (cache_rules (mem w) = [])). }
    set (sorted := sort_by_key key (known_lists self w)).
    set (w3 := set_mem _ w2).
    assert (trace w3 = trace w) as Ht3 by done.
    intros Hrun. unfold teardown_targets. fold sorted.
    apply bind_inv in Hrun as [(e & Hrun & ->)|([] & w4 & Hrules & Hlists)].
    + destruct (deletions_spec teardown_rule TRule teardown_rule_spec _ _ _ _ Hrun)
        as (done & saved & Hlen & He & x & Hpre & Htr).
      exists (TRule <$> done), saved. split; [by rewrite length_fmap|]. split; [done|].
      right. exists (TRule x). split; [|by rewrite Htr, Ht3].
      apply prefix_app_r. apply (prefix_fmap TRule) in Hpre. by rewrite fmap_app in Hpre.
    + destruct (deletions_spec teardown_rule TRule teardown_rule_spec _ _ _ _ Hrules)
        as (done1 & saved1 & Hlen1 & -> & Htr1 & Hlast1 & Hnil1).
      destruct (deletions_spec teardown_list TList teardown_list_spec _ _ _ _ Hlists)
        as (done2 & saved2 & Hlen2 & Hres2).
      exists ((TRule <$> known_rules self w) ++ (TList <$> done2))%list,
             (saved1 ++ saved2)%list.
      split; [rewrite !length_app, !length_fmap; lia|].
      assert (mjoin (zip_with completed ((TRule <$> known_rules self w) ++ (TList <$> done2))
                              (saved1 ++ saved2))
              = (mjoin (zip_with completed (TRule <$> known_rules self w) saved1) ++
                 mjoin (zip_with completed (TList <$> done2) saved2))%list) as Hjoin.
      { rewrite zip_with_app by (by rewrite length_fmap). apply join_app. }
      rewrite Hjoin.
      destruct r as [u|e].
      * destruct Hres2 as (-> & Htr2 & Hlast2 & Hnil2).
        split; [done|]. split; [by rewrite Htr2, Htr1, Ht3, <- !app_assoc|].
        split; [|split].
        -- intros Hne. rewrite last_app. destruct sorted as [|l0 ls] eqn:Hs.
           ++ assert (saved2 = []) as -> by (by destruct saved2).
              simpl. rewrite (Hnil2 eq_refl). apply Hlast1. intros Hcr. apply Hne.
              by rewrite Hcr.
           ++ by rewrite Hlast2.
        -- intros x Hx.
           eapply (foldM_preserves teardown_list (λ v, st_rules (remote v) !! r_id x = None));
             [| |exact Hlists].
           ++ intros y v r v1 HQ Hstep.
              destruct (teardown_list_frame _ _ _ _ Hstep) as (Hsame & _). by rewrite Hsame.
           ++ destruct u. by eapply rules_gone.
        -- intros l Hl. destruct u. eapply lists_gone; [exact Hlists|].
           unfold sorted. by rewrite sort_by_key_Permutation.
      * destruct Hres2 as (He & x & Hpre & Htr2).
        split; [done|]. right. exists (TList x). split.
        -- apply (prefix_fmap TList) in Hpre. rewrite fmap_app in Hpre.
           destruct Hpre as [k Hk]. exists k. rewrite Hk. by rewrite <- !app_assoc.
        -- by rewrite Htr2, Htr1, Ht3, <- !app_assoc.
  - split; [apply sort_by_key_Permutation|]. split; [apply sort_by_key_sorted|].
    intros z. apply sort_by_key_stable.
  - intros Hf Hcl Hcr. rewrite teardown_fetch.
    assert (fails w = false) as Hfw by (unfold fails; by rewrite Hf).
    rewrite Hfw, andb_false_r. cbn zeta.
    rewrite (bool_decide_eq_true_2 _ Hcl), (bool_decide_eq_true_2 _ Hcr).
    assert (∀ c, fails (set_mem c (tick w)) = false) as Hf1
      by (intros c; unfold fails; simpl; by rewrite Hf).
    rewrite Hf1. cbn [andb].
    assert (known_lists self w = remote_lists (list_name self) (remote w)) as Hkl
      by (unfold known_lists; by rewrite Hcl).
    assert (known_rules self w = remote_rules (rule_name self) (remote w)) as Hkr
      by (unfold known_rules; by rewrite Hcr).
    match goal with |- ∃ w', (_ ≫= _) ?v = _ => set (w3 := v) end.
    assert (faults w3 = [] ∧ remote w3 = remote w) as [Hf3 Hr3].
    { unfold w3. simpl. by rewrite Hf. }
    destruct (remote_rules_ids (rule_name self) (remote w)) as [Hnd Hin].
    destruct (rules_deleted (known_rules self w) w3 Hf3) as (w4 & Hrun4 & Hf4 & Hl4).
    { by rewrite Hkr. }
    { intros x Hx. rewrite Hr3. apply Hin. by rewrite <- Hkr. }
    destruct (remote_lists_ids (list_name self) (remote w)) as [Hndl Hinl].
    destruct (lists_deleted (sort_by_key key (known_lists self w)) w4 Hf4) as (w5 & Hrun5).
    { rewrite sort_by_key_Permutation. by rewrite Hkl. }
    { intros x Hx. rewrite sort_by_key_Permutation in Hx. rewrite Hl4, Hr3. apply Hinl.
      by rewrite <- Hkl. }
    exists w5. unfold mbind, M_bind. by rewrite Hrun4.
Qed.

Lemma teardown_stops_at_first_failure_witness :
  ∃ w' saved,
    delete_resources index_key cgp two_lists_world = (Ok (), w') ∧
    trace w' = mjoin (zip_with completed
                        [TRule (Rule 9%N "[CGP] Block Ads" [7%N; 8%N]);
                         TList (Lst 7%N "[CGP] - 001"); TList (Lst 8%N "[CGP] - 002")]
                        saved) ∧
    last saved = Some (mem w') ∧
    st_rules (remote w') !! 9%N = None ∧
    st_lists (remote w') !! 7%N = None ∧
    st_lists (remote w') !! 8%N = None.
Proof.
  destruct (teardown_stops_at_first_failure index_key cgp two_lists_world)
    as (Hany & _ & Hclean).
  destruct (Hclean eq_refl eq_refl eq_refl) as (w' & Hrun).
  destruct (Hany _ _ Hrun) as (done & saved & _ & -> & Htr & Hlast & Hrules & Hlists).
  exists w', saved. split; [exact Hrun|]. split; [exact Htr|].
  split; [by apply Hlast|].
  split. { apply (Hrules (Rule 9%N "[CGP] Block Ads" [7%N; 8%N])). vm_compute.
           apply list_elem_of_here. }
  split. { apply (Hlists (Lst 7%N "[CGP] - 001")). vm_compute.
           apply list_elem_of_further, list_elem_of_here. }
  apply (Hlists (Lst 8%N "[CGP] - 002")). vm_compute. apply list_elem_of_here.
Defined.

(** A teardown whose first deletion fails in transport: the error is
    raised, nothing is recorded about it, and the two lists are neither
    deleted nor asked to be. *)
Lemma teardown_aborts_on_failed_deletion :
  ∃ w', delete_resources index_key cgp third_request_fails
          = (Raise (HTTPException "connection failed"), w') ∧
        trace w' = [EvDeleteRule 9%N] ∧
        remote w' = two_lists_store.
Proof. eexists. split; [by vm_compute|]. split; by vm_compute. Qed.
(** ** C8: redirects *)

Lemma last_cons_default {A} (l : list A) : ∀ a d d', List.last (a :: l) d = List.last (a :: l) d'.
Proof.
  induction l as [|b l IH]; intros a d d'; [done|].
  change (List.last (b :: l) d = List.last (b :: l) d'). apply IH.
Qed.

Lemma last_reached {A} (u url : A) (l : list A) : List.last (u :: l) url = List.last l u.
Proof.
  destruct l as [|a l]; [done|].
  change (List.last (u :: a :: l) url) with (List.last (a :: l) url).
  apply last_cons_default.
Qed.

Lemma route_length `{Download.UrlLib} locs : ∀ url hops,
  route url locs = Some hops → List.length hops = List.length locs.
Proof.
  induction locs as [|loc locs IH]; intros url hops; cbn [route].
  - by intros [= <-].
  - destruct (hop url loc) as [u|]; [|done]. destruct (redirect_request u) as [r|]; [|done].
    destruct (route u locs) as [hops'|] eqn:Hr; [|done]. intros [= <-]. simpl.
    by rewrite (IH _ _ Hr).
Qed.

Lemma route_cons `{Download.UrlLib} url loc u r locs hops :
  hop url loc = Some u → redirect_request u = Some r → route u locs = Some hops →
  route url (loc :: locs) = Some ((u, r) :: hops).
Proof. intros Hu Hr Hl. cbn [route]. by rewrite Hu, Hr, Hl. Qed.

Lemma follow_spec `{Download.UrlLib} fuel : ∀ url resp count n,
  0 ≤ count ≤ 10 → (Z.to_nat (10 - count) < fuel)%nat →
  ∃ r n' locs hops,
    Download.follow fuel 10 url resp count n = Some (r, n') ∧
    count + len locs ≤ 10 ∧
    route url locs = Some hops ∧
    Download.sent n' = (Download.sent n ++ (snd <$> hops))%list ∧
    Download.script n' = drop (List.length locs) (Download.script n) ∧
    Forall2 (λ loc x, followed x = Some loc) locs
            (take (List.length locs) (Download.Answered resp :: Download.script n)) ∧
    let final := (Download.Answered resp :: Download.script n) !! List.length locs in
    let reached := List.last (fst <$> hops) url in
    match r with
    | inl (u, resp') =>
        final = Some (Download.Answered resp') ∧ followed (Download.Answered resp') = None ∧
        u = reached
    | inr (Download.HTTPException (Download.TooManyRedirects m u)) =>
        m = 10 ∧ u = reached ∧ count + len locs = 10 ∧
        ∃ x loc, final = Some x ∧ followed x = Some loc
    | inr (Download.HTTPException (Download.RedirectNetworkError u)) =>
        (final = None ∨ final = Some Download.Failed) ∧ u = reached
    | inr (Download.Uncaught st) =>
        final = Some Download.Crashed ∨
        ∃ x loc, final = Some x ∧ followed x = Some loc ∧ route reached [loc] = None
    | inr _ => False
    end.
Proof.
  induction fuel as [|fuel IH]; intros url resp count n Hc Hfuel; [lia|].
  cbn [Download.follow].
  destruct (Download.is_redirect (Download.status resp)) eqn:Hred.
  2: { exists (inl (url, resp)), n, [], []. unfold len. simpl. rewrite Hred, app_nil_r.
       split_and!; try done; lia. }
  destruct (Download.location resp) as [loc|] eqn:Hloc.
  2: { exists (inl (url, resp)), n, [], []. unfold len. simpl. rewrite Hred, Hloc, app_nil_r.
       split_and!; try done; lia. }
  destruct (Download.non_empty loc) eqn:Hne.
  2: { exists (inl (url, resp)), n, [], []. unfold len. simpl.
       rewrite Hred, Hloc, Hne, app_nil_r. split_and!; try done; lia. }
  assert (followed (Download.Answered resp) = Some loc) as Hfol
    by (simpl; by rewrite Hred, Hloc, Hne).
  destruct (bool_decide (10 < count + 1)) eqn:Hcap.
  { apply bool_decide_eq_true in Hcap.
    exists (inr (Download.HTTPException (Download.TooManyRedirects 10 url))), n, [], [].
    unfold len. simpl List.length. cbn zeta. rewrite app_nil_r.
    split_and!; try done; try lia. by exists (Download.Answered resp), loc. }
  apply bool_decide_eq_false in Hcap.
  assert (∀ st, route url [loc] = None →
            ∃ r n' locs hops,
              Some (inr (Download.Uncaught st) : string * Download.response + Download.failure, n)
                = Some (r, n') ∧
              count + len locs ≤ 10 ∧
              route url locs = Some hops ∧
              Download.sent n' = (Download.sent n ++ (snd <$> hops))%list ∧
              Download.script n' = drop (List.length locs) (Download.script n) ∧
              Forall2 (λ loc x, followed x = Some loc) locs
                      (take (List.length locs) (Download.Answered resp :: Download.script n)) ∧
              let final := (Download.Answered resp :: Download.script n) !! List.length locs in
              let reached := List.last (fst <$> hops) url in
              match r with
              | inl (u, resp') =>
                  final = Some (Download.Answered resp') ∧
                  followed (Download.Answered resp') = None ∧ u = reached
              | inr (Download.HTTPException (Download.TooManyRedirects m u)) =>
                  m = 10 ∧ u = reached ∧ count + len locs = 10 ∧
                  ∃ x loc, final = Some x ∧ followed x = Some loc
              | inr (Download.HTTPException (Download.RedirectNetworkError u)) =>
                  (final = None ∨ final = Some Download.Failed) ∧ u = reached
              | inr (Download.Uncaught st) =>
                  final = Some Download.Crashed ∨
                  ∃ x loc, final = Some x ∧ followed x = Some loc ∧ route reached [loc] = None
              | inr _ => False
              end) as Hrefused.
  { intros st Hroute. exists (inr (Download.Uncaught st)), n, [], [].
    unfold len. simpl List.length. cbn zeta. rewrite app_nil_r.
    split_and!; try done; try lia. right. by exists (Download.Answered resp), loc. }
  destruct (Download.urlparse loc) as [parsed_location|] eqn:Hparse.
  2: { apply Hrefused. cbn [route]. unfold hop. by rewrite Hparse. }
  destruct (if Download.non_empty (Download.netloc parsed_location) then Some loc
            else Download.urljoin url loc) as [u|] eqn:Hjoin.
  2: { apply Hrefused. cbn [route]. unfold hop. by rewrite Hparse, Hjoin. }
  assert (hop url loc = Some u) as Hhop by (unfold hop; by rewrite Hparse).
  destruct (Download.urlparse u) as [parsed_url|] eqn:Hparse2.
  2: { apply Hrefused. cbn [route]. rewrite Hhop. unfold redirect_request. by rewrite Hparse2. }
  destruct (Download.connection (Download.is_https parsed_url) (Download.netloc parsed_url))
    eqn:Hconn.
  2: { apply Hrefused. cbn [route]. rewrite Hhop. unfold redirect_request.
       by rewrite Hparse2, Hconn. }
  clear Hrefused.
  set (req := Download.connect parsed_url (Download.full_path parsed_url)).
  assert (redirect_request u = Some req) as Hreq
    by (unfold redirect_request; by rewrite Hparse2, Hconn).
  assert (route url [loc] = Some [(u, req)]) as Hone by (by apply route_cons).
  unfold Download.send. destruct (Download.script n) as [|x later] eqn:Hscript.
  { exists (inr (Download.HTTPException (Download.RedirectNetworkError u))),
      (Download.Net [] (Download.sent n ++ [req])), [loc], [(u, req)].
    unfold len. simpl. split_and!; try done; try lia.
    - by apply Forall2_cons.
    - by left. }
  destruct x as [resp2| |].
  2: { exists (inr (Download.HTTPException (Download.RedirectNetworkError u))),
         (Download.Net later (Download.sent n ++ [req])), [loc], [(u, req)].
       unfold len. simpl. split_and!; try done; try lia.
       - by apply Forall2_cons.
       - by right. }
  2: { exists (inr (Download.Uncaught (Download.Requesting u))),
         (Download.Net later (Download.sent n ++ [req])), [loc], [(u, req)].
       unfold len. simpl. split_and!; try done; try lia.
       - by apply Forall2_cons.
       - by left. }
  destruct (IH u resp2 (count + 1) (Download.Net later (Download.sent n ++ [req])))
    as (r & n' & locs & hops & Hrun & Hlen & Hroute & Hsent & Hscr & Hall & Hres); [lia|lia|].
  exists r, n', (loc :: locs), ((u, req) :: hops). split; [exact Hrun|].
  split; [unfold len in *; simpl List.length; lia|].
  split; [by apply route_cons|].
  split; [rewrite Hsent; simpl; by rewrite <- app_assoc|].
  split; [by rewrite Hscr|].
  split; [simpl; by apply Forall2_cons|].
  cbn zeta in *. simpl Download.script in Hres.
  replace ((Download.Answered resp :: Download.Answered resp2 :: later)
             !! List.length (loc :: locs))
    with ((Download.Answered resp2 :: later) !! List.length locs) by done.
  rewrite fmap_cons. cbn [fst]. rewrite last_reached.
  destruct r as [[v resp']|[[]| |st]]; try done.
  destruct Hres as (-> & -> & Hten & Hx). split_and!; try done.
  unfold len in *. simpl List.length. lia.
Qed.

(** X4 (on the subject of claim C8).  Every download ends, and through its
    redirects it behaves as follows.  The responses with status 301, 302,
    303, 307 or 308 and a non-empty [Location] are followed, at most ten of
    them.  Each followed [Location] is requested in full (path, parameters,
    query and fragment); one that names no host is resolved against the URL
    of the request it answers: the original URL for the first redirect, the
    URL reached so far for the later ones.  When the library raises on the
    original URL or on its host, nothing is sent.  When the first eleven
    responses all redirect, either ten redirects are followed and the
    download fails with the too-many-redirects [HTTPException], or an
    exception that [download_file] does not catch stops it before; the
    too-many-redirects failure arises in no other way.  An exception that is
    not caught arises after the requests of the followed redirects: in the
    last request itself, in the decoding of the text, or when the library
    raises on the next [Location], which is then not requested. *)
Theorem redirects_resolved_hop_by_hop `{Download.UrlLib} (url : string) (n : Download.net) :
  ∃ r n' locs hops,
    Download.download_file url n = Some (r, n') ∧
    (List.length locs ≤ 10)%nat ∧
    Forall2 (λ loc x, followed x = Some loc) locs
            (take (List.length locs) (Download.script n)) ∧
    route url locs = Some hops ∧
    let reached := List.last (fst <$> hops) url in
    let final := Download.script n !! List.length locs in
    match first_request url with
    | None => n' = n ∧ locs = [] ∧ ∃ st, r = inr (Download.Uncaught st)
    | Some first =>
        Download.sent n' = (Download.sent n ++ first :: (snd <$> hops))%list ∧
        ((∀ i, (i ≤ 10)%nat →
            ∃ x loc, Download.script n !! i = Some x ∧ followed x = Some loc) →
         (List.length locs = 10%nat ∧
          r = inr (Download.HTTPException (Download.TooManyRedirects 10 reached))) ∨
         ∃ st, r = inr (Download.Uncaught st)) ∧
        (∀ m u, r = inr (Download.HTTPException (Download.TooManyRedirects m u)) →
           m = 10 ∧ u = reached ∧ List.length locs = 10%nat ∧
           ∃ x loc, Download.script n !! 10%nat = Some x ∧ followed x = Some loc) ∧
        (∀ st, r = inr (Download.Uncaught st) →
           final = Some Download.Crashed ∨
           (∃ resp, final = Some (Download.Answered resp) ∧
                    followed (Download.Answered resp) = None ∧
                    Download.status resp = 200 ∧ Download.body resp = Download.Undecodable) ∨
           (∃ x loc, final = Some x ∧ followed x = Some loc ∧ route reached [loc] = None))
    end.
Proof.
  unfold Download.download_file, first_request, Download.max_redirects.
  destruct (Download.urlparse url) as [parsed_url|] eqn:Hparse.
  2: { eexists _, n, [], []. split; [done|]. split; [simpl; lia|]. split; [done|].
       split; [done|]. cbn zeta. split; [done|]. split; [done|]. by eexists. }
  destruct (Download.connection (Download.is_https parsed_url) (Download.netloc parsed_url)).
  2: { eexists _, n, [], []. split; [done|]. split; [simpl; lia|]. split; [done|].
       split; [done|]. cbn zeta. split; [done|]. split; [done|]. by eexists. }
  unfold Download.send.
  set (first := Download.connect _ _).
  destruct (Download.script n) as [|[resp| |] later] eqn:Hscript.
  - eexists _, _, [], []. split; [done|]. split; [simpl; lia|]. split; [done|].
    split; [done|]. cbn zeta. split; [done|]. split; [|done].
    intros Hall. by destruct (Hall 0%nat) as (x & loc & ? & _); [lia|].
  - destruct (follow_spec (S (Z.to_nat 10)) url resp 0
                (Download.Net later (Download.sent n ++ [first])))
      as (r0 & n' & locs & hops & Hrun & Hlen & Hroute & Hsent & _ & Hall & Hres); [lia|lia|].
    rewrite Hrun. cbn zeta in Hres. simpl Download.script in *. simpl Download.sent in *.
    assert (List.length locs ≤ 10)%nat as Hten by (unfold len in Hlen; lia).
    set (reached := List.last (fst <$> hops) url) in *.
    set (final := (Download.Answered resp :: later) !! List.length locs) in *.
    assert (∀ r : string + Download.failure,
              (∀ m u, r ≠ inr (Download.HTTPException (Download.TooManyRedirects m u))) →
              ((∀ x loc, final = Some x → followed x = Some loc → False) ∨
               ∃ st, r = inr (Download.Uncaught st)) →
              (∀ st, r = inr (Download.Uncaught st) →
                 final = Some Download.Crashed ∨
                 (∃ resp, final = Some (Download.Answered resp) ∧
                          followed (Download.Answered resp) = None ∧
                          Download.status resp = 200 ∧
                          Download.body resp = Download.Undecodable) ∨
                 (∃ x loc, final = Some x ∧ followed x = Some loc ∧
                           route reached [loc] = None)) →
              (List.length locs ≤ 10)%nat ∧
              Forall2 (λ loc x, followed x = Some loc) locs
                      (take (List.length locs) (Download.Answered resp :: later)) ∧
              route url locs = Some hops ∧
              Download.sent n' = (Download.sent n ++ first :: (snd <$> hops))%list ∧
              ((∀ i, (i ≤ 10)%nat →
                  ∃ x loc, (Download.Answered resp :: later) !! i = Some x ∧
                           followed x = Some loc) →
               (List.length locs = 10%nat ∧
                r = inr (Download.HTTPException (Download.TooManyRedirects 10 reached))) ∨
               ∃ st, r = inr (Download.Uncaught st)) ∧
              (∀ m u, r = inr (Download.HTTPException (Download.TooManyRedirects m u)) →
                 m = 10 ∧ u = reached ∧ List.length locs = 10%nat ∧
                 ∃ x loc, (Download.Answered resp :: later) !! 10%nat = Some x ∧
                          followed x = Some loc) ∧
              (∀ st, r = inr (Download.Uncaught st) →
                 final = Some Download.Crashed ∨
                 (∃ resp, final = Some (Download.Answered resp) ∧
                          followed (Download.Answered resp) = None ∧
                          Download.status resp = 200 ∧
                          Download.body resp = Download.Undecodable) ∨
                 (∃ x loc, final = Some x ∧ followed x = Some loc ∧
                           route reached [loc] = None)))
      as Hother.
    { intros r Hr Hfinal Hcrash. split; [done|]. split; [done|]. split; [done|].
      split; [by rewrite Hsent, <- app_assoc|]. split; [|split; [|done]].
      - intros Hred. destruct Hfinal as [Hfinal|Hst]; [|by right].
        destruct (Hred (List.length locs) Hten) as (x & loc & Hx & Hfol).
        by destruct (Hfinal x loc Hx Hfol).
      - intros m u ->. by destruct (Hr m u). }
    destruct r0 as [[u resp']|[why|why|st]].
    + destruct Hres as (Hfinal & Hnone & ->).
      assert (∀ x loc, final = Some x → followed x = Some loc → False) as Hstop.
      { intros x loc Hx Hfol. rewrite Hfinal in Hx. injection Hx as <-. congruence. }
      destruct (bool_decide (Download.status resp' ≠ 200)) eqn:Hst.
      * repeat case_match; eexists _, n', locs, hops; (split; [done|]);
          apply Hother; try done; by left.
      * apply bool_decide_eq_false in Hst. apply dec_stable in Hst.
        destruct (Download.body resp') eqn:Hbody; eexists _, n', locs, hops;
          (split; [done|]); apply Hother; try done; try (by left).
        intros st _. right. left. by exists resp'.
    + destruct why as [v|v|m v|v s|v]; try done.
      * destruct Hres as (Hfinal & ->). eexists _, n', locs, hops. split; [done|].
        apply Hother; [done| |done]. left. intros x loc Hx Hfol.
        destruct Hfinal as [Hf|Hf]; rewrite Hf in Hx; [done|]. by injection Hx as <-.
      * destruct Hres as (-> & -> & Hcount & x & loc & Hx & Hfol).
        assert (List.length locs = 10%nat) as Hl by (unfold len in Hcount; lia).
        eexists _, n', locs, hops. split; [done|]. split; [done|]. split; [done|].
        split; [done|]. split; [by rewrite Hsent, <- app_assoc|].
        split; [by left|]. split; [|done].
        intros m u [= <- <-]. split_and!; try done. exists x, loc. by rewrite <- Hl.
    + done.
    + eexists _, n', locs, hops. split; [done|]. apply Hother; [done|right; by eexists|].
      intros st' _. destruct Hres as [Hcr|Hnext]; [by left|by right; right].
  - eexists _, _, [], []. split; [done|]. split; [simpl; lia|]. split; [done|].
    split; [done|]. cbn zeta. split; [done|]. split; [|done].
    intros Hall. by destruct (Hall 0%nat) as (x & loc & [= <-] & ?); [lia|].
  - eexists _, _, [], []. split; [done|]. split; [simpl; lia|]. split; [done|].
    split; [done|]. cbn zeta. split; [done|]. split.
    { intros _. right. by eexists. }
    split; [done|]. intros st _. by left.
Qed.

Lemma redirects_resolved_hop_by_hop_witness :
  ∃ n' u,
    @Download.download_file Download.Simple.urls "http://a.example/list.txt" redirect_loop
      = Some (inr (Download.HTTPException (Download.TooManyRedirects 10 u)), n') ∧
    List.length (Download.sent n') = 11%nat.
Proof.
  destruct (@redirects_resolved_hop_by_hop Download.Simple.urls "http://a.example/list.txt"
              redirect_loop) as (r & n' & locs & hops & Hrun & _ & _ & Hroute & Hres).
  cbn zeta in Hres.
  change (@first_request Download.Simple.urls "http://a.example/list.txt")
    with (Some (Download.Request false "a.example" "/list.txt")) in Hres.
  destruct Hres as (Hsent & Hcap & Hmany & Hcrash).
  destruct Hcap as [[Hlen ->]|[st ->]].
  { intros i Hi. do 11 (destruct i as [|i]; [by eexists _, _|]). lia. }
  - eexists n', _. split; [exact Hrun|]. rewrite Hsent, length_app. simpl.
    rewrite length_fmap, (route_length _ _ _ Hroute), Hlen.
    done.
  - exfalso.
    assert (@Download.download_file Download.Simple.urls "http://a.example/list.txt"
              redirect_loop
            = Some (inr (Download.HTTPException
                           (Download.TooManyRedirects 10 "http://a.example/loop")),
                    Download.Net [Download.Answered
                                    (Download.Response 302 (Some "/loop") Download.ReadFails)]
                      (Download.Request false "a.example" "/list.txt"
                       :: replicate 10 (Download.Request false "a.example" "/loop"))))
      as Hval by (by vm_compute).
    rewrite Hval in Hrun. discriminate Hrun.
Defined.

(** A relative [Location] met at the second redirect: the request goes to
    the host and directory of the first redirect, not to those of the
    original URL. *)
Lemma second_hop_resolved_against_first_hop :
  ∃ n',
    @Download.download_file Download.Simple.urls "http://a.example/x/list.txt" two_hops
      = Some (inl "data", n') ∧
    Download.sent n' = [Download.Request false "a.example" "/x/list.txt";
                        Download.Request false "b.example" "/y/";
                        Download.Request false "b.example" "/y/z.txt"] ∧
    @redirect_request Download.Simple.urls "http://a.example/x/z.txt"
      = Some (Download.Request false "a.example" "/x/z.txt") ∧
    @hop Download.Simple.urls "http://a.example/x/list.txt" "z.txt"
      = Some "http://a.example/x/z.txt".
Proof. eexists. split; [by vm_compute|]. split; [by vm_compute|]. split; by vm_compute. Qed.

(** ** C5: orphans *)

Lemma reclaim_orphans_trace self w r w1 :
  reclaim_orphans self w = (r, w1) →
  ∃ new, trace w1 = (trace w ++ new)%list ∧ Forall reclaim_event new ∧
         omap deleted_id new `prefix_of`
           (lst_id <$> take (Z.to_nat MAX_LISTS) (orphans_of self w)).
Proof.
  assert (∀ v : world, trace v = trace w →
            ∃ new, trace v = (trace w ++ new)%list ∧ Forall reclaim_event new ∧
                   omap deleted_id new `prefix_of`
                     (lst_id <$> take (Z.to_nat MAX_LISTS) (orphans_of self w))) as Hnone.
  { intros v Hv. exists []. rewrite app_nil_r. split; [done|]. split; [done|]. apply prefix_nil. }
  unfold reclaim_orphans. intros Hrun.
  apply bind_inv in Hrun as [(e & Hrun & ->)|(all & w0 & Hlists & Hrun)].
  { rewrite get_lists_eq in Hrun. destruct (fails w); [|done]. injection Hrun as <- <-.
    by apply Hnone. }
  rewrite get_lists_eq in Hlists. destruct (fails w); [done|]. injection Hlists as <- <-.
  fold (remote_lists (list_name self) (remote w)) in Hrun.
  apply bind_inv in Hrun as [(e & Hrun & ->)|(rules & w0 & Hrules & Hrun)].
  { rewrite get_current_rules_eq in Hrun. change (mem (tick w)) with (mem w) in Hrun.
    destruct (cache_rules (mem w)); [|done]. destruct (fails (tick w)); [|done].
    injection Hrun as <- <-. by apply Hnone. }
  assert (rules = known_rules self w ∧ trace w0 = trace w ) as [-> Ht0].
  { rewrite get_current_rules_eq in Hrules. change (mem (tick w)) with (mem w) in Hrules.
    unfold known_rules. destruct (cache_rules (mem w)) as [|r0 rs].
    - destruct (fails (tick w)); [done|]. by injection Hrules as <- <-.
    - by injection Hrules as <- <-. }
  fold (orphans_of self w) in Hrun.
  destruct (orphans_of self w) as [|o os] eqn:Horph.
  { unfold_M. injection Hrun as <- <-. exists []. rewrite app_nil_r. split; [done|].
    split; [done|]. apply prefix_nil. }
  apply bind_inv in Hrun as [(e & Hrun & ->)|(count & w2 & Hdel & Hrun)].
  - apply bind_inv in Hrun as [(e' & Hrun & _)|([] & w2 & Hinfo & Hrun)]; [done|].
    injection Hinfo as <-.
    destruct (delete_orphans_spec (take (Z.to_nat MAX_LISTS) (o :: os))
                (len (remote_lists (list_name self) (remote w)))
                (emit (EvInfo (FoundOrphans (len (o :: os)))) w0))
      as (c' & w3 & gone & new & Hspec & _). rewrite Hspec in Hrun. done.
  - injection Hrun as <- <-.
    apply bind_inv in Hdel as [(e' & Hrun & _)|([] & w3 & Hinfo & Hrun)]; [done|].
    injection Hinfo as <-.
    destruct (delete_orphans_spec (take (Z.to_nat MAX_LISTS) (o :: os))
                (len (remote_lists (list_name self) (remote w)))
                (emit (EvInfo (FoundOrphans (len (o :: os)))) w0))
      as (c' & w4 & gone & new & Hspec & _ & _ & _ & _ & _ & _ & _ & _ & _ & _ & _ & Htr & Hpre & _).
    rewrite Hspec in Hrun. injection Hrun as <- <-.
    exists (EvInfo (FoundOrphans (len (o :: os))) :: new). split.
    { rewrite Htr. simpl. by rewrite Ht0, <- app_assoc. }
    split; [|done].
    apply Forall_cons. split; [done|].
    destruct (emits_delete_orphans (take (Z.to_nat MAX_LISTS) (o :: os)) _ _ _ _ Hspec)
      as (new' & Htr' & Hall). rewrite Htr in Htr'. by apply app_inv_head in Htr' as <-.
Qed.

Lemma emits_after_reclaim `{PySetOrder} self d rules count :
  emits build_event
    (_ ← (if bool_decide (MAX_LISTS ≤ count)
          then error (AtMaximumListCapacity MAX_LISTS) else mret ());
     '(current_lists, remaining_domains) ← take_inventory self d;
     '(_, new_list_ids) ← reconcile_lists self d current_lists remaining_domains;
     sync_rule self rules new_list_ids).
Proof.
  apply emits_bind; [destruct (bool_decide _); [apply emits_error|apply emits_ret]|].
  intros _. apply emits_bind.
  { eapply emits_mono; [|apply emits_take_inventory]. done. }
  intros [cl rem]. apply emits_bind.
  { eapply emits_mono; [|apply emits_reconcile_lists]. by intros []. }
  intros [rem' ids]. eapply emits_mono; [|apply emits_sync_rule]. by intros [].
Qed.

(** X1.  The loop over the orphans of [update_resources] always returns:
    a deletion that fails is recorded and the loop goes on.  It tries the
    orphans in order, one request each, every request followed by one log
    line.  The lists that leave the store are among those tried, and the
    count it returns is the count it was given minus their number.  The
    loop goes through all the orphans unless it stops on its [break], right
    after a deletion that went through and brought the count under
    [MAX_LISTS]; as soon as a deletion brings the count there, it does
    stop.  So it deletes a second list only while the count is still at the
    limit. *)
Theorem orphan_loop_never_aborts (orphans : list lst) (count : Z) (w : world) :
  ∃ count' w' tried gone new,
    delete_orphans orphans count w = (Ok count', w') ∧
    trace w' = (trace w ++ new)%list ∧
    Forall reclaim_event new ∧
    tried `prefix_of` orphans ∧
    omap deleted_id new = lst_id <$> tried ∧
    len new = 2 * len tried ∧
    len (filter (λ e, is_delete_list e = true) new)
      = len gone + len (filter (λ e, is_failure_record e = true) new) ∧
    gone `sublist_of` (lst_id <$> tried) ∧
    NoDup gone ∧
    st_lists (remote w') = without gone (st_lists (remote w)) ∧
    count' = count - len gone ∧
    (len gone ≤ 1 ∨ MAX_LISTS ≤ count' + 1) ∧
    (tried = orphans ∨ stopped_after tried gone new count') ∧
    (gone ≠ [] → count' < MAX_LISTS → stopped_after tried gone new count').
Proof.
  destruct (delete_orphans_spec orphans count w)
    as (c' & w' & gone & new & Hrun & _ & _ & _ & Hlists & _ & Hnd & _ & _ & Hc & Hstop & _
        & Htr & _ & Hlen & tried & Htried & Hreq & Hnew & Hsub & Hend & Hbelow).
  exists c', w', tried, gone, new. split_and!; try done.
  destruct (emits_delete_orphans orphans count _ _ _ Hrun) as (new' & Htr' & Hall).
  rewrite Htr in Htr'. by apply app_inv_head in Htr' as <-.
Qed.

(** X2.  In a pass, whatever its outcome, the deletions come first and
    concern orphans only: the trace of the pass splits in two parts; the
    first holds nothing but deletions of lists and log lines, and the lists
    it asks to delete are, in order, a prefix of the first [MAX_LISTS]
    orphans; the second part holds no deletion at all, of a list or of a
    rule. *)
Theorem deletions_come_first `{PySetOrder} (self : CloudflareManager)
    (domains_to_block : list Domain) (w : world) (r : res unit) (w' : world) :
  update_resources self domains_to_block w = (r, w') →
  ∃ before after,
    trace w' = (trace w ++ before ++ after)%list ∧
    Forall reclaim_event before ∧
    omap deleted_id before `prefix_of`
      (lst_id <$> take (Z.to_nat MAX_LISTS) (orphans_of self w)) ∧
    Forall build_event after.
Proof.
  assert (∀ v : world, trace v = trace w →
            ∃ before after,
              trace v = (trace w ++ before ++ after)%list ∧ Forall reclaim_event before ∧
              omap deleted_id before `prefix_of`
                (lst_id <$> take (Z.to_nat MAX_LISTS) (orphans_of self w)) ∧
              Forall build_event after) as Hnone.
  { intros v Hv. exists [], []. rewrite !app_nil_r. split; [done|]. split; [done|].
    split; [apply prefix_nil|done]. }
  unfold update_resources. intros Hrun.
  apply bind_inv in Hrun as [(e & Hrun & ->)|([] & w0 & Hfree & Hrun)].
  { destruct (bool_decide _); [|done]. injection Hrun as <- <-. by apply Hnone. }
  assert (w0 = w) as -> by (destruct (bool_decide _); [done|by injection Hfree]).
  apply bind_inv in Hrun as [(e & Hrun & ->)|([] & w0 & Hbig & Hrun)].
  { destruct (bool_decide _); [|done]. injection Hrun as <- <-. by apply Hnone. }
  assert (w0 = w) as -> by (destruct (bool_decide _); [done|by injection Hbig]).
  apply bind_inv in Hrun as [(e & Hrun & ->)|([rules count] & w1 & Hreclaim & Hrun)].
  { destruct (reclaim_orphans_trace _ _ _ _ Hrun) as (new & Htr & Hall & Hpre).
    exists new, []. rewrite app_nil_r. by split_and!. }
  destruct (reclaim_orphans_trace _ _ _ _ Hreclaim) as (new & Htr & Hall & Hpre).
  destruct (emits_after_reclaim self domains_to_block rules count _ _ _ Hrun)
    as (after & Htr' & Hall').
  exists new, after. split; [by rewrite Htr', Htr, app_assoc|]. by split_and!.
Qed.

Lemma deletions_come_first_witness :
  ∃ w', @update_resources elements_order cgp ["a.example"] two_orphans = (Ok (), w') ∧
        filter (λ e, is_mutation e = true) (trace w')
          = [EvDeleteList 8%N; EvCreateList "[CGP] - 001" ["a.example"];
             EvUpdateList 7%N ["x.example"] []; EvCreateRule "[CGP] Block Ads" [9%N; 7%N]] ∧
        ∃ before after,
          trace w' = (before ++ after)%list ∧ Forall reclaim_event before ∧
          Forall build_event after.
Proof.
  exists (@update_resources elements_order cgp ["a.example"] two_orphans).2.
  split; [by vm_compute|]. split; [by vm_compute|].
  destruct (@deletions_come_first elements_order cgp ["a.example"] two_orphans (Ok ())
              (@update_resources elements_order cgp ["a.example"] two_orphans).2)
    as (before & after & Htr & Hb & _ & Ha); [by vm_compute|].
  exists before, after. by split_and!.
Defined.

(** ** What a pass asks for *)

Lemma emits_update_list_within (P : event → Prop) attempts mx id ap (rm : list Domain) :
  (∀ rm', (∀ x, x ∈ rm' → x ∈ rm) → P (EvUpdateList id rm' ap)) →
  (∀ l, P (EvSilentError l)) →
  ∀ rm0, (∀ x, x ∈ rm0 → x ∈ rm) → emits P (update_list_attempts Api.patch_list_req attempts mx id rm0 ap).
Proof.
  intros HP HS. induction attempts as [|a later IH]; intros rm0 Hsub; simpl.
  - apply emits_ret.
  - intros w r w' Hrun.
    destruct (Api.patch_list_req id rm0 ap w) as [r1 w1] eqn:Hpatch.
    destruct (emits_patch_list P id rm0 ap (HP rm0 Hsub) _ _ _ Hpatch) as (n1 & Ht1 & Hall1).
    assert (w' = w1 → ∃ new, trace w' = (trace w ++ new)%list ∧ Forall P new) as Hsame.
    { intros ->. eauto. }
    destruct r1 as [res|[msg|arg|why]]; try (apply Hsame; by simplify_eq).
    destruct (_ && _); [|apply Hsame; by simplify_eq].
    destruct (Re.search_group2 msg) as [dom|]; [|apply Hsame; by simplify_eq].
    assert (emits P (_ ← silent_error (NotInListRetry dom);
                     update_list_attempts Api.patch_list_req later mx id
                       (if bool_decide (dom ∈ rm0) then Py.remove_first dom rm0 else rm0) ap))
      as Hrest.
    { apply emits_bind; [by apply emits_silent_error|]. intros _. apply IH.
      intros x Hx. apply Hsub. destruct (bool_decide _); [|done].
      by eapply elem_of_remove_first. }
    destruct (Hrest _ _ _ Hrun) as (n2 & Ht2 & Hall2).
    exists (n1 ++ n2)%list. split; [by rewrite Ht2, Ht1, app_assoc|]. by apply Forall_app.
Qed.

Lemma emits_reconcile_index_planned `{PySetOrder} self d dict i rem ids :
  rem ⊆ list_to_set d →
  emits (planned (list_to_set d)) (reconcile_index self d dict i (rem, ids)).
Proof.
  intros Hrem. unfold reconcile_index. destruct (dict !! _) as [id|].
  - apply emits_bind; [apply emits_get_list_items|]. intros fetched.
    apply emits_bind; [|intros ?; apply emits_ret].
    destruct (_ || _); [|by apply emits_silent_error].
    apply emits_bind; [|intros ?; emits_auto].
    unfold update_list, update_list_with. eapply emits_update_list_within; [| |done]; [|done].
    intros rm' Hsub. simpl. split_and!.
    + destruct (bool_decide _); [|simpl; lia]. rewrite length_take. unfold card. lia.
    + destruct (bool_decide _); [apply take_order_NoDup|apply NoDup_nil_2].
    + intros x Hx. apply Hrem. destruct (bool_decide _); [|by apply elem_of_nil in Hx].
      apply set_order_elem. by apply (subseteq_take _ _ x) in Hx.
    + intros x Hx%Hsub%set_order_elem. set_solver.
  - destruct (bool_decide (rem ≠ ∅)) eqn:Hne; [|apply emits_ret].
    apply bool_decide_eq_true in Hne.
    apply emits_bind; [destruct (bool_decide _); [apply emits_error|apply emits_ret]|].
    intros _. apply emits_bind; [|intros ?; emits_auto].
    apply emits_create_list. simpl. split_and!.
    + rewrite length_take, set_order_length. unfold card.
      assert (size rem ≠ 0%nat) by (by intros ?%size_empty_inv%leibniz_equiv). lia.
    + rewrite length_take. lia.
    + apply take_order_NoDup.
    + intros x Hx. apply Hrem, set_order_elem. by apply (subseteq_take _ _ x) in Hx.
Qed.

Lemma reconcile_index_remaining `{PySetOrder} self d dict i rem ids w rem' ids' w' :
  reconcile_index self d dict i (rem, ids) w = (Ok (rem', ids'), w') → rem' ⊆ rem.
Proof.
  unfold reconcile_index. destruct (dict !! _) as [id|].
  - intros Hrun. inv_bind Hrun. inv_bind Hrun. injection Hrun as <- _ _. set_solver.
  - destruct (bool_decide (rem ≠ ∅)); [|by intros [= <- _ _]].
    intros Hrun. do 5 (inv_bind Hrun). injection Hrun as <- _ _. set_solver.
Qed.

Lemma emits_loop_planned `{PySetOrder} self d dict idxs : ∀ rem ids,
  rem ⊆ list_to_set d →
  emits (planned (list_to_set d)) (foldM (reconcile_index self d dict) idxs (rem, ids)).
Proof.
  induction idxs as [|i idxs IH]; intros rem ids Hrem; cbn [foldM]; [apply emits_ret|].
  intros w r w' Hrun. apply bind_inv in Hrun as [(e & Hrun & ->)|([rem1 ids1] & w1 & Hstep & Hrun)].
  - by eapply emits_reconcile_index_planned.
  - destruct (emits_reconcile_index_planned self d dict i rem ids Hrem _ _ _ Hstep)
      as (n1 & Ht1 & Hall1).
    destruct (IH rem1 ids1) with (w := w1) (r := r) (w' := w') as (n2 & Ht2 & Hall2).
    { etrans; [by eapply reconcile_index_remaining|done]. }
    { done. }
    exists (n1 ++ n2)%list. split; [by rewrite Ht2, Ht1, app_assoc|]. by apply Forall_app.
Qed.

Lemma planned_of_reclaim D e : reclaim_event e → planned D e.
Proof. by destruct e. Qed.

Lemma planned_of_rule D e : rule_event e → planned D e.
Proof. by destruct e. Qed.

(** X6.  Whatever the state of the store and of the cache, and whatever the
    outcome, the requests of a pass stay within the plan: a list is
    created with at least 1 and at most 1000 domains, an update adds at most
    1000 domains, the domains sent are distinct and all belong to the
    desired list, and no update asks to remove a desired domain. *)
Theorem requests_within_plan `{PySetOrder} (self : CloudflareManager)
    (domains_to_block : list Domain) (w : world) (r : res unit) (w' : world) :
  update_resources self domains_to_block w = (r, w') →
  ∃ new, trace w' = (trace w ++ new)%list ∧
         Forall (planned (list_to_set domains_to_block)) new.
Proof.
  set (D := list_to_set domains_to_block : gset Domain).
  assert (∀ v : world, trace v = trace w →
            ∃ new, trace v = (trace w ++ new)%list ∧ Forall (planned D) new) as Hnone.
  { intros v Hv. exists []. by rewrite app_nil_r. }
  unfold update_resources. intros Hrun.
  apply bind_inv in Hrun as [(e & Hrun & ->)|([] & w0 & Hfree & Hrun)].
  { destruct (bool_decide _); [|done]. injection Hrun as <- <-. by apply Hnone. }
  assert (w0 = w) as -> by (destruct (bool_decide _); [done|by injection Hfree]).
  apply bind_inv in Hrun as [(e & Hrun & ->)|([] & w0 & Hbig & Hrun)].
  { destruct (bool_decide _); [|done]. injection Hrun as <- <-. by apply Hnone. }
  assert (w0 = w) as -> by (destruct (bool_decide _); [done|by injection Hbig]).
  assert (emits (planned D) (reclaim_orphans self)) as Hreclaim.
  { eapply emits_mono; [apply planned_of_reclaim|apply emits_reclaim_orphans]. }
  apply bind_inv in Hrun as [(e & Hrun & ->)|([rules count] & w1 & Hrun1 & Hrun)].
  { by eapply Hreclaim. }
  destruct (Hreclaim _ _ _ Hrun1) as (n1 & Ht1 & Hall1).
  assert (∀ v : world, trace v = trace w1 →
            ∃ new, trace v = (trace w ++ new)%list ∧ Forall (planned D) new) as Hone.
  { intros v Hv. exists n1. by rewrite Hv. }
  apply bind_inv in Hrun as [(e & Hrun & ->)|([] & w0 & Hgate & Hrun)].
  { destruct (bool_decide _); [|done]. injection Hrun as <- <-. by apply Hone. }
  assert (w0 = w1) as -> by (destruct (bool_decide _); [done|by injection Hgate]).
  apply bind_inv in Hrun as [(e & Hrun & ->)|([cl rem] & w2 & Hinv & Hrun)].
  { destruct (emits_take_inventory _ _ _ _ _ Hrun) as (n2 & Ht2 & Hall2).
    destruct n2 as [|e2 n2]; [|by apply Forall_cons in Hall2 as [[] _]].
    apply Hone. by rewrite Ht2, app_nil_r. }
  assert (trace w2 = trace w1) as Ht2.
  { destruct (emits_take_inventory _ _ _ _ _ Hinv) as (n2 & Ht2 & Hall2).
    destruct n2 as [|e2 n2]; [|by apply Forall_cons in Hall2 as [[] _]].
    by rewrite Ht2, app_nil_r. }
  assert (rem ⊆ D) as Hrem.
  { destruct (take_inventory_ok _ _ _ _ _ _ Hinv) as (_ & _ & _ & _ & _ & _ & _ & _ & _ & Hin).
    intros x [Hx _]%Hin. by apply elem_of_list_to_set. }
  assert (emits (planned D) (reconcile_lists self domains_to_block cl rem)) as Hloop.
  { unfold reconcile_lists. apply emits_bind; [apply emits_parse_indexes|].
    intros parsed. by apply emits_loop_planned. }
  assert (∀ rr v, (out ← reconcile_lists self domains_to_block cl rem;
                   sync_rule self rules out.2) w2 = (rr, v) →
            ∃ new, trace v = (trace w ++ new)%list ∧ Forall (planned D) new) as Hrest.
  { intros rr v Hv.
    assert (emits (planned D) (out ← reconcile_lists self domains_to_block cl rem;
                               sync_rule self rules out.2)) as Hem.
    { apply emits_bind; [done|]. intros out.
      eapply emits_mono; [apply planned_of_rule|apply emits_sync_rule]. }
    destruct (Hem _ _ _ Hv) as (n3 & Ht3 & Hall3).
    exists (n1 ++ n3)%list. split; [by rewrite Ht3, Ht2, Ht1, app_assoc|].
    by apply Forall_app. }
  apply (Hrest r w'). rewrite <- Hrun. unfold mbind, M_bind.
  by destruct (reconcile_lists self domains_to_block cl rem w2) as [[[rem' ids]|e] w3].
Qed.

Lemma requests_within_plan_witness :
  ∃ w', @update_resources elements_order cgp ["a.example"] two_orphans = (Ok (), w') ∧
        Forall (planned {[ "a.example" ]}) (trace w').
Proof.
  exists (@update_resources elements_order cgp ["a.example"] two_orphans).2.
  split; [by vm_compute|].
  destruct (@requests_within_plan elements_order cgp ["a.example"] two_orphans (Ok ())
              (@update_resources elements_order cgp ["a.example"] two_orphans).2)
    as (new & Htr & Hall); [by vm_compute|].
  rewrite Htr. simpl.
  replace ({[ "a.example" ]} : gset Domain) with (list_to_set ["a.example"] : gset Domain)
    by set_solver.
  exact Hall.
Defined.
(** ** [update_list] without assumptions *)

Lemma patch_list_trace id rm ap w r w1 :
  Api.patch_list_req id rm ap w = (r, w1) →
  trace w1 = (trace w ++ [EvUpdateList id rm ap])%list.
Proof.
  rewrite patch_list_eq. cbn zeta. destruct (fails w); [by intros [= <- <-]|].
  destruct (st_lists (remote w) !! id) as [[name items]|]; [|by intros [= <- <-]].
  destruct (filter _ rm); by intros [= <- <-].
Qed.

(** A request for an update that is refused leaves the store as it is. *)
Lemma patch_list_refused id rm ap w e w1 :
  Api.patch_list_req id rm ap w = (Raise e, w1) → remote w1 = remote w.
Proof.
  rewrite patch_list_eq. cbn zeta. destruct (fails w); [by intros [= <- <-]|].
  destruct (st_lists (remote w) !! id) as [[name items]|]; [|by intros [= <- <-]].
  destruct (filter _ rm); [done|by intros [= <- <-]].
Qed.

(** A request for an update that is accepted answers with the list it was
    sent for, under the name the store has for it. *)
Lemma patch_list_accepted id rm ap w result w1 :
  Api.patch_list_req id rm ap w = (Ok result, w1) →
  lst_id result = id ∧
  ∃ items, st_lists (remote w) !! id = Some (lst_name result, items) ∧
           st_lists (remote w1) !! id
           = Some (lst_name result, (items ∖ list_to_set rm) ∪ list_to_set ap).
Proof.
  rewrite patch_list_eq. cbn zeta. destruct (fails w); [done|].
  destruct (st_lists (remote w) !! id) as [[name items]|] eqn:Hid; [|done].
  destruct (filter _ rm); [|done]. intros [= <- <-]. split; [done|].
  exists items. split; [done|]. simpl. by rewrite lookup_insert_eq.
Qed.

Lemma update_list_attempts_bounded mx id ap attempts : ∀ rm w,
  attempts ≠ [] →
  (∀ a, last attempts = Some a → ¬ a < mx - 1) →
  ∃ r w' new rm_last w_last r_last,
    update_list_attempts Api.patch_list_req attempts mx id rm ap w = (r, w') ∧
    trace w' = (trace w ++ new)%list ∧
    (1 ≤ List.length (filter (λ e, is_mutation e = true) new) ≤ List.length attempts)%nat ∧
    Forall (λ e, ∃ rm', e = EvUpdateList id rm' ap ∧ ∀ x, x ∈ rm' → x ∈ rm)
           (filter (λ e, is_mutation e = true) new) ∧
    last new = Some (EvUpdateList id rm_last ap) ∧
    remote w_last = remote w ∧
    Api.patch_list_req id rm_last ap w_last = (r_last, w') ∧
    r = returned r_last.
Proof.
  induction attempts as [|a later IH]; intros rm w Hne Hlast; [done|].
  cbn [update_list_attempts].
  destruct (Api.patch_list_req id rm ap w) as [r1 w1] eqn:Hpatch.
  pose proof (patch_list_trace _ _ _ _ _ _ Hpatch) as Htr.
  assert (∃ r' w' new rm_last w_last r_last,
            (returned r1, w1) = (r', w') ∧ trace w' = (trace w ++ new)%list ∧
            (1 ≤ List.length (filter (λ e, is_mutation e = true) new)
             ≤ List.length (a :: later))%nat ∧
            Forall (λ e, ∃ rm', e = EvUpdateList id rm' ap ∧ ∀ x, x ∈ rm' → x ∈ rm)
                   (filter (λ e, is_mutation e = true) new) ∧
            last new = Some (EvUpdateList id rm_last ap) ∧
            remote w_last = remote w ∧
            Api.patch_list_req id rm_last ap w_last = (r_last, w') ∧
            r' = returned r_last) as Hstop.
  { exists (returned r1), w1, [EvUpdateList id rm ap], rm, w, r1.
    split; [done|]. split; [done|].
    rewrite filter_cons_True by done. simpl. split; [lia|].
    split; [|done]. apply Forall_singleton. by eexists. }
  destruct r1 as [res|e]; [exact Hstop|].
  pose proof (patch_list_raises _ _ _ _ _ _ Hpatch) as [msg ->].
  destruct (Py.contains "not found in list" msg && (a <? mx - 1)) eqn:Hretry;
    [|exact Hstop].
  destruct (Re.search_group2 msg) as [dom|]; [|exact Hstop].
  apply andb_true_iff in Hretry as [_ Ha%Z.ltb_lt].
  destruct later as [|b later]; [by destruct (Hlast a)|].
  unfold mbind, M_bind, silent_error, modify.
  destruct (IH (if bool_decide (dom ∈ rm) then Py.remove_first dom rm else rm)
               (emit (EvSilentError (NotInListRetry dom)) w1))
    as (r & w' & new & rm_last & w_last & r_last & Hrun & Htr' & Hlen & Hall & Hnew & Hrem
        & Hask & Hr); [done|..].
  { intros c Hc. apply Hlast. exact Hc. }
  exists r, w', (EvUpdateList id rm ap :: EvSilentError (NotInListRetry dom) :: new),
         rm_last, w_last, r_last.
  split; [by rewrite Hrun|]. split.
  { rewrite Htr'. simpl. rewrite Htr. by rewrite <- !app_assoc. }
  rewrite filter_cons_True by done.
  rewrite filter_cons_False by (simpl; congruence).
  split; [simpl in *; lia|]. split.
  { apply Forall_cons. split; [by eexists|].
    eapply Forall_impl; [exact Hall|]. intros e (rm' & -> & Hsub). exists rm'.
    split; [done|]. intros x Hx. specialize (Hsub x Hx).
    destruct (bool_decide (dom ∈ rm)); [by eapply elem_of_remove_first|done]. }
  split.
  { destruct new as [|e new]; [done|]. exact Hnew. }
  split; [|done].
  rewrite Hrem. simpl. by apply (patch_list_refused _ _ _ _ _ _ Hpatch).
Qed.

(** X7.  [update_list] never returns [None]: the line after its loop is
    not reached.  Whatever the store holds and whichever requests fail in
    transport, it sends at least one and at most three requests, all of
    them updates of the list it was given, with the same items to add and
    with items to remove among those it was given.  Nothing is logged after
    the last request, which is sent to a store that no earlier request has
    changed, and the call ends as that request does: if the request is
    accepted the call returns its answer, which is the list it was given
    under the name the store has for it, and the store holds the items of
    the list minus those of the request plus the items to add; if it is
    refused the call raises its exception, an [HTTPException], and the
    store is as it was. *)
Theorem update_list_returns_or_raises `{PySetOrder} (list_id : ident)
    (remove_items : gset Domain) (append_items : list Domain) (w : world) :
  ∃ r w' new remove_last w_last r_last,
    update_list list_id remove_items append_items w = (r, w') ∧
    trace w' = (trace w ++ new)%list ∧
    (1 ≤ List.length (filter (λ e, is_mutation e = true) new) ≤ 3)%nat ∧
    Forall (λ e, ∃ rm', e = EvUpdateList list_id rm' append_items ∧
                        ∀ x, x ∈ rm' → x ∈ remove_items)
           (filter (λ e, is_mutation e = true) new) ∧
    last new = Some (EvUpdateList list_id remove_last append_items) ∧
    remote w_last = remote w ∧
    Api.patch_list_req list_id remove_last append_items w_last = (r_last, w') ∧
    r = returned r_last ∧
    (∀ result, r_last = Ok result →
       lst_id result = list_id ∧
       ∃ items, st_lists (remote w) !! list_id = Some (lst_name result, items) ∧
                st_lists (remote w') !! list_id
                = Some (lst_name result,
                        (items ∖ list_to_set remove_last) ∪ list_to_set append_items)) ∧
    (∀ e, r_last = Raise e → is_http e ∧ remote w' = remote w).
Proof.
  unfold update_list, update_list_with.
  destruct (update_list_attempts_bounded 3 list_id append_items (seqZ 0 3)
              (set_order remove_items) w)
    as (r & w' & new & rm_last & w_last & r_last & Hrun & Htr & Hlen & Hall & Hnew & Hrem
        & Hask & Hr).
  { done. }
  { intros a Ha. vm_compute in Ha. injection Ha as <-. lia. }
  exists r, w', new, rm_last, w_last, r_last. split; [done|]. split; [done|].
  split. { change (List.length (seqZ 0 3)) with 3%nat in Hlen. lia. }
  split.
  { eapply Forall_impl; [exact Hall|]. intros e (rm' & -> & Hsub). exists rm'.
    split; [done|]. intros x Hx. by apply set_order_elem, Hsub. }
  split; [done|]. split; [done|]. split; [done|]. split; [done|]. split.
  - intros result ->. rewrite <- Hrem. by apply patch_list_accepted.
  - intros e ->. split; [by eapply patch_list_raises|].
    rewrite <- Hrem. by eapply patch_list_refused.
Qed.

(** * The domain sources *)

(** ** Splitting on whitespace *)

Lemma append_nil_r (a : string) : a +:+ "" = a.
Proof. induction a as [|x a IH]; [done|]. by rewrite append_cons, IH. Qed.

Lemma no_space_app a b : Text.no_space (a +:+ b) = Text.no_space a && Text.no_space b.
Proof.
  induction a as [|x a IH]; [done|]. rewrite append_cons. cbn [Text.no_space].
  by rewrite IH, andb_assoc.
Qed.

Lemma append_eq_nil (a b : string) : a +:+ b = "" → a = "" ∧ b = "".
Proof. by destruct a. Qed.

Lemma split_from_words s : ∀ word,
  word = "" ∨ is_word word → Forall is_word (Text.split_from word s).
Proof.
  induction s as [|c r IH]; intros word Hword; cbn [Text.split_from].
  - destruct (String.eqb_spec word ""); [done|]. apply Forall_singleton.
    by destruct Hword.
  - destruct (Py.is_space c) eqn:Hc.
    + destruct (String.eqb_spec word "") as [->|Hne]; [by apply IH; left|].
      apply Forall_cons. split; [by destruct Hword|]. apply IH. by left.
    + apply IH. right. split.
      * intros [_ ?]%append_eq_nil. done.
      * rewrite no_space_app. cbn [Text.no_space]. rewrite Hc. simpl.
        destruct Hword as [->|[_ ->]]; done.
Qed.

Lemma rstrip_word u : Text.no_space u = true → Py.rstrip u = u.
Proof.
  induction u as [|c r IH]; [done|]. cbn [Text.no_space Py.rstrip].
  intros [Hc Hr]%andb_true_iff. rewrite (IH Hr).
  destruct r; [|done]. by destruct (Py.is_space c).
Qed.

Lemma strip_word u : Text.no_space u = true → Py.strip u = u.
Proof.
  intros Hu. unfold Py.strip.
  assert (Py.lstrip u = u) as ->; [|by apply rstrip_word].
  destruct u as [|c r]; [done|]. cbn [Text.no_space] in Hu. cbn [Py.lstrip].
  by destruct (Py.is_space c).
Qed.

Lemma strip_filter_words (l : list string) :
  Forall is_word l → Py.strip <$> filter (λ url, Py.strip url ≠ "") l = l.
Proof.
  induction 1 as [|u l [Hne Hu] Hl IH]; [done|].
  rewrite filter_cons_True by (by rewrite strip_word). rewrite fmap_cons, IH.
  by rewrite strip_word.
Qed.

Lemma read_urls_from_env_split h env_var :
  Domains.read_urls_from_env h env_var = Text.split (Domains.getenv h env_var).
Proof.
  unfold Domains.read_urls_from_env. apply strip_filter_words, split_from_words. by left.
Qed.

Lemma split_from_blank p : Text.all_space p = true → ∀ s,
  Text.split_from "" (p +:+ s) = Text.split_from "" s.
Proof.
  induction p as [|c p IH]; [done|]. cbn [Text.all_space].
  intros [Hc Hp]%andb_true_iff s. rewrite append_cons. cbn [Text.split_from].
  rewrite Hc. by apply IH.
Qed.

Lemma split_from_gap p word : Text.all_space p = true → p ≠ "" → word ≠ "" → ∀ s,
  Text.split_from word (p +:+ s) = word :: Text.split_from "" s.
Proof.
  intros Hp Hne Hword s. destruct p as [|c p]; [done|]. cbn [Text.all_space] in Hp.
  apply andb_true_iff in Hp as [Hc Hp]. rewrite append_cons. cbn [Text.split_from].
  rewrite Hc. destruct (String.eqb_spec word ""); [done|]. f_equal.
  by apply split_from_blank.
Qed.

Lemma split_from_word w : Text.no_space w = true → ∀ word s,
  Text.split_from word (w +:+ s) = Text.split_from (word +:+ w) s.
Proof.
  induction w as [|c w IH]; intros Hw word s; [by rewrite append_nil_r|].
  cbn [Text.no_space] in Hw. apply andb_true_iff in Hw as [Hc Hw].
  rewrite append_cons. cbn [Text.split_from].
  destruct (Py.is_space c); [done|]. rewrite (IH Hw).
  by rewrite append_assoc.
Qed.

Lemma split_from_only_blank p : Text.all_space p = true → Text.split_from "" p = [].
Proof.
  intros Hp. rewrite <- (append_nil_r p). by rewrite (split_from_blank p Hp).
Qed.

Lemma split_from_trail p word :
  Text.all_space p = true → word ≠ "" → Text.split_from word p = [word].
Proof.
  intros Hp Hword. destruct (String.eqb_spec p "") as [->|Hne].
  - cbn [Text.split_from]. by destruct (String.eqb_spec word "").
  - rewrite <- (append_nil_r p). by rewrite (split_from_gap p word Hp Hne Hword).
Qed.

Lemma split_join sep trail : Text.all_space sep = true → sep ≠ "" →
  Text.all_space trail = true → ∀ ws,
  Forall is_word ws → Text.split_from "" (Text.join sep ws +:+ trail) = ws.
Proof.
  intros Hsep Hne Htrail. induction 1 as [|w ws [Hw Hns] Hws IH].
  - cbn [Text.join]. rewrite append_nil. by apply split_from_only_blank.
  - destruct ws as [|w2 ws].
    + cbn [Text.join]. rewrite (split_from_word w Hns). rewrite append_nil.
      by apply split_from_trail.
    + change (Text.join sep (w :: w2 :: ws)) with (w +:+ sep +:+ Text.join sep (w2 :: ws)).
      rewrite !append_assoc. rewrite (split_from_word w Hns), append_nil.
      rewrite (split_from_gap sep w Hsep Hne Hw). by rewrite IH.
Qed.

(** X8.  The URLs read from an environment variable whose value is ASCII
    are its words: none is empty and none holds whitespace, so stripping
    them changes nothing; a variable that is not set, or holds only
    whitespace, gives no URL. *)
Theorem env_urls_are_words (h : Domains.host) (env_var : string) :
  ascii_only (Domains.getenv h env_var) = true →
  Forall is_word (Domains.read_urls_from_env h env_var) ∧
  Domains.read_urls_from_env h env_var = Text.split (Domains.getenv h env_var) ∧
  (Text.all_space (Domains.getenv h env_var) = true →
   Domains.read_urls_from_env h env_var = []).
Proof.
  intros _.
  rewrite read_urls_from_env_split. split; [apply split_from_words; by left|].
  split; [done|]. intros Hblank. by apply split_from_only_blank.
Qed.

Lemma env_urls_are_words_witness :
  Forall is_word (Domains.read_urls_from_env sample_host "DYNAMIC_BLACKLIST") ∧
  Domains.read_urls_from_env sample_host "DYNAMIC_BLACKLIST" = ["z.example"] ∧
  Domains.read_urls_from_env sample_host "DYNAMIC_WHITELIST" = [].
Proof.
  destruct (env_urls_are_words sample_host "DYNAMIC_BLACKLIST") as (Hwords & Heq & _);
    [reflexivity|].
  destruct (env_urls_are_words sample_host "DYNAMIC_WHITELIST") as (_ & _ & Hnone);
    [reflexivity|].
  split; [exact Hwords|]. split; [by rewrite Heq|]. by apply Hnone.
Defined.

(** X9.  Round trip: when the value of the variable is ASCII and holds
    words joined by a separator made of whitespace, with whitespace before
    and after, the URLs read are these words, in order. *)
Theorem env_urls_round_trip (h : Domains.host) (env_var : string)
    (ws : list string) (lead sep trail : string) :
  ascii_only (lead +:+ Text.join sep ws +:+ trail) = true →
  Forall is_word ws →
  Text.all_space lead = true → Text.all_space sep = true → sep ≠ "" →
  Text.all_space trail = true →
  Domains.environ h !! env_var = Some (lead +:+ Text.join sep ws +:+ trail) →
  Domains.read_urls_from_env h env_var = ws.
Proof.
  intros _ Hws Hlead Hsep Hne Htrail Henv. rewrite read_urls_from_env_split.
  unfold Domains.getenv. rewrite Henv. simpl. unfold Text.split.
  rewrite (split_from_blank lead Hlead). by apply split_join.
Qed.

Lemma env_urls_round_trip_witness :
  Domains.read_urls_from_env
    (Domains.Host [] ∅ ∅ ∅ newline
                  {[ "ADLIST_URLS" := " http://a.example/l.txt" +:+ newline +:+
                                             "http://b.example/l.txt " ]} [])
    "ADLIST_URLS"
  = ["http://a.example/l.txt"; "http://b.example/l.txt"].
Proof.
  apply (env_urls_round_trip _ _ ["http://a.example/l.txt"; "http://b.example/l.txt"]
           " " newline " ").
  - reflexivity.
  - repeat constructor; done.
  - reflexivity.
  - reflexivity.
  - done.
  - reflexivity.
  - reflexivity.
Defined.

(** ** The cache of downloads *)

Lemma download_file_frame url h o h' :
  Domains.download_file url h = (o, h') →
  Domains.files h' = Domains.files h ∧ Domains.sealed h' = Domains.sealed h ∧
  Domains.locked h' = Domains.locked h ∧ Domains.linesep h' = Domains.linesep h ∧
  Domains.environ h' = Domains.environ h ∧ Domains.notes h' = Domains.notes h ∧
  Domains.outcomes h' = tail (Domains.outcomes h) ∧
  match Domains.outcomes h with
  | o' :: _ => o = o'
  | [] => o = Domains.HttpFailure url
  end.
Proof.
  unfold Domains.download_file. destruct (Domains.outcomes h) as [|o' later] eqn:Ho;
    intros [= <- <-]; simpl; by rewrite ?Ho.
Qed.

(** Text that holds no carriage return is read back as it was written,
    under the line separator of POSIX and under that of Windows. *)
Lemma written_text_reads_back (linesep data : string) :
  linesep = newline ∨ linesep = crlf → no_cr data = true →
  Py.universal_newlines (Py.to_linesep linesep data) = data.
Proof.
  intros Hsep. induction data as [|c r IH]; [done|]. cbn [no_cr Py.to_linesep].
  intros [Hc Hr]%andb_true_iff. apply negb_true_iff in Hc. specialize (IH Hr).
  destruct (Ascii.eqb c Py.LF) eqn:Hlf.
  - apply Ascii.eqb_eq in Hlf as ->. destruct Hsep as [->| ->].
    + change (newline +:+ ?x) with (String Py.LF x). cbn [Py.universal_newlines].
      change (Ascii.eqb Py.LF Py.CR) with false. cbv iota. by rewrite IH.
    + change (crlf +:+ ?x) with (String Py.CR (String Py.LF x)). cbn [Py.universal_newlines].
      rewrite !Ascii.eqb_refl. by rewrite IH.
  - cbn [Py.universal_newlines]. rewrite Hc. by rewrite IH.
Qed.

(** X10.  [download_with_cache] touches no file but its cache file, and
    that one only when it has just downloaded data; it changes neither the
    environment nor what can be read or written, and uses up one download.
    Data that was downloaded is returned when the cache file is written,
    and also when its writing fails with an [OSError], whatever is then
    left in the file; when the writing raises another exception, that
    exception ends the call and the data is not returned.  When the
    download fails with an [HTTPException] the cache file is read: its
    text, with the line ends of a text file, is returned; a file that is
    missing ends the process, and any other failure to read is raised.  A
    failure of the download other than an [HTTPException] is not answered
    from the cache. *)
Theorem only_the_cache_file_changes (url cache_file : string) (h : Domains.host) :
  ∃ r h',
    Domains.download_with_cache url cache_file h = (r, h') ∧
    (∀ p, p ≠ cache_file → Domains.files h' !! p = Domains.files h !! p) ∧
    Domains.sealed h' = Domains.sealed h ∧
    Domains.locked h' = Domains.locked h ∧
    Domains.linesep h' = Domains.linesep h ∧
    Domains.environ h' = Domains.environ h ∧
    Domains.outcomes h' = tail (Domains.outcomes h) ∧
    match Domains.outcomes h with
    | Domains.Data data :: _ =>
        match Domains.sealed h !! cache_file with
        | None =>
            r = inl data ∧
            Domains.files h' !! cache_file
              = Some (Py.to_linesep (Domains.linesep h) data)
        | Some Domains.OpenRefused => r = inl data ∧ Domains.files h' = Domains.files h
        | Some (Domains.WriteBroken remains) =>
            r = inl data ∧ Domains.files h' !! cache_file = Some remains
        | Some (Domains.WriteCrashes remains) =>
            r = inr (Domains.WriteCrashed cache_file) ∧
            Domains.files h' !! cache_file = Some remains
        end
    | Domains.OtherFailure e :: _ =>
        r = inr (Domains.Propagated e) ∧ Domains.files h' = Domains.files h ∧
        Domains.notes h' = Domains.notes h
    | _ =>
        Domains.files h' = Domains.files h ∧
        match Domains.files h !! cache_file with
        | Some text =>
            if bool_decide (cache_file ∈ Domains.locked h)
            then r = inr (Domains.ReadFailed cache_file)
            else r = inl (Py.universal_newlines text)
        | None => r = inr (Domains.Exit (Domains.NoCacheAvailable url))
        end
    end.
Proof.
  unfold Domains.download_with_cache.
  destruct (Domains.download_file url h) as [o h1] eqn:Hdl.
  destruct (download_file_frame _ _ _ _ Hdl) as (Hf & Hs & Hl & Hsep & He & Hn & Ho & Hout).
  assert (∀ e, o = Domains.HttpFailure e →
    ∃ r h',
      match Domains.read_text cache_file h1 with
      | inl cached_data =>
          (inl cached_data, Domains.record (Domains.UsingCachedData cache_file e) h1)
      | inr (Domains.FileNotFoundError _) =>
          (inr (Domains.Exit (Domains.NoCacheAvailable url)),
           Domains.record (Domains.NoCacheAvailable url) h1)
      | inr other => (inr other, h1)
      end = (r, h') ∧
      (∀ p, p ≠ cache_file → Domains.files h' !! p = Domains.files h !! p) ∧
      Domains.sealed h' = Domains.sealed h ∧
      Domains.locked h' = Domains.locked h ∧
      Domains.linesep h' = Domains.linesep h ∧
      Domains.environ h' = Domains.environ h ∧
      Domains.outcomes h' = tail (Domains.outcomes h) ∧
      Domains.files h' = Domains.files h ∧
      match Domains.files h !! cache_file with
      | Some text =>
          if bool_decide (cache_file ∈ Domains.locked h)
          then r = inr (Domains.ReadFailed cache_file)
          else r = inl (Py.universal_newlines text)
      | None => r = inr (Domains.Exit (Domains.NoCacheAvailable url))
      end) as Hcached.
  { intros e _. unfold Domains.read_text. rewrite Hf, Hl.
    destruct (Domains.files h !! cache_file) as [text|] eqn:Hc.
    - destruct (bool_decide (cache_file ∈ Domains.locked h)) eqn:Hlock;
        eexists _, _; (split; [done|]); simpl; by rewrite ?Hf, ?Hs, ?Hl, ?Hsep, ?He, ?Ho.
    - eexists _, _. split; [done|]. simpl. by rewrite ?Hf, ?Hs, ?Hl, ?Hsep, ?He, ?Ho. }
  destruct (Domains.outcomes h) as [|o' later] eqn:Hscript; subst o.
  - destruct (Hcached url eq_refl) as (r & h' & Hrun & H1 & H2 & H3 & H4 & H5 & H6 & H7 & H8).
    exists r, h'. by split_and!.
  - destruct o' as [data|e|e].
    + clear Hcached. unfold Domains.write_text. rewrite Hs, Hsep.
      destruct (Domains.sealed h !! cache_file) as [[|remains|remains]|] eqn:Hsealed;
        eexists _, _; (split; [done|]); simpl; rewrite ?Hf, ?Hs, ?Hl, ?Hsep, ?He, ?Ho;
        split_and!; try done; try (by rewrite lookup_insert_eq);
        intros p Hp; by rewrite lookup_insert_ne.
    + destruct (Hcached e eq_refl) as (r & h' & Hrun & H1 & H2 & H3 & H4 & H5 & H6 & H7 & H8).
      exists r, h'. by split_and!.
    + eexists _, _. split; [done|]. by rewrite ?Hf, ?Hs, ?Hl, ?Hsep, ?He, ?Ho, ?Hn.
Qed.

(** X11.  Round trip through the cache: once a download has succeeded and
    its cache file was written, a later call on the same cache file whose
    download fails with an [HTTPException] returns the text of the earlier
    download as a text file gives it back, as long as the file was left
    alone in between and can be read: with its line feeds written as the
    line separator and every line end read as a line feed.  That is the
    data of the earlier download itself when it holds no carriage return
    and the line separator is that of POSIX or of Windows. *)
Theorem cache_serves_last_download (url cache_file data : string)
    (later : list Domains.fetched) (h : Domains.host) (url' : string) (h2 : Domains.host) :
  Domains.outcomes h = Domains.Data data :: later →
  Domains.sealed h !! cache_file = None →
  Domains.files h2 !! cache_file
    = Domains.files (Domains.download_with_cache url cache_file h).2 !! cache_file →
  cache_file ∉ Domains.locked h2 →
  next_fails h2 →
  (Domains.download_with_cache url cache_file h).1 = inl data ∧
  (Domains.download_with_cache url' cache_file h2).1
    = inl (Py.universal_newlines (Py.to_linesep (Domains.linesep h) data)) ∧
  (no_cr data = true → Domains.linesep h = newline ∨ Domains.linesep h = crlf →
   (Domains.download_with_cache url' cache_file h2).1 = inl data) ∧
  Domains.files (Domains.download_with_cache url' cache_file h2).2 = Domains.files h2.
Proof.
  intros Hout Hsealed Hsame Hlock Hfails.
  destruct (only_the_cache_file_changes url cache_file h)
    as (r & h1 & Hrun & _ & _ & _ & _ & _ & _ & Hres).
  rewrite Hout, Hsealed in Hres. destruct Hres as [-> Hfile].
  rewrite Hrun in Hsame |- *. simpl in Hsame. rewrite Hfile in Hsame. split; [done|].
  destruct (only_the_cache_file_changes url' cache_file h2)
    as (r2 & h3 & Hrun2 & _ & _ & _ & _ & _ & _ & Hres2).
  rewrite Hrun2. simpl. unfold next_fails in Hfails.
  assert (Domains.files h3 = Domains.files h2 ∧
          r2 = inl (Py.universal_newlines (Py.to_linesep (Domains.linesep h) data)))
    as [Hfiles ->].
  { destruct (Domains.outcomes h2) as [|[d|e|e] rest]; try done;
      destruct Hres2 as [-> Hr]; rewrite Hsame, (bool_decide_eq_false_2 _ Hlock) in Hr; done. }
  split; [done|]. split; [|done]. intros Hcr Hsep. by rewrite written_text_reads_back.
Qed.

Lemma cache_serves_last_download_witness :
  ∃ h1,
    Domains.download_with_cache "http://a.example/list.txt" "./lists/adlist_cache.txt"
      sample_host = (inl ("x.example" +:+ newline), h1) ∧
    (Domains.download_with_cache "http://a.example/list.txt" "./lists/adlist_cache.txt"
       (offline h1)).1 = inl ("x.example" +:+ newline).
Proof.
  exists (Domains.download_with_cache "http://a.example/list.txt" "./lists/adlist_cache.txt"
            sample_host).2.
  split; [by vm_compute|].
  refine (proj1 (proj2 (proj2 (cache_serves_last_download
            "http://a.example/list.txt" "./lists/adlist_cache.txt" ("x.example" +:+ newline)
            _ sample_host "http://a.example/list.txt" _ _ _ _ _ _))) _ _).
  - reflexivity.
  - reflexivity.
  - reflexivity.
  - vm_compute. set_solver.
  - exact I.
  - reflexivity.
  - by left.
Defined.

(** ** The cache files of [process_urls] *)

Lemma length_append (a b : string) :
  String.length (a +:+ b) = (String.length a + String.length b)%nat.
Proof. induction a as [|x a IH]; [done|]. rewrite append_cons. simpl. by rewrite IH. Qed.

Lemma cache_path_inj base i j :
  Domains.cache_path base i = Domains.cache_path base j → i = j.
Proof.
  unfold Domains.cache_path.
  destruct (bool_decide_reflect (i = 0%nat)) as [->|Hi],
           (bool_decide_reflect (j = 0%nat)) as [->|Hj]; try done.
  - intros Heq. apply (f_equal String.length) in Heq.
    rewrite !length_append in Heq. simpl in Heq. lia.
  - intros Heq. apply (f_equal String.length) in Heq.
    rewrite !length_append in Heq. simpl in Heq. lia.
  - intros Heq%(inj (String.append base)). rewrite !append_cons, !append_nil in Heq.
    injection Heq as Heq. by apply (inj pretty) in Heq.
Qed.

Lemma cache_path_suffix base i : ∃ suffix, Domains.cache_path base i = base +:+ suffix.
Proof.
  unfold Domains.cache_path. destruct (bool_decide _); [|by eexists].
  exists "". by rewrite append_nil_r.
Qed.

Lemma caches_apart i j :
  Domains.cache_path (Domains.path_of "ADLIST_CACHE") i
  ≠ Domains.cache_path (Domains.path_of "WHITELIST_CACHE") j.
Proof.
  destruct (cache_path_suffix (Domains.path_of "ADLIST_CACHE") i) as [s1 ->].
  destruct (cache_path_suffix (Domains.path_of "WHITELIST_CACHE") j) as [s2 ->].
  change (Domains.path_of "ADLIST_CACHE") with "./lists/adlist_cache.txt".
  change (Domains.path_of "WHITELIST_CACHE") with "./lists/whitelist_cache.txt".
  rewrite !append_cons. intros Heq. discriminate Heq.
Qed.

(** X12.  No two downloads of [process_urls] share a cache file: the
    cache files of a list of URLs differ from one index to the next, and a
    cache file of the block lists is never one of the allow lists. *)
Theorem cache_files_are_distinct :
  (∀ base i j, Domains.cache_path base i = Domains.cache_path base j → i = j) ∧
  (∀ i j, Domains.cache_path (Domains.path_of "ADLIST_CACHE") i
          ≠ Domains.cache_path (Domains.path_of "WHITELIST_CACHE") j).
Proof. split; [apply cache_path_inj|apply caches_apart]. Qed.








(** ** The rule request *)

Lemma reconcile_index_ids `{PySetOrder} self d dict i rem ids w rem' ids' w' :
  reconcile_index self d dict i (rem, ids) w = (Ok (rem', ids'), w') →
  (∀ id, id ∈ dom (st_lists (remote w)) → id ∈ dom (st_lists (remote w'))) ∧
  (∀ id, id ∈ ids' → id ∈ ids ∨ id ∈ dom (st_lists (remote w'))).
Proof.
  intros Hrun. destruct (dict !! canon self i) as [lid|] eqn:Hd.
  - destruct (existing_effect _ _ _ _ _ _ _ _ _ _ _ Hd Hrun)
      as (name & items & Hid & _ & -> & Hlists & _).
    rewrite Hlists. split.
    + intros id Hin. rewrite dom_insert. set_solver.
    + intros id [Hin|Hin%list_elem_of_singleton]%elem_of_app; [by left|right]. subst id.
      rewrite dom_insert. set_solver.
  - destruct (decide (len ids < MAX_LISTS)) as [Hlen|Hlen].
    + destruct (missing_effect _ _ _ _ _ _ _ _ _ _ Hd Hlen Hrun)
        as [(_ & _ & -> & ->)|(_ & _ & -> & Hlists & _)]; [by split; [|left]|].
      rewrite Hlists. split.
      * intros id Hin. rewrite dom_insert. set_solver.
      * intros id [Hin|Hin%list_elem_of_singleton]%elem_of_app; [by left|right]. subst id.
        rewrite dom_insert. set_solver.
    + unfold reconcile_index in Hrun. fold (canon self i) in Hrun. rewrite Hd in Hrun.
      destruct (bool_decide (rem ≠ ∅)).
      * rewrite bool_decide_eq_true_2 in Hrun by lia. by inv_bind Hrun.
      * injection Hrun as <- <- <-. by split; [|left].
Qed.

Lemma loop_ids_exist `{PySetOrder} self d dict idxs : ∀ rem ids w rem' ids' w',
  foldM (reconcile_index self d dict) idxs (rem, ids) w = (Ok (rem', ids'), w') →
  (∀ id, id ∈ ids → id ∈ dom (st_lists (remote w))) →
  ∀ id, id ∈ ids' → id ∈ dom (st_lists (remote w')).
Proof.
  induction idxs as [|i idxs IH]; intros rem ids w rem' ids' w' Hrun Hin.
  - injection Hrun as <- <- <-. done.
  - cbn [foldM] in Hrun. inv_bind Hrun. destruct a as [rem1 ids1].
    destruct (reconcile_index_ids _ _ _ _ _ _ _ _ _ _ Hrun0) as [Hdom Hids].
    eapply IH; [exact Hrun|]. intros id [Hid|Hid]%Hids; [|done]. by apply Hdom, Hin.
Qed.

Ltac world_simpl :=
  cbn [disk mem remote trace faults st_lists st_rules st_retired set_remote set_disk set_mem
       set_faults emit tick put_rule put_list cache_lists cache_rules cache_mapping].

Lemma sync_rule_Ok self rules ids w u w' :
  sync_rule self rules ids w = (Ok u, w') →
  disk w' = mem w' ∧ st_lists (remote w') = st_lists (remote w) ∧
  ∃ request note,
    trace w' = (trace w ++ request ++ [note; EvSaveCache (mem w')])%list ∧
    match find_rule (rule_name self) rules with
    | Some r =>
        if bool_decide (list_to_set ids ≠ utils.extract_list_ids (Some r))
        then request = [EvUpdateRule (rule_name self) (r_id r) ids] ∧
             st_rules (remote w') !! r_id r = Some (rule_name self, ids)
        else request = [] ∧ note = EvSilentError (SkippedRule (r_name r)) ∧
             remote w' = remote w
    | None =>
        request = [EvCreateRule (rule_name self) ids] ∧
        ∃ rid, st_rules (remote w) !! rid = None ∧
               st_rules (remote w') !! rid = Some (rule_name self, ids)
    end.
Proof.
  unfold sync_rule, utils.save_cache. unfold mbind, M_bind, info, silent_error, modify.
  destruct (find_rule (rule_name self) rules) as [r|].
  - destruct (bool_decide (list_to_set ids ≠ utils.extract_list_ids (Some r))).
    + rewrite update_rule_eq. cbn zeta.
      destruct (fails w); [done|]. destruct (st_rules (remote w) !! r_id r); [|done].
      intros [= <- <-]. world_simpl. split; [done|]. split; [done|].
      exists [EvUpdateRule (rule_name self) (r_id r) ids], (EvInfo (UpdatedRule (rule_name self))).
      split; [by rewrite <- !app_assoc|]. split; [done|].
      by rewrite lookup_insert_eq.
    + intros [= <- <-]. world_simpl. split; [done|]. split; [done|].
      exists [], (EvSilentError (SkippedRule (r_name r))).
      split; [by rewrite <- !app_assoc|]. done.
  - rewrite create_rule_eq. cbn zeta. destruct (fails w); [done|].
    intros [= <- <-]. world_simpl. split; [done|]. split; [done|].
    exists [EvCreateRule (rule_name self) ids], (EvInfo (CreatedRule (rule_name self))).
    split; [by rewrite <- !app_assoc|]. split; [done|].
    exists (Api.fresh_id (remote w)). rewrite lookup_insert_eq. split; [|done].
    apply not_elem_of_dom. unfold Api.fresh_id.
    pose proof (is_fresh (dom (st_lists (remote w)) ∪ dom (st_rules (remote w))
                          ∪ st_retired (remote w))) as Hfresh.
    set_solver.
Qed.

Lemma not_rule_of_reclaim e : reclaim_event e → not_rule_request e.
Proof. by destruct e. Qed.

Lemma not_rule_of_list e : list_event e → not_rule_request e.
Proof. by destruct e. Qed.

(** X15.  A pass that returns has written the rule last.  Its trace ends
    with at most one request about the rule, a log line and the call that
    saves the cache, and nothing before them is a request about a rule.
    The lists in use are at most [MAX_LISTS], they all exist in the store
    at the end, and the request about the rule, an update or a creation
    under the name of the manager, names exactly them; there is no request
    only when the rule the pass knows already refers to the same set of
    lists. *)
Theorem rule_written_last `{PySetOrder} (self : CloudflareManager)
    (domains_to_block : list Domain) (w : world) (u : unit) (w' : world) :
  update_resources self domains_to_block w = (Ok u, w') →
  ∃ earlier request note new_list_ids,
    trace w' = (trace w ++ earlier ++ request ++ [note; EvSaveCache (mem w')])%list ∧
    Forall not_rule_request earlier ∧
    ((request = [] ∧
      ∃ r, find_rule (rule_name self) (known_rules self w) = Some r ∧
           list_to_set new_list_ids = (list_to_set (r_list_ids r) : gset ident)) ∨
     (∃ rule_id, request = [EvUpdateRule (rule_name self) rule_id new_list_ids]) ∨
     request = [EvCreateRule (rule_name self) new_list_ids]) ∧
    len new_list_ids ≤ MAX_LISTS ∧
    (∀ id, id ∈ new_list_ids → is_Some (st_lists (remote w') !! id)).
Proof.
  intros Hrun.
  destruct (pass_Ok _ _ _ _ _ Hrun)
    as (Hd & rules & count & w1 & cl & rem & w2 & rem' & ids & w3
        & Hreclaim & Hcount & Hinv & Hloop & Hsync).
  destruct (sync_rule_Ok _ _ _ _ _ _ Hsync) as (_ & Hlists & request & note & Htr & Hrule).
  destruct (emits_reclaim_orphans self _ _ _ Hreclaim) as (n1 & Ht1 & Hall1).
  destruct (emits_take_inventory self domains_to_block _ _ _ Hinv) as (n2 & Ht2 & Hall2).
  destruct (emits_reconcile_lists self domains_to_block cl rem _ _ _ Hloop)
    as (n3 & Ht3 & Hall3).
  assert (rules = known_rules self w) as ->.
  { destruct (reclaim_orphans_ok _ _ _ _ _ Hreclaim)
      as (gone & _ & _ & _ & _ & _ & _ & _ & _ & _ & _ & _ & Hne & He).
    unfold known_rules. destruct (cache_rules (mem w)) as [|r0 rs] eqn:Hcr; [by apply He|].
    by apply Hne. }
  rewrite reconcile_lists_eq in Hloop. inv_bind Hloop. rename a into parsed.
  exists (n1 ++ n2 ++ n3)%list, request, note, ids. split.
  { rewrite Htr, Ht3, Ht2, Ht1. by rewrite <- !app_assoc. }
  split.
  { apply Forall_app. split; [eapply Forall_impl; [done|apply not_rule_of_reclaim]|].
    apply Forall_app. split; [eapply Forall_impl; [done|done]|].
    eapply Forall_impl; [done|apply not_rule_of_list]. }
  split.
  { destruct (find_rule (rule_name self) (known_rules self w)) as [r|].
    - destruct (bool_decide (list_to_set ids ≠ utils.extract_list_ids (Some r))) eqn:Hset.
      + right. left. destruct Hrule as [-> _]. by eexists.
      + left. destruct Hrule as (-> & _ & _). split; [done|]. exists r. split; [done|].
        apply bool_decide_eq_false in Hset. by apply dec_stable in Hset.
    - right. right. by destruct Hrule as [-> _]. }
  split.
  { destruct (reconcile_loop_length _ _ _ _ _ _ _ _ _ Hloop) as [Hlen _].
    specialize (Hlen _ _ eq_refl). rewrite len_seqZ in Hlen.
    assert (0 ≤ (len domains_to_block + 999) `div` 1000) as Hneeded
      by (apply Z.div_pos; [pose proof (len_nonneg domains_to_block)|]; lia).
    destruct (max_index_of_bounds parsed _ Hneeded) as (Hm & _). unfold len in Hlen at 2.
    simpl in Hlen. lia. }
  intros id Hid. rewrite Hlists. apply elem_of_dom.
  eapply loop_ids_exist; [exact Hloop| |exact Hid]. intros ? Hnil. by apply elem_of_nil in Hnil.
Qed.

Lemma rule_written_last_witness :
  ∃ w', @update_resources elements_order cgp ["a.example"] two_orphans = (Ok (), w') ∧
        last (trace w') = Some (EvSaveCache (mem w')) ∧
        filter (λ e, is_mutation e = true) (trace w')
          = [EvDeleteList 8%N; EvCreateList "[CGP] - 001" ["a.example"];
             EvUpdateList 7%N ["x.example"] []; EvCreateRule "[CGP] Block Ads" [9%N; 7%N]].
Proof.
  exists (@update_resources elements_order cgp ["a.example"] two_orphans).2.
  split; [by vm_compute|].
  destruct (@rule_written_last elements_order cgp ["a.example"] two_orphans ()
              (@update_resources elements_order cgp ["a.example"] two_orphans).2)
    as (earlier & request & note & ids & Htr & _); [by vm_compute|].
  split; [|by vm_compute]. rewrite Htr.
  rewrite !app_assoc.
  change [note; EvSaveCache (mem (@update_resources elements_order cgp ["a.example"] two_orphans).2)]
    with ([note] ++ [EvSaveCache (mem (@update_resources elements_order cgp ["a.example"]
                                          two_orphans).2)])%list.
  rewrite app_assoc. apply last_snoc.
Defined.

(** ** From a store in order to the loop *)

Lemma entry_from_inventory self d w rules count w1 cl rem w2 :
  good_lists self (st_lists (remote w)) →
  cache_agrees self (mem w) (st_lists (remote w)) →
  reclaim_orphans self w = (Ok (rules, count), w1) →
  take_inventory self d w1 = (Ok (cl, rem), w2) →
  loop_entry self (list_to_set d) (st_lists (remote w)) cl rem w2.
Proof.
  intros Hgood Hcache Hreclaim Hinv.
  destruct (reclaim_orphans_ok _ _ _ _ _ Hreclaim)
    as (gone & Hl1 & _ & Hret1 & _ & _ & _ & _ & _ & Hcl1 & Hm1 & _).
  destruct (take_inventory_ok _ _ _ _ _ _ Hinv)
    as (Hr2 & _ & Hcl2 & _ & Hne & He & Hkeep & Hnew & Hall & Hrem).
  set (L0 := st_lists (remote w)) in *.
  assert (∀ id x, st_lists (remote w2) !! id = Some x → L0 !! id = Some x) as Hsub.
  { intros id x. rewrite Hr2, Hl1, lookup_without. by destruct (decide (id ∈ gone)). }
  assert (∀ l, l ∈ cl → managed self (lst_name l) ∧
                        ∃ it0, L0 !! lst_id l = Some (lst_name l, it0)) as HA.
  { intros l Hl. destruct (cache_lists (mem w)) as [|c0 cs] eqn:Hcached.
    - rewrite He in Hl by (by rewrite Hcl1). destruct l as [id name].
      apply elem_of_remote_lists in Hl as [[items Hid] Hp]. split; [done|].
      exists items. apply Hsub. by rewrite Hr2.
    - rewrite Hne in Hl by (by rewrite Hcl1). rewrite Hcl1 in Hl.
      apply (ca_lists _ _ _ Hcache). by rewrite Hcached. }
  assert (∀ l, l ∈ cl → ∃ it0 its,
            L0 !! lst_id l = Some (lst_name l, it0) ∧
            cache_mapping (mem w2) !! lst_id l = Some its ∧ list_to_set its = it0) as HB.
  { intros l Hl. destruct (HA l Hl) as (Hmg & it0 & HL0).
    destruct (Hall l Hl) as [its Hits]. exists it0, its. split; [done|]. split; [done|].
    destruct (Hnew _ _ Hits) as [Hold|(name & items & Hid & ->)].
    - rewrite Hm1 in Hold. destruct (ca_items _ _ _ Hcache _ _ Hold) as [name Hname].
      rewrite HL0 in Hname. by injection Hname as _ <-.
    - rewrite Hl1, lookup_without in Hid. destruct (decide (lst_id l ∈ gone)); [done|].
      rewrite HL0 in Hid. injection Hid as _ <-.
      apply fetched_all. by eapply (gl_sizes _ _ Hgood). }
  constructor.
  - done.
  - intros l Hl. destruct (HA l Hl) as (Hmg & _). split; [done|]. split; [done|].
    destruct (HB l Hl) as (it0 & its & HL0 & Hmap & Hset). exists it0, its.
    split; [done|]. split; [done|]. split; [done|].
    intros x Hx. apply Hsub in Hx. rewrite HL0 in Hx. by injection Hx as <-.
  - done.
  - intros id name items Hid Hmg. destruct (cache_lists (mem w)) as [|c0 cs] eqn:Hcached.
    + rewrite He by (by rewrite Hcl1). apply elem_of_remote_lists. split; [|done].
      exists items. by rewrite <- Hr2.
    + rewrite Hne by (by rewrite Hcl1). rewrite Hcl1, <- Hcached.
      apply (ca_all _ _ _ Hcache) with (items := items); [by rewrite Hcached| |done].
      * by apply Hsub.
  - done.
  - intros x. rewrite Hrem, elem_of_list_to_set. split.
    + intros [Hx Hno]. split; [done|]. intros l nm it0 Hl HL0.
      destruct (HB l Hl) as (it0' & its & HL0' & Hmap & Hset).
      rewrite HL0 in HL0'. injection HL0' as _ ->. rewrite <- Hset.
      rewrite elem_of_list_to_set. by eapply Hno.
    + intros [Hx Hno]. split; [done|]. intros l its Hl Hmap.
      destruct (HB l Hl) as (it0 & its' & HL0 & Hmap' & Hset).
      rewrite Hmap in Hmap'. injection Hmap' as <-.
      intros Hin. eapply (Hno l _ _ Hl HL0). rewrite <- Hset. by apply elem_of_list_to_set.
  - intros id Hid. rewrite Hr2, Hret1. apply elem_of_union.
    destruct (decide (id ∈ gone)) as [Hg|Hg].
    + right. apply elem_of_union. left. by apply elem_of_list_to_set.
    + left. apply elem_of_dom. rewrite Hl1, lookup_without, decide_False by done.
      by apply elem_of_dom.
Qed.

(** ** Coverage *)

Lemma size_list_to_set_le (l : list Domain) :
  (size (list_to_set (C := gset Domain) l) ≤ List.length l)%nat.
Proof.
  induction l as [|x l IH]; [by rewrite list_to_set_nil, size_empty|].
  rewrite list_to_set_cons, size_union_alt, size_singleton. simpl.
  assert (size (list_to_set (C := gset Domain) l ∖ {[x]}) ≤ size (list_to_set (C := gset Domain) l))%nat
    by (apply subseteq_size; set_solver).
  lia.
Qed.

(** While domains remain, the lists of the indexes up to [k] are full and
    apart: together they hold at least [1000 * k] desired domains. *)
Lemma full_lists_count self D R0 CL m rem ids w :
  loop_inv self D R0 CL m m rem ids w →
  lists_disjoint self R0 → rem ≠ ∅ → m ≤ MAX_LISTS →
  ∀ k : nat, Z.of_nat k ≤ m →
  ∃ S : gset Domain,
    S ⊆ D ∖ rem ∧ (1000 * k ≤ size S)%nat ∧
    ∀ x, x ∈ S → ∃ l j items,
      l ∈ cache_lists (mem w) ∧ lst_name l = canon self j ∧ 1 ≤ j ≤ Z.of_nat k ∧
      st_lists (remote w) !! lst_id l = Some (lst_name l, items) ∧ x ∈ items.
Proof.
  intros Hinv Hdisj Hrem Hm. induction k as [|k IH]; intros Hk.
  - exists ∅. split; [set_solver|]. split; [rewrite size_empty; lia|set_solver].
  - destruct IH as (S0 & Hsub & Hsize & Hin); [lia|].
    destruct (li_occupied _ _ _ _ _ _ _ _ _ Hinv Hrem (Z.of_nat (S k))) as (l & Hl & Hname);
      [lia|].
    destruct (li_lists _ _ _ _ _ _ _ _ _ Hinv l Hl) as (j & Hj & Hnj & Hst).
    rewrite decide_True in Hst by lia.
    destruct Hst as (items & its & Hlook & HsubD & _ & _ & _ & _ & Hfull & Hno & _).
    assert (S0 ## items) as Hapart.
    { apply elem_of_disjoint. intros x Hx Hx'.
      destruct (Hin x Hx) as (l2 & j2 & items2 & Hl2 & Hn2 & Hj2 & Hlook2 & Hx2).
      assert (l2 ≠ l) as Hne.
      { intros ->. rewrite Hname in Hn2. apply canon_inj in Hn2; lia. }
      pose proof (li_disj _ _ _ _ _ _ _ _ _ Hinv Hdisj l2 l _ _ _ _ Hl2 Hl Hne Hlook2 Hlook)
        as Hd. set_solver. }
    exists (S0 ∪ items). split; [set_solver|]. split.
    + rewrite size_union by done. specialize (Hfull Hrem). lia.
    + intros x [Hx|Hx]%elem_of_union.
      * destruct (Hin x Hx) as (l2 & j2 & items2 & Hl2 & Hn2 & Hj2 & Hlook2 & Hx2).
        exists l2, j2, items2. split_and!; try done; lia.
      * exists l, (Z.of_nat (S k)), items. split_and!; try done; lia.
Qed.

(** No domain remains when the loop ends within capacity. *)
Lemma nothing_remains self (d : list Domain) R0 CL m rem ids w :
  loop_inv self (list_to_set d) R0 CL m m rem ids w →
  lists_disjoint self R0 →
  0 ≤ m ≤ MAX_LISTS →
  Z.min ((len d + 999) `div` 1000) MAX_LISTS ≤ m →
  len d ≤ MAX_LISTS * 1000 →
  rem = ∅.
Proof.
  intros Hinv Hdisj Hm Hmin Hd.
  destruct (decide (rem = ∅)) as [|Hrem]; [done|]. exfalso.
  destruct (full_lists_count _ _ _ _ _ _ _ _ Hinv Hdisj Hrem (proj2 Hm) (Z.to_nat m))
    as (S0 & Hsub & Hsize & _); [lia|].
  assert (∃ x, x ∈ rem) as [x Hx] by (by apply set_choose_L).
  destruct (li_rem _ _ _ _ _ _ _ _ _ Hinv) as [HremD _].
  assert (S0 ∪ {[x]} ⊆ list_to_set d) as Hall by set_solver.
  apply subseteq_size in Hall. rewrite size_union, size_singleton in Hall by set_solver.
  pose proof (size_list_to_set_le d) as Hle. unfold len, MAX_LISTS in *.
  assert (Z.of_nat (List.length d) ≤ 1000 * m) as Hcap.
  { destruct (Z.min_spec ((Z.of_nat (List.length d) + 999) `div` 1000) 298) as [[_ Heq]|[_ Heq]];
      rewrite Heq in Hmin; [|lia].
    pose proof (Z.mul_div_le (Z.of_nat (List.length d) + 999) 1000 ltac:(lia)) as Hdiv.
    pose proof (Z.mod_pos_bound (Z.of_nat (List.length d) + 999) 1000 ltac:(lia)) as Hmod.
    pose proof (Z.div_mod (Z.of_nat (List.length d) + 999) 1000 ltac:(lia)) as Hdm.
    lia. }
  lia.
Qed.

(** The sample store with a rule and its two lists satisfies what a pass
    expects. *)
Lemma two_lists_lookup (id : ident) (name : string) (items : gset Domain) :
  st_lists (remote two_lists_world) !! id = Some (name, items) →
  (id = 7%N ∧ name = canon cgp 1 ∧ items = {[ "a.example" ]}) ∨
  (id = 8%N ∧ name = canon cgp 2 ∧ items = {[ "b.example" ]}).
Proof.
  unfold two_lists_world, two_lists_store. simpl.
  intros [[<- Heq]|[Hne Hl]]%lookup_insert_Some.
  - left. by injection Heq as <- <-.
  - apply lookup_singleton_Some in Hl as [<- Heq]. right. by injection Heq as <- <-.
Qed.

Lemma two_lists_good : good_lists cgp (st_lists (remote two_lists_world)).
Proof.
  constructor.
  - intros id name items Hl _.
    destruct (two_lists_lookup _ _ _ Hl) as [(_ & -> & _)|(_ & -> & _)];
      [exists 1|exists 2]; (split; [unfold MAX_LISTS; lia|done]).
  - intros id1 id2 name s1 s2 H1 H2 _.
    destruct (two_lists_lookup _ _ _ H1) as [(-> & -> & _)|(-> & -> & _)],
             (two_lists_lookup _ _ _ H2) as [(-> & Hn & _)|(-> & Hn & _)];
      first [done | by vm_compute in Hn].
  - intros id name items Hl _.
    destruct (two_lists_lookup _ _ _ Hl) as [(_ & _ & ->)|(_ & _ & ->)];
      rewrite size_singleton; lia.
Qed.

Lemma two_lists_cache : cache_agrees cgp (mem two_lists_world) (st_lists (remote two_lists_world)).
Proof.
  constructor; simpl.
  - intros l Hl. by apply elem_of_nil in Hl.
  - done.
  - intros id its. by rewrite lookup_empty.
Qed.

Lemma two_lists_disjoint : lists_disjoint cgp (st_lists (remote two_lists_world)).
Proof.
  intros id1 id2 n1 n2 s1 s2 H1 H2 _ _ Hne.
  destruct (two_lists_lookup _ _ _ H1) as [(-> & _ & ->)|(-> & _ & ->)],
           (two_lists_lookup _ _ _ H2) as [(-> & _ & ->)|(-> & _ & ->)];
    first [done | apply disjoint_singleton_l, not_elem_of_singleton; discriminate].
Qed.

(** X16.  Coverage and capacity.  Take a store whose managed lists are in
    order (canonical names with an index from 1 to [MAX_LISTS], no name
    twice, at most 1000 items, no domain in two lists) and a cache that
    agrees with it.  When a pass returns, the lists in use are those its
    rule request names, or, when it sends none, those the rule it knows
    already refers to.  They are at most [MAX_LISTS] managed lists of the
    store, each holds at most 1000 domains, and their union is exactly the
    desired set: every list holds desired domains only, and every desired
    domain is in one of them. *)
Theorem pass_covers_desired `{PySetOrder} (self : CloudflareManager)
    (domains_to_block : list Domain) (w : world) (u : unit) (w' : world) :
  good_lists self (st_lists (remote w)) →
  cache_agrees self (mem w) (st_lists (remote w)) →
  lists_disjoint self (st_lists (remote w)) →
  update_resources self domains_to_block w = (Ok u, w') →
  ∃ new_list_ids,
    (∃ earlier request note,
       trace w' = (trace w ++ earlier ++ request ++ [note; EvSaveCache (mem w')])%list ∧
       Forall not_rule_request earlier ∧
       ((request = [] ∧
         ∃ r, find_rule (rule_name self) (known_rules self w) = Some r ∧
              list_to_set new_list_ids = (list_to_set (r_list_ids r) : gset ident)) ∨
        (∃ rule_id, request = [EvUpdateRule (rule_name self) rule_id new_list_ids]) ∨
        request = [EvCreateRule (rule_name self) new_list_ids])) ∧
    len new_list_ids ≤ MAX_LISTS ∧
    (∀ id, id ∈ new_list_ids →
       ∃ name items, st_lists (remote w') !! id = Some (name, items) ∧
                     managed self name ∧ (size items ≤ 1000)%nat ∧
                     ∀ x, x ∈ items → x ∈ domains_to_block) ∧
    (∀ x, x ∈ domains_to_block →
       ∃ id name items, id ∈ new_list_ids ∧
                        st_lists (remote w') !! id = Some (name, items) ∧ x ∈ items).
Proof.
  intros Hgood Hcache Hdisj Hrun.
  destruct (pass_Ok _ _ _ _ _ Hrun)
    as (Hd & rules & count & w1 & cl & rem & w2 & rem' & ids & w3
        & Hreclaim & Hcount & Hinv & Hloop & Hsync).
  pose proof (entry_from_inventory _ _ _ _ _ _ _ _ _ Hgood Hcache Hreclaim Hinv) as Hentry.
  destruct (reconcile_lists_ok _ _ _ _ _ _ Hentry _ _ _ Hloop) as (m & Hm & Hmin & Hend).
  pose proof (nothing_remains _ _ _ _ _ _ _ _ Hend Hdisj Hm Hmin Hd) as ->.
  destruct (sync_rule_Ok _ _ _ _ _ _ Hsync) as (_ & Hlists & request & note & Htr & Hrule).
  destruct (emits_reclaim_orphans self _ _ _ Hreclaim) as (n1 & Ht1 & Hall1).
  destruct (emits_take_inventory self domains_to_block _ _ _ Hinv) as (n2 & Ht2 & Hall2).
  destruct (emits_reconcile_lists self domains_to_block cl rem _ _ _ Hloop)
    as (n3 & Ht3 & Hall3).
  assert (∀ l, l ∈ cache_lists (mem w3) →
            ∃ items, st_lists (remote w') !! lst_id l = Some (lst_name l, items) ∧
                     managed self (lst_name l) ∧ items ⊆ list_to_set domains_to_block ∧
                     (size items ≤ 1000)%nat ∧ lst_id l ∈ ids ∧
                     (l ∈ cl → ∀ nm it0, st_lists (remote w) !! lst_id l = Some (nm, it0) →
                               it0 ∩ list_to_set domains_to_block ⊆ items)) as Hsettled.
  { intros l Hl. destruct (li_lists _ _ _ _ _ _ _ _ _ Hend l Hl) as (j & Hj & Hname & Hst).
    rewrite decide_True in Hst by lia.
    destruct Hst as (items & its & Hlook & HsubD & Hsz & _ & _ & Hid & _ & _ & Hold).
    exists items. rewrite Hlists. split_and!; try done.
    rewrite Hname. apply canon_managed. }
  exists ids. split.
  { exists (n1 ++ n2 ++ n3)%list, request, note. split.
    { rewrite Htr, Ht3, Ht2, Ht1. by rewrite <- !app_assoc. }
    split.
    { apply Forall_app. split; [eapply Forall_impl; [done|apply not_rule_of_reclaim]|].
      apply Forall_app. split; [eapply Forall_impl; [done|done]|].
      eapply Forall_impl; [done|apply not_rule_of_list]. }
    assert (rules = known_rules self w) as ->.
    { destruct (reclaim_orphans_ok _ _ _ _ _ Hreclaim)
        as (gone & _ & _ & _ & _ & _ & _ & _ & _ & _ & _ & _ & Hne & He).
      unfold known_rules. destruct (cache_rules (mem w)) as [|r0 rs] eqn:Hcr; [by apply He|].
      by apply Hne. }
    destruct (find_rule (rule_name self) (known_rules self w)) as [r|].
    - destruct (bool_decide (list_to_set ids ≠ utils.extract_list_ids (Some r))) eqn:Hset.
      + right. left. destruct Hrule as [-> _]. by eexists.
      + left. destruct Hrule as (-> & _ & _). split; [done|]. exists r. split; [done|].
        apply bool_decide_eq_false in Hset. by apply dec_stable in Hset.
    - right. right. by destruct Hrule as [-> _]. }
  split.
  { pose proof (li_len _ _ _ _ _ _ _ _ _ Hend). lia. }
  split.
  { intros id Hid.
    destruct (li_ids _ _ _ _ _ _ _ _ _ Hend id Hid) as (l & j & Hl & <- & _).
    destruct (Hsettled l Hl) as (items & Hlook & Hmg & HsubD & Hsz & _).
    exists (lst_name l), items. split_and!; try done.
    intros x Hx%HsubD. by apply elem_of_list_to_set in Hx. }
  intros x Hx.
  destruct (li_cover _ _ _ _ _ _ _ _ _ Hend x) as [Hin|[(l & nm & it0 & Hl & HR0 & Hin)
                                                       |(l & items & Hl & Hlook & Hin)]].
  - by apply elem_of_list_to_set.
  - set_solver.
  - pose proof (li_old _ _ _ _ _ _ _ _ _ Hend l Hl) as Hl'.
    destruct (Hsettled l Hl') as (items & Hlook & _ & _ & _ & Hid & Hold).
    exists (lst_id l), (lst_name l), items. split; [done|]. split; [done|].
    apply (Hold Hl nm it0 HR0). apply elem_of_intersection. split; [done|].
    by apply elem_of_list_to_set.
  - destruct (Hsettled l Hl) as (items' & Hlook' & _ & _ & _ & Hid & _).
    exists (lst_id l), (lst_name l), items'. split; [done|]. split; [done|].
    rewrite Hlists, Hlook in Hlook'. by injection Hlook' as <-.
Qed.

Lemma pass_covers_desired_witness :
  ∃ w' ids,
    @update_resources elements_order cgp ["a.example"; "b.example"] two_lists_world = (Ok (), w') ∧
    filter (λ e, is_mutation e = true) (trace w') = [] ∧
    (list_to_set ids : gset ident) = {[ 7%N; 8%N ]} ∧
    ∀ x, x ∈ ["a.example"; "b.example"] →
      ∃ id name items, id ∈ ids ∧ st_lists (remote w') !! id = Some (name, items) ∧ x ∈ items.
Proof.
  destruct (@pass_covers_desired elements_order cgp ["a.example"; "b.example"] two_lists_world ()
              (@update_resources elements_order cgp ["a.example"; "b.example"] two_lists_world).2
              two_lists_good two_lists_cache two_lists_disjoint)
    as (ids & (earlier & request & note & Htr & _ & Hreq) & _ & _ & Hcover); [by vm_compute|].
  exists (@update_resources elements_order cgp ["a.example"; "b.example"] two_lists_world).2, ids.
  assert (filter (λ e, is_mutation e = true)
            (trace (@update_resources elements_order cgp ["a.example"; "b.example"]
                      two_lists_world).2) = []) as Hfil by (by vm_compute).
  split; [by vm_compute|]. split; [done|]. split; [|done].
  destruct Hreq as [(_ & r & Hr & ->)|[(rule_id & ->) | ->]].
  - vm_compute in Hr. injection Hr as <-. simpl. set_solver.
  - exfalso. rewrite Htr, !filter_app in Hfil.
    apply app_eq_nil in Hfil as [_ Hfil]. apply app_eq_nil in Hfil as [_ Hfil].
    by apply app_eq_nil in Hfil as [Hfil _].
  - exfalso. rewrite Htr, !filter_app in Hfil.
    apply app_eq_nil in Hfil as [_ Hfil]. apply app_eq_nil in Hfil as [_ Hfil].
    by apply app_eq_nil in Hfil as [Hfil _].
Defined.
